(** * ssml-parser: a shallow embedding of [ssml.py] and its properties

    The development follows the source file top to bottom: the node model
    ([SSMLText], [SSMLTag]), the entity codec ([unescapeXMLChars],
    [escapeXMLChars]), the recursive-descent parser nested in [parseSSML]
    and the serializer [ssmlNodeToText].

    Modelling decisions.
    - A Python [str] is a sequence of code points; it is modelled as a
      [list ascii], one [ascii] per code point below 256.  String literals
      are written as Rocq strings and coerced with [lit].
    - A Python [dict] keeps insertion order and unique keys; it is an
      association list updated with [dict_set].
    - The parser object holds the read-only text and the mutable cursor
      [pos]; methods are functions from the cursor to a [result] that is a
      value with the new cursor, a raised [ValueError], or [OutOfFuel].
    - [while True] loops and the mutual recursion of [parse_element] and
      [parse_children] take a fuel argument; the section on termination
      shows that [parseSSML] never runs out of it.
    - Trees are compared with Rocq's equality, which also compares the
      order of the attributes; Python's [==] on the dataclasses ignores
      that order, so an equation proved here holds there too.
    - The interpreter's recursion limit is not modelled: a document nested
      about a thousand levels deep makes Python raise [RecursionError]
      where the model goes on parsing. *)

From Stdlib Require Import List Ascii String Arith Lia Bool.
From Stdlib Require Import DecimalString.
Import ListNotations.
Open Scope string_scope.
Open Scope list_scope.
Open Scope nat_scope.

(* ------------------------------------------------------------------ *)
(** ** Strings *)

Definition str := list ascii.

Definition lit (s : string) : str := list_ascii_of_string s.
Coercion lit : string >-> str.

(** The double quote, U+0022. *)
Definition dquote : ascii := Eval cbv in ascii_of_nat 34.

Definition str_eqb (a b : str) : bool :=
  if list_eq_dec ascii_dec a b then true else false.

Definition char_eqb (a b : ascii) : bool := Ascii.eqb a b.

(** [c in chars] for a list of one-character strings. *)
Definition char_in (c : ascii) (chars : list ascii) : bool :=
  existsb (char_eqb c) chars.

(** [str.isspace] on one code point below 256: the characters U+0009 to
    U+000D, U+001C to U+001F, U+0020, U+0085 and U+00A0. *)
Definition isspace (c : ascii) : bool :=
  let n := nat_of_ascii c in
  ((9 <=? n) && (n <=? 13)) || ((28 <=? n) && (n <=? 31))
  || (n =? 32) || (n =? 133) || (n =? 160).

(** A literal in which the apostrophe stands for the double quote. *)
Definition sq (s : string) : str :=
  map (fun c => if char_eqb c "'" then dquote else c) (lit s).

(** [text[i:j]] for [0 <= i], clamped at the end like a Python slice. *)
Definition slice (text : str) (i j : nat) : str :=
  firstn (j - i) (skipn i text).

(** [s.startswith(old)] *)
Fixpoint starts_with (old s : str) : bool :=
  match old, s with
  | [], _ => true
  | a :: old', b :: s' => char_eqb a b && starts_with old' s'
  | _ :: _, [] => false
  end.

(** [s.replace(old, new)] for a non-empty [old]: the occurrences of [old]
    are found left to right and do not overlap.  The recursion continues
    after a whole occurrence, so it is driven by fuel; [replace] gives it
    the length of the string, which is always enough. *)
Fixpoint replace_fuel (fuel : nat) (old new s : str) : str :=
  match fuel with
  | O => s
  | S fuel' =>
      match s with
      | [] => []
      | c :: s' =>
          if starts_with old s
          then new ++ replace_fuel fuel' old new (skipn (List.length old) s)
          else c :: replace_fuel fuel' old new s'
      end
  end.

Definition replace (old new s : str) : str :=
  replace_fuel (List.length s) old new s.

(** ["{}".format(n)] for a non-negative integer. *)
Definition format_nat (n : nat) : str :=
  lit (NilEmpty.string_of_uint (Nat.to_uint n)).

(* ------------------------------------------------------------------ *)
(** ** Node model *)

Definition dict := list (str * str).

(** [d[key] = value]: an existing key keeps its place and gets the new
    value, a new key goes to the end. *)
Fixpoint dict_set (d : dict) (key value : str) : dict :=
  match d with
  | [] => [(key, value)]
  | (k, v) :: d' =>
      if str_eqb k key then (k, value) :: d'
      else (k, v) :: dict_set d' key value
  end.

Fixpoint dict_get (d : dict) (key : str) : option str :=
  match d with
  | [] => None
  | (k, v) :: d' => if str_eqb k key then Some v else dict_get d' key
  end.

Definition dict_keys (d : dict) : list str := map fst d.

#[warnings="-register-all"]
Inductive SSMLNode : Type :=
| SSMLText (text : str)
| SSMLTag (name : str) (attributes : dict) (children : list SSMLNode).

(* ------------------------------------------------------------------ *)
(** ** Entity codec *)

Definition unescapeXMLChars (text : str) : str :=
  replace "&amp;" "&" (replace "&gt;" ">" (replace "&lt;" "<" text)).

Definition escapeXMLChars (text : str) : str :=
  replace "&" "&amp;" (replace ">" "&gt;" (replace "<" "&lt;" text)).

(* ------------------------------------------------------------------ *)
(** ** Errors

    Every [raise] of the parser raises [ValueError] with a formatted
    message.  One constructor stands for each raise site and keeps the
    arguments of its format string; [message] renders the text. *)

Inductive ValueError : Type :=
| MustStartWithOpeningTag
| ExtraContent
| RootMustBeSpeak
| ExpectedLt (pos : nat)
| MalformedTag (pos : nat)
| ExpectedTagName (pos : nat)
| ExpectedEq (pos : nat)
| ExpectedAttrName (pos : nat)
| ExpectedAttrValue (pos : nat)
| ExpectedDoubleQuote (pos : nat)
| AttrValueNotClosed (start : nat)
| MissingClosingTag (tag_name : str)
| ExpectedGtClosing (pos : nat)
| MismatchedClosingTag (tag_name closing_tag : str).

Definition message (e : ValueError) : str :=
  match e with
  | MustStartWithOpeningTag => "SSML must start with an opening tag"
  | ExtraContent => "Extra content after root element"
  | RootMustBeSpeak => "Root element must be <speak>"
  | ExpectedLt pos => lit "Expected '<' at position " ++ format_nat pos
  | MalformedTag pos =>
      lit "Malformed tag at position " ++ format_nat pos
        ++ lit ": expected '>' or '/>'"
  | ExpectedTagName pos =>
      lit "Expected tag name at position " ++ format_nat pos
  | ExpectedEq pos =>
      lit "Expected '=' after attribute name at position " ++ format_nat pos
  | ExpectedAttrName pos =>
      lit "Expected attribute name at position " ++ format_nat pos
  | ExpectedAttrValue pos =>
      lit "Expected attribute value at position " ++ format_nat pos
  | ExpectedDoubleQuote pos =>
      lit "Expected double quote for attribute value at position "
        ++ format_nat pos
  | AttrValueNotClosed start =>
      lit "Attribute value not closed starting at position " ++ format_nat start
  | MissingClosingTag tag_name =>
      lit "Missing closing tag for <" ++ tag_name ++ lit ">"
  | ExpectedGtClosing pos =>
      lit "Expected '>' at end of closing tag at position " ++ format_nat pos
  | MismatchedClosingTag tag_name closing_tag =>
      lit "Mismatched closing tag: expected </" ++ tag_name
        ++ lit "> but found </" ++ closing_tag ++ lit ">"
  end.

(** The cursor offset that a raise site formats into its message. *)
Definition error_offset (e : ValueError) : option nat :=
  match e with
  | ExpectedLt pos | MalformedTag pos | ExpectedTagName pos
  | ExpectedEq pos | ExpectedAttrName pos | ExpectedAttrValue pos
  | ExpectedDoubleQuote pos | AttrValueNotClosed pos
  | ExpectedGtClosing pos => Some pos
  | MustStartWithOpeningTag | ExtraContent | RootMustBeSpeak
  | MissingClosingTag _ | MismatchedClosingTag _ _ => None
  end.

Inductive result (A : Type) : Type :=
| Ok (a : A)
| Raise (e : ValueError)
| OutOfFuel.

Arguments Ok {A} a.
Arguments Raise {A} e.
Arguments OutOfFuel {A}.

(* ------------------------------------------------------------------ *)
(** ** The parser

    A method of [Parser] is a function of the cursor [self.pos]; it returns
    its value and the new cursor, or raises. *)

Definition M (A : Type) : Type := nat -> result (A * nat).

Definition ret {A} (a : A) : M A := fun pos => Ok (a, pos).

Definition bind {A B} (m : M A) (k : A -> M B) : M B :=
  fun pos =>
    match m pos with
    | Ok (a, pos') => k a pos'
    | Raise e => Raise e
    | OutOfFuel => OutOfFuel
    end.

Definition raise {A} (e : ValueError) : M A := fun _ => Raise e.
Definition out_of_fuel {A} : M A := fun _ => OutOfFuel.

(** [self.pos] *)
Definition get_pos : M nat := fun pos => Ok (pos, pos).

(** [self.pos += n] *)
Definition advance (n : nat) : M unit := fun pos => Ok (tt, pos + n).

Notation "x <- m ;; k" := (bind m (fun x => k))
  (at level 61, m at next level, right associativity).
Notation "m ;; k" := (bind m (fun _ => k))
  (at level 61, right associativity).

(** [c == ch] where [c] is the result of [current_char]: [None] stands for
    the empty string returned at the end of the text. *)
Definition is_char (c : option ascii) (ch : ascii) : bool :=
  match c with
  | Some c' => char_eqb c' ch
  | None => false
  end.

Definition is_char_in (c : option ascii) (chars : list ascii) : bool :=
  match c with
  | Some c' => char_in c' chars
  | None => false
  end.

(** The loop conditions of [parse_tag_name] and [parse_attr_name]. *)
Definition is_tag_name_char (c : ascii) : bool :=
  negb (isspace c) && negb (char_in c ["/"; ">"]%char).

Definition is_attr_name_char (c : ascii) : bool :=
  negb (isspace c) && negb (char_in c ["="; "/"; ">"]%char).

Section Parser.

Variable text : str.

(** [self.length] *)
Local Abbreviation length := (List.length text).

Definition current_char : M (option ascii) :=
  fun pos => Ok (nth_error text pos, pos).

Definition startswith (s : str) : M bool :=
  fun pos => Ok (str_eqb (slice text pos (pos + List.length s)) s, pos).

(** [while self.pos < self.length and cond(self.text[self.pos]):
       self.pos += 1].
    The loop runs at most [length - pos] times. *)
Fixpoint advance_while (cond : ascii -> bool) (fuel pos : nat) : nat :=
  match fuel with
  | O => pos
  | S fuel' =>
      match nth_error text pos with
      | Some c => if cond c then advance_while cond fuel' (S pos) else pos
      | None => pos
      end
  end.

Definition scan_while (cond : ascii -> bool) : M unit :=
  fun pos => Ok (tt, advance_while cond (length - pos) pos).

Definition skip_whitespace : M unit := scan_while isspace.

Definition parse_tag_name : M str :=
  start <- get_pos ;;
  scan_while is_tag_name_char ;;
  pos <- get_pos ;;
  if start =? pos then raise (ExpectedTagName pos)
  else ret (slice text start pos).

Definition parse_attr_name : M str :=
  start <- get_pos ;;
  scan_while is_attr_name_char ;;
  pos <- get_pos ;;
  if start =? pos then raise (ExpectedAttrName pos)
  else ret (slice text start pos).

Definition parse_attr_value : M str :=
  pos <- get_pos ;;
  if length <=? pos then raise (ExpectedAttrValue pos)
  else
    quote <- current_char ;;
    if negb (is_char quote dquote) then raise (ExpectedDoubleQuote pos)
    else
      advance 1 ;;
      start <- get_pos ;;
      scan_while (fun c => negb (char_eqb c dquote)) ;;
      pos <- get_pos ;;
      if length <=? pos then raise (AttrValueNotClosed start)
      else
        let value := slice text start pos in
        advance 1 ;;
        ret (unescapeXMLChars value).

(** The [while True] loop of [parse_attributes], started with
    [attrs = {}]. *)
Fixpoint parse_attributes_loop (fuel : nat) (attrs : dict) : M dict :=
  match fuel with
  | O => out_of_fuel
  | S fuel' =>
      skip_whitespace ;;
      pos <- get_pos ;;
      c <- current_char ;;
      if (length <=? pos) || is_char_in c ["/"; ">"]%char then ret attrs
      else
        attr_name <- parse_attr_name ;;
        skip_whitespace ;;
        pos <- get_pos ;;
        c <- current_char ;;
        if (length <=? pos) || negb (is_char c "=")
        then raise (ExpectedEq pos)
        else
          advance 1 ;;
          skip_whitespace ;;
          attr_value <- parse_attr_value ;;
          parse_attributes_loop fuel' (dict_set attrs attr_name attr_value)
  end.

Definition parse_attributes (fuel : nat) : M dict :=
  parse_attributes_loop fuel [].

Definition parse_text : M SSMLNode :=
  start <- get_pos ;;
  scan_while (fun c => negb (char_eqb c "<")) ;;
  pos <- get_pos ;;
  let text_content := slice text start pos in
  ret (SSMLText (unescapeXMLChars text_content)).

(** [parse_element] and the [while True] loop of [parse_children]
    ([children] is the list built so far). *)
Fixpoint parse_element (fuel : nat) : M SSMLNode :=
  match fuel with
  | O => out_of_fuel
  | S fuel' =>
      c <- current_char ;;
      if negb (is_char c "<")
      then pos <- get_pos ;; raise (ExpectedLt pos)
      else
        advance 1 ;;
        skip_whitespace ;;
        tag_name <- parse_tag_name ;;
        skip_whitespace ;;
        attributes <- parse_attributes fuel' ;;
        skip_whitespace ;;
        self_closing <- startswith "/>" ;;
        if self_closing
        then advance 2 ;; ret (SSMLTag tag_name attributes [])
        else
          c <- current_char ;;
          if is_char c ">"
          then
            advance 1 ;;
            children <- parse_children fuel' tag_name [] ;;
            ret (SSMLTag tag_name attributes children)
          else pos <- get_pos ;; raise (MalformedTag pos)
  end
with parse_children (fuel : nat) (tag_name : str)
       (children : list SSMLNode) : M (list SSMLNode) :=
  match fuel with
  | O => out_of_fuel
  | S fuel' =>
      pos <- get_pos ;;
      if length <=? pos then raise (MissingClosingTag tag_name)
      else
        closing <- startswith "</" ;;
        if closing
        then
          advance 2 ;;
          skip_whitespace ;;
          closing_tag <- parse_tag_name ;;
          skip_whitespace ;;
          pos <- get_pos ;;
          c <- current_char ;;
          if (length <=? pos) || negb (is_char c ">")
          then raise (ExpectedGtClosing pos)
          else
            advance 1 ;;
            if negb (str_eqb closing_tag tag_name)
            then raise (MismatchedClosingTag tag_name closing_tag)
            else ret children
        else
          c <- current_char ;;
          if is_char c "<"
          then
            child <- parse_element fuel' ;;
            parse_children fuel' tag_name (children ++ [child])
          else
            text_node <- parse_text ;;
            parse_children fuel' tag_name (children ++ [text_node])
  end.

Definition is_speak (node : SSMLNode) : bool :=
  match node with
  | SSMLTag name _ _ => str_eqb name "speak"
  | SSMLText _ => false
  end.

Definition parse (fuel : nat) : M SSMLNode :=
  skip_whitespace ;;
  pos <- get_pos ;;
  c <- current_char ;;
  if (length <=? pos) || negb (is_char c "<")
  then raise MustStartWithOpeningTag
  else
    node <- parse_element fuel ;;
    skip_whitespace ;;
    pos <- get_pos ;;
    if negb (pos =? length) then raise ExtraContent
    else if negb (is_speak node) then raise RootMustBeSpeak
    else ret node.

End Parser.

(** Fuel that is enough for any parse of [ssml]. *)
Definition fuel_for (ssml : str) : nat := S (List.length ssml).

Definition parseSSML (ssml : str) : result SSMLNode :=
  match parse ssml (fuel_for ssml) 0 with
  | Ok (node, _) => Ok node
  | Raise e => Raise e
  | OutOfFuel => OutOfFuel
  end.

(* ------------------------------------------------------------------ *)
(** ** The serializer *)

Definition attrs_to_text (attributes : dict) : str :=
  fold_left
    (fun attrs kv =>
       attrs ++ lit " " ++ fst kv ++ lit "=" ++ dquote
         :: escapeXMLChars (snd kv) ++ [dquote])
    attributes [].

Fixpoint ssmlNodeToText (node : SSMLNode) : str :=
  match node with
  | SSMLText text => escapeXMLChars text
  | SSMLTag name attributes children =>
      let attrs := attrs_to_text attributes in
      let children_str := List.concat (map ssmlNodeToText children) in
      lit "<" ++ name ++ attrs ++ lit ">" ++ children_str
        ++ lit "</" ++ name ++ lit ">"
  end.

(* ------------------------------------------------------------------ *)
(** ** Vocabulary of the properties *)

(** The last pass of [escapeXMLChars]. *)
Definition escape_amp (s : str) : str := replace "&" "&amp;" s.

(** A scan stops at the end of the text or at a character that fails the
    loop condition. *)
Definition stops (cond : ascii -> bool) (rest : str) : Prop :=
  match rest with
  | [] => True
  | c :: _ => cond c = false
  end.

(** An error is well formed for [text] when the offset in its message lies
    within the text and a closing-tag mismatch names two different tags. *)
Definition error_ok (text : str) (e : ValueError) : Prop :=
  (forall n, error_offset e = Some n -> n <= List.length text)
  /\ (forall a b, e = MismatchedClosingTag a b -> a <> b).

(** [post text lo r]: the call returned or raised (it did not run out of
    fuel), a returned cursor lies between [lo] and the end of the text, and
    a raised error is well formed. *)
Definition post {A : Type} (text : str) (lo : nat) (r : result (A * nat))
  : Prop :=
  match r with
  | Ok (_, pos') => lo <= pos' <= List.length text
  | Raise e => error_ok text e
  | OutOfFuel => False
  end.

Ltac unfold_monad :=
  cbv beta iota delta
    [bind ret raise out_of_fuel get_pos advance current_char startswith
     scan_while skip_whitespace].

Ltac unfold_monad_in H :=
  cbv beta iota delta
    [bind ret raise out_of_fuel get_pos advance current_char startswith
     scan_while skip_whitespace] in H.

Ltac error_ok_tac :=
  split;
  [ let n := fresh "n" in
    let H := fresh "H" in
    intros n H; simpl in H;
    first [ discriminate H | injection H as <-; try lia ]
  | let H := fresh "H" in intros ? ? H; try discriminate H ].

(** A lexeme accepted as a tag name, and one accepted as an attribute
    name. *)
Definition valid_tag_name (name : str) : Prop :=
  name <> [] /\ forallb is_tag_name_char name = true.

Definition valid_attr_name (name : str) : Prop :=
  name <> [] /\ forallb is_attr_name_char name = true.

(** No text node of the tree is the empty string. *)
Fixpoint no_empty_text (node : SSMLNode) : bool :=
  match node with
  | SSMLText text => negb (str_eqb text [])
  | SSMLTag _ _ children => forallb no_empty_text children
  end.

Definition is_digit (c : ascii) : bool :=
  let n := nat_of_ascii c in (48 <=? n) && (n <=? 57).

(** Every tag of the tree has pairwise different attribute keys. *)
#[warnings="-register-all"]
Inductive unique_keys : SSMLNode -> Prop :=
| unique_keys_text (text : str) : unique_keys (SSMLText text)
| unique_keys_tag (name : str) (attributes : dict)
    (children : list SSMLNode) :
    NoDup (dict_keys attributes) ->
    Forall unique_keys children ->
    unique_keys (SSMLTag name attributes children).

Definition is_text (node : SSMLNode) : bool :=
  match node with
  | SSMLText _ => true
  | SSMLTag _ _ _ => false
  end.

(** No two text nodes are neighbours in the list. *)
Fixpoint no_adjacent_text (children : list SSMLNode) : Prop :=
  match children with
  | [] => True
  | c :: rest =>
      (is_text c = true ->
       match rest with
       | c' :: _ => is_text c' = false
       | [] => True
       end)
      /\ no_adjacent_text rest
  end.

(** A string without [<] and [>]: the codec carries it through. *)
Definition plain (v : str) : Prop :=
  ~ In "<"%char v /\ ~ In ">"%char v.

Definition attr_ok (ok : str -> Prop) (kv : str * str) : Prop :=
  valid_attr_name (fst kv) /\ ~ In dquote (snd kv) /\ ok (snd kv).

#[warnings="-register-all"]
Inductive well_formed (ok : str -> Prop) : SSMLNode -> Prop :=
| well_formed_text (text : str) :
    text <> [] -> ok text -> well_formed ok (SSMLText text)
| well_formed_tag (name : str) (attributes : dict)
    (children : list SSMLNode) :
    valid_tag_name name ->
    Forall (attr_ok ok) attributes ->
    NoDup (dict_keys attributes) ->
    Forall (well_formed ok) children ->
    no_adjacent_text children ->
    well_formed ok (SSMLTag name attributes children).

Definition attr_text (kv : str * str) : str :=
  lit " " ++ fst kv ++ lit "=" ++ dquote :: escapeXMLChars (snd kv)
    ++ [dquote].

Definition children_text (children : list SSMLNode) : str :=
  List.concat (map ssmlNodeToText children).

Fixpoint node_size (node : SSMLNode) : nat :=
  match node with
  | SSMLText _ => 1
  | SSMLTag _ attributes children =>
      S (S (List.length attributes)
         + fold_right (fun c acc => node_size c + acc) 1 children)
  end.

Definition children_size (children : list SSMLNode) : nat :=
  fold_right (fun c acc => node_size c + acc) 1 children.

(** Every text and every attribute value of the tree is plain. *)
#[warnings="-register-all"]
Inductive plain_tree : SSMLNode -> Prop :=
| plain_tree_text (text : str) : plain text -> plain_tree (SSMLText text)
| plain_tree_tag (name : str) (attributes : dict)
    (children : list SSMLNode) :
    Forall (fun kv => plain (snd kv)) attributes ->
    Forall plain_tree children ->
    plain_tree (SSMLTag name attributes children).

(** What decoding an encoded string gives: [<] and [>] stay encoded. *)
Definition reescape (v : str) : str :=
  replace ">" "&gt;" (replace "<" "&lt;" v).

Fixpoint reescape_tree (node : SSMLNode) : SSMLNode :=
  match node with
  | SSMLText text => SSMLText (reescape text)
  | SSMLTag name attributes children =>
      SSMLTag name
        (map (fun kv => (fst kv, reescape (snd kv))) attributes)
        (map reescape_tree children)
  end.

(** The text at the cursor does not begin an element: it is over, or its
    first character is neither white space nor [<]. *)
Definition no_tag_ahead (rest : str) : Prop :=
  match rest with
  | [] => True
  | c :: _ => isspace c = false /\ c <> "<"%char
  end.

(** Concrete syntax: the layouts of a document, with the white space that
    the tag syntax allows and the undecoded characters of texts and
    attribute values. *)
Record AttrSyntax : Type := mkAttrSyntax {
  attr_before : str;
  attr_name : str;
  attr_after_name : str;
  attr_after_eq : str;
  attr_raw : str
}.

#[warnings="-register-all"]
Inductive Syntax : Type :=
| SynText (raw : str)
| SynEmpty (w0 name : str) (attrs : list AttrSyntax) (w1 : str)
| SynElem (w0 name : str) (attrs : list AttrSyntax) (w1 : str)
    (children : list Syntax) (w2 w3 : str).

Definition attr_render (a : AttrSyntax) : str :=
  attr_before a ++ attr_name a ++ attr_after_name a
    ++ "="%char :: attr_after_eq a ++ dquote :: attr_raw a ++ [dquote].

Definition attrs_render (attrs : list AttrSyntax) : str :=
  List.concat (map attr_render attrs).

(** The characters of a document in concrete syntax. *)
Fixpoint render (s : Syntax) : str :=
  match s with
  | SynText raw => raw
  | SynEmpty w0 name attrs w1 =>
      "<"%char :: w0 ++ name ++ attrs_render attrs ++ w1 ++ lit "/>"
  | SynElem w0 name attrs w1 children w2 w3 =>
      "<"%char :: w0 ++ name ++ attrs_render attrs ++ w1
        ++ ">"%char :: List.concat (map render children)
        ++ lit "</" ++ w2 ++ name ++ w3 ++ lit ">"
  end.

Definition children_render (children : list Syntax) : str :=
  List.concat (map render children).

(** The mapping that the attribute list denotes: the assignments in
    document order, each value decoded. *)
Definition attrs_of (attrs : list AttrSyntax) (acc : dict) : dict :=
  fold_left
    (fun d a => dict_set d (attr_name a) (unescapeXMLChars (attr_raw a)))
    attrs acc.

(** The tree that a document in concrete syntax denotes. *)
Fixpoint tree_of (s : Syntax) : SSMLNode :=
  match s with
  | SynText raw => SSMLText (unescapeXMLChars raw)
  | SynEmpty _ name attrs _ => SSMLTag name (attrs_of attrs []) []
  | SynElem _ name attrs _ children _ _ =>
      SSMLTag name (attrs_of attrs []) (map tree_of children)
  end.

Definition is_element (s : Syntax) : bool :=
  match s with
  | SynText _ => false
  | _ => true
  end.

Definition attr_syntax_ok (a : AttrSyntax) : Prop :=
  forallb isspace (attr_before a) = true
  /\ valid_attr_name (attr_name a)
  /\ forallb isspace (attr_after_name a) = true
  /\ forallb isspace (attr_after_eq a) = true
  /\ ~ In dquote (attr_raw a).

(** The first attribute is set off from the tag name by white space. *)
Definition attrs_syntax_ok (attrs : list AttrSyntax) : Prop :=
  Forall attr_syntax_ok attrs
  /\ match attrs with
     | a :: _ => attr_before a <> []
     | [] => True
     end.

#[warnings="-register-all"]
Inductive syntax_ok : Syntax -> Prop :=
| syntax_ok_text (raw : str) :
    raw <> [] -> ~ In "<"%char raw -> syntax_ok (SynText raw)
| syntax_ok_empty (w0 name : str) (attrs : list AttrSyntax) (w1 : str) :
    forallb isspace w0 = true -> valid_tag_name name ->
    attrs_syntax_ok attrs -> forallb isspace w1 = true ->
    syntax_ok (SynEmpty w0 name attrs w1)
| syntax_ok_elem (w0 name : str) (attrs : list AttrSyntax) (w1 : str)
    (children : list Syntax) (w2 w3 : str) :
    forallb isspace w0 = true -> valid_tag_name name ->
    attrs_syntax_ok attrs -> forallb isspace w1 = true ->
    Forall syntax_ok children ->
    no_adjacent_text (map tree_of children) ->
    forallb isspace w2 = true -> forallb isspace w3 = true ->
    syntax_ok (SynElem w0 name attrs w1 children w2 w3).

Fixpoint syntax_size (s : Syntax) : nat :=
  match s with
  | SynText _ => 1
  | SynEmpty _ _ attrs _ => S (S (List.length attrs))
  | SynElem _ _ attrs _ children _ _ =>
      S (S (List.length attrs)
         + fold_right (fun c acc => syntax_size c + acc) 1 children)
  end.

Definition syntaxes_size (children : list Syntax) : nat :=
  fold_right (fun c acc => syntax_size c + acc) 1 children.

(** [document ssml node]: [ssml] is the layout of an element named
    speak, between white space, and [node] is the tree it denotes. *)
Definition document (ssml : str) (node : SSMLNode) : Prop :=
  exists lead s trail,
    ssml = lead ++ render s ++ trail
    /\ forallb isspace lead = true /\ forallb isspace trail = true
    /\ syntax_ok s /\ is_element s = true
    /\ tree_of s = node /\ is_speak node = true.

(** The result is not the error of [parse_element] for a cursor that is
    not at [<]. *)
Definition never_expected_lt {A : Type} (r : result A) : Prop :=
  match r with
  | Raise (ExpectedLt _) => False
  | _ => True
  end.

(** The text after the attributes ends the attribute list: it is over or
    begins with [/] or [>]. *)
Definition tag_end (tail : str) : Prop :=
  match tail with
  | [] => True
  | c :: _ => char_in c ["/"; ">"]%char = true
  end.

(** The character [expected] is missing after the name and the white
    space [w]: the text is over, or goes on with another character that
    ends the name (one that is not white space, so that [w] is all the
    white space; one that is not a name character when [w] is empty). *)
Definition missing (expected : ascii) (name_char : ascii -> bool)
    (w tail : str) : Prop :=
  match tail with
  | [] => True
  | c :: _ =>
      c <> expected /\ isspace c = false
      /\ (w = [] -> name_char c = false)
  end.

(** An element that is open where the parse fails: its opening tag and
    the children read before the failure. *)
Record Frame : Type := mkFrame {
  frame_w0 : str;
  frame_name : str;
  frame_attrs : list AttrSyntax;
  frame_w1 : str;
  frame_children : list Syntax
}.

Definition frame_render (f : Frame) : str :=
  "<"%char :: frame_w0 f ++ frame_name f ++ attrs_render (frame_attrs f)
    ++ frame_w1 f ++ ">"%char :: children_render (frame_children f).

Definition frames_render (frames : list Frame) : str :=
  List.concat (map frame_render frames).

Definition frame_ok (f : Frame) : Prop :=
  forallb isspace (frame_w0 f) = true
  /\ valid_tag_name (frame_name f)
  /\ attrs_syntax_ok (frame_attrs f)
  /\ forallb isspace (frame_w1 f) = true
  /\ Forall syntax_ok (frame_children f)
  /\ no_adjacent_text (map tree_of (frame_children f)).

(** The name of the innermost open element, if any. *)
Fixpoint innermost (parent : option str) (frames : list Frame)
  : option str :=
  match frames with
  | [] => parent
  | f :: frames' => innermost (Some (frame_name f)) frames'
  end.

(** [attr_error base piece e]: [piece], which begins at offset [base]
    where an attribute may begin, makes the attribute loop raise [e].  The
    offset in [e] is [base] plus the length of what has been read of
    [piece] when the check fails; for an unterminated value it is the
    offset of the first character of the value. *)
#[warnings="-register-all"]
Inductive attr_error (base : nat) : str -> ValueError -> Prop :=
| attr_error_name (w rest : str) :
    forallb isspace w = true ->
    attr_error base (w ++ "="%char :: rest)
      (ExpectedAttrName (base + List.length w))
| attr_error_eq (w0 name w1 tail : str) :
    forallb isspace w0 = true -> valid_attr_name name ->
    forallb isspace w1 = true ->
    missing "=" is_attr_name_char w1 tail ->
    attr_error base (w0 ++ name ++ w1 ++ tail)
      (ExpectedEq
         (base + List.length w0 + List.length name + List.length w1))
| attr_error_value (w0 name w1 w2 : str) :
    forallb isspace w0 = true -> valid_attr_name name ->
    forallb isspace w1 = true -> forallb isspace w2 = true ->
    attr_error base (w0 ++ name ++ w1 ++ "="%char :: w2)
      (ExpectedAttrValue
         (base + List.length w0 + List.length name + List.length w1 + 1
          + List.length w2))
| attr_error_quote (w0 name w1 w2 : str) (c : ascii) (rest : str) :
    forallb isspace w0 = true -> valid_attr_name name ->
    forallb isspace w1 = true -> forallb isspace w2 = true ->
    c <> dquote -> isspace c = false ->
    attr_error base (w0 ++ name ++ w1 ++ "="%char :: w2 ++ c :: rest)
      (ExpectedDoubleQuote
         (base + List.length w0 + List.length name + List.length w1 + 1
          + List.length w2))
| attr_error_unclosed (w0 name w1 w2 value : str) :
    forallb isspace w0 = true -> valid_attr_name name ->
    forallb isspace w1 = true -> forallb isspace w2 = true ->
    ~ In dquote value ->
    attr_error base (w0 ++ name ++ w1 ++ "="%char :: w2 ++ dquote :: value)
      (AttrValueNotClosed
         (base + List.length w0 + List.length name + List.length w1 + 1
          + List.length w2 + 1)).

(** [elem_error base piece e]: [piece], which begins at offset [base]
    with the [<] of an opening tag, makes [parse_element] raise [e] before
    the tag is complete. *)
#[warnings="-register-all"]
Inductive elem_error (base : nat) : str -> ValueError -> Prop :=
| elem_error_name (w0 tail : str) :
    forallb isspace w0 = true ->
    stops isspace tail -> stops is_tag_name_char tail ->
    elem_error base ("<"%char :: w0 ++ tail)
      (ExpectedTagName (base + 1 + List.length w0))
| elem_error_attr (w0 name : str) (l : list AttrSyntax) (piece : str)
    (e : ValueError) :
    forallb isspace w0 = true -> valid_tag_name name ->
    Forall attr_syntax_ok l ->
    stops is_tag_name_char (attrs_render l ++ piece) ->
    attr_error
      (base + 1 + List.length w0 + List.length name
       + List.length (attrs_render l)) piece e ->
    elem_error base ("<"%char :: w0 ++ name ++ attrs_render l ++ piece) e
| elem_error_malformed (w0 name : str) (l : list AttrSyntax)
    (w1 tail : str) :
    forallb isspace w0 = true -> valid_tag_name name ->
    attrs_syntax_ok l -> forallb isspace w1 = true ->
    (tail = []
     \/ exists r, tail = "/"%char :: r /\ hd_error r <> Some ">"%char) ->
    elem_error base
      ("<"%char :: w0 ++ name ++ attrs_render l ++ w1 ++ tail)
      (MalformedTag
         (base + 1 + List.length w0 + List.length name
          + List.length (attrs_render l) + List.length w1)).

(** [close_error base parent piece e]: [piece], which begins at offset
    [base] where a child or the closing tag of the open element [parent]
    may begin, makes [parse_children] raise [e] itself. *)
#[warnings="-register-all"]
Inductive close_error (base : nat) (parent : str)
  : str -> ValueError -> Prop :=
| close_error_missing :
    close_error base parent [] (MissingClosingTag parent)
| close_error_name (w2 tail : str) :
    forallb isspace w2 = true ->
    stops isspace tail -> stops is_tag_name_char tail ->
    close_error base parent ("<"%char :: "/"%char :: w2 ++ tail)
      (ExpectedTagName (base + 2 + List.length w2))
| close_error_gt (w2 name w3 tail : str) :
    forallb isspace w2 = true -> valid_tag_name name ->
    forallb isspace w3 = true ->
    missing ">" is_tag_name_char w3 tail ->
    close_error base parent
      ("<"%char :: "/"%char :: w2 ++ name ++ w3 ++ tail)
      (ExpectedGtClosing
         (base + 2 + List.length w2 + List.length name + List.length w3))
| close_error_mismatch (w2 name w3 rest : str) :
    forallb isspace w2 = true -> valid_tag_name name ->
    forallb isspace w3 = true -> name <> parent ->
    close_error base parent
      ("<"%char :: "/"%char :: w2 ++ name ++ w3 ++ ">"%char :: rest)
      (MismatchedClosingTag parent name).

(** The failing piece: at the root an opening tag; inside an open element
    a closing tag, the end of the text, or the opening tag of a child. *)
Definition piece_error (base : nat) (parent : option str) (piece : str)
    (e : ValueError) : Prop :=
  match parent with
  | None => elem_error base piece e
  | Some name =>
      close_error base name piece e
      \/ (starts_with "</" piece = false /\ elem_error base piece e)
  end.

(** [error_layout ssml e]: the shape of an input on which [e] is raised.
    Either there is no opening tag; or a complete element is followed by
    other content or is not named speak; or the input is white space, the
    open elements with the children read so far, and a failing piece. *)
#[warnings="-register-all"]
Inductive error_layout (ssml : str) : ValueError -> Prop :=
| error_layout_start (lead rest : str) :
    ssml = lead ++ rest ->
    forallb isspace lead = true -> no_tag_ahead rest ->
    error_layout ssml MustStartWithOpeningTag
| error_layout_extra (lead : str) (s : Syntax) (trail : str) (c : ascii)
    (rest : str) :
    ssml = lead ++ render s ++ trail ++ c :: rest ->
    forallb isspace lead = true -> syntax_ok s -> is_element s = true ->
    forallb isspace trail = true -> isspace c = false ->
    error_layout ssml ExtraContent
| error_layout_root (lead : str) (s : Syntax) (trail : str) :
    ssml = lead ++ render s ++ trail ->
    forallb isspace lead = true -> syntax_ok s -> is_element s = true ->
    forallb isspace trail = true -> is_speak (tree_of s) = false ->
    error_layout ssml RootMustBeSpeak
| error_layout_inside (lead : str) (frames : list Frame) (piece : str)
    (e : ValueError) :
    ssml = lead ++ frames_render frames ++ piece ->
    forallb isspace lead = true -> Forall frame_ok frames ->
    piece_error (List.length lead + List.length (frames_render frames))
      (innermost None frames) piece e ->
    error_layout ssml e.

(* ------------------------------------------------------------------ *)
(** * Properties *)

(** ** String replacement *)

Lemma char_eqb_eq (a b : ascii) : char_eqb a b = true <-> a = b.
Proof. apply Ascii.eqb_eq. Qed.

Lemma char_eqb_refl (a : ascii) : char_eqb a a = true.
Proof. apply Ascii.eqb_refl. Qed.

Lemma char_eqb_neq (a b : ascii) : char_eqb a b = false <-> a <> b.
Proof. apply Ascii.eqb_neq. Qed.

Lemma str_eqb_eq (a b : str) : str_eqb a b = true <-> a = b.
Proof.
  unfold str_eqb. destruct (list_eq_dec ascii_dec a b); split; congruence.
Qed.

Lemma str_eqb_refl (a : str) : str_eqb a a = true.
Proof. now apply str_eqb_eq. Qed.

Lemma str_eqb_neq (a b : str) : str_eqb a b = false <-> a <> b.
Proof.
  unfold str_eqb. destruct (list_eq_dec ascii_dec a b); split; congruence.
Qed.

Lemma starts_with_iff (old s : str) :
  starts_with old s = true <-> exists r, s = old ++ r.
Proof.
  revert s. induction old as [|a old IH]; intros s; simpl.
  - split; eauto.
  - destruct s as [|b s].
    + split; [discriminate|]. intros [r Hr]. discriminate.
    + rewrite andb_true_iff, char_eqb_eq, IH. split.
      * intros [-> [r ->]]. now exists r.
      * intros [r Hr]. injection Hr as -> ->. eauto.
Qed.

Lemma starts_with_app (old r : str) : starts_with old (old ++ r) = true.
Proof. apply starts_with_iff. now exists r. Qed.

Lemma starts_with_head (a b : ascii) (old s : str) :
  a <> b -> starts_with (a :: old) (b :: s) = false.
Proof.
  intros H. simpl. apply char_eqb_neq in H. now rewrite H.
Qed.

Lemma replace_fuel_enough (old new : str) :
  old <> [] ->
  forall fuel fuel' s,
    List.length s <= fuel -> List.length s <= fuel' ->
    replace_fuel fuel old new s = replace_fuel fuel' old new s.
Proof.
  intros Hold. induction fuel as [|fuel IH]; intros fuel' s H H'.
  - destruct s; [|simpl in H; lia]. now destruct fuel'.
  - destruct fuel' as [|fuel'].
    + destruct s; [reflexivity|simpl in H'; lia].
    + simpl. destruct s as [|c s]; [reflexivity|].
      destruct (starts_with old (c :: s)) eqn:E.
      * f_equal. apply starts_with_iff in E. destruct E as [r Hr].
        rewrite Hr, skipn_app, skipn_all, Nat.sub_diag. simpl.
        assert (List.length (c :: s) = List.length old + List.length r)
          by (rewrite Hr; apply length_app).
        destruct old; [congruence|]. simpl in *. apply IH; lia.
      * f_equal. simpl in *. apply IH; lia.
Qed.

Lemma replace_nil (old new : str) : replace old new [] = [].
Proof. reflexivity. Qed.

Lemma replace_hit (old new r : str) :
  old <> [] -> replace old new (old ++ r) = new ++ replace old new r.
Proof.
  intros Hold. unfold replace.
  destruct (old ++ r) as [|c s] eqn:E.
  - destruct old; [congruence|discriminate].
  - cbn [List.length replace_fuel]. rewrite <- E at 1.
    rewrite starts_with_app. f_equal.
    rewrite <- E, skipn_app, skipn_all, Nat.sub_diag. simpl.
    apply replace_fuel_enough; auto.
    apply (f_equal (@List.length _)) in E. rewrite length_app in E.
    destruct old; [congruence|]. simpl in E. lia.
Qed.

Lemma replace_miss (old new : str) (c : ascii) (s : str) :
  starts_with old (c :: s) = false ->
  replace old new (c :: s) = c :: replace old new s.
Proof.
  intros H. unfold replace. cbn [List.length replace_fuel]. now rewrite H.
Qed.

(** Replacing a single character is a character-wise map. *)
Lemma replace_char (c : ascii) (new s : str) :
  replace [c] new s
  = flat_map (fun x => if char_eqb x c then new else [x]) s.
Proof.
  induction s as [|x s IH]; [reflexivity|].
  simpl. destruct (char_eqb x c) eqn:E.
  - apply char_eqb_eq in E. subst x.
    change (c :: s) with ([c] ++ s).
    rewrite replace_hit by discriminate. now rewrite IH.
  - rewrite replace_miss.
    + now rewrite IH.
    + simpl. rewrite Ascii.eqb_sym. unfold char_eqb in *. now rewrite E.
Qed.

Lemma replace_char_absent (c : ascii) (new s : str) :
  ~ In c s -> replace [c] new s = s.
Proof.
  rewrite replace_char. induction s as [|x s IH]; simpl; [reflexivity|].
  intros H. destruct (char_eqb x c) eqn:E.
  - apply char_eqb_eq in E. tauto.
  - simpl. f_equal. tauto.
Qed.

(** ** The entity codec *)

Lemma escape_amp_cons (c : ascii) (s : str) :
  escape_amp (c :: s)
  = (if char_eqb c "&" then lit "&amp;" else [c]) ++ escape_amp s.
Proof.
  unfold escape_amp. change (lit "&") with ["&"%char].
  now rewrite !replace_char.
Qed.

(** After [escape_amp] every ampersand is followed by [amp;], so an entity
    whose second character is not [a] does not occur. *)
Lemma replace_entity_escape_amp (x : ascii) (old new s : str) :
  x <> "a"%char ->
  replace ("&"%char :: x :: old) new (escape_amp s) = escape_amp s.
Proof.
  intros Hx. induction s as [|c s IH]; [reflexivity|].
  rewrite escape_amp_cons. destruct (char_eqb c "&") eqn:E.
  - cbn [lit list_ascii_of_string app].
    rewrite replace_miss.
    2:{ simpl. apply char_eqb_neq in Hx. now rewrite Hx. }
    rewrite !replace_miss by reflexivity. now rewrite IH.
  - cbn [app]. rewrite replace_miss.
    + now rewrite IH.
    + apply starts_with_head. apply char_eqb_neq in E. congruence.
Qed.

Lemma replace_amp_escape_amp (s : str) :
  replace "&amp;" "&" (escape_amp s) = s.
Proof.
  induction s as [|c s IH]; [reflexivity|].
  rewrite escape_amp_cons. destruct (char_eqb c "&") eqn:E.
  - apply char_eqb_eq in E. subst c.
    rewrite replace_hit by discriminate. now rewrite IH.
  - cbn [app]. rewrite replace_miss.
    + now rewrite IH.
    + apply starts_with_head. apply char_eqb_neq in E. congruence.
Qed.

(** What decoding an encoded string really gives: the ampersands written
    by the first two passes of [escapeXMLChars] are themselves encoded by
    its third pass, so decoding stops at the entities instead of reaching
    the characters. *)
Lemma unescape_escape (s : str) :
  unescapeXMLChars (escapeXMLChars s)
  = replace ">" "&gt;" (replace "<" "&lt;" s).
Proof.
  unfold unescapeXMLChars, escapeXMLChars.
  fold (escape_amp (replace ">" "&gt;" (replace "<" "&lt;" s))).
  change (lit "&lt;") with ("&"%char :: "l"%char :: lit "t;").
  rewrite replace_entity_escape_amp by discriminate.
  change (lit "&gt;") with ("&"%char :: "g"%char :: lit "t;").
  rewrite replace_entity_escape_amp by discriminate.
  apply replace_amp_escape_amp.
Qed.

Lemma unescape_escape_plain (s : str) :
  ~ In "<"%char s -> ~ In ">"%char s ->
  unescapeXMLChars (escapeXMLChars s) = s.
Proof.
  intros Hlt Hgt. rewrite unescape_escape.
  change (lit "<") with ["<"%char]. change (lit ">") with [">"%char].
  rewrite (replace_char_absent "<"%char) by assumption.
  now apply replace_char_absent.
Qed.

(* ------------------------------------------------------------------ *)
(** ** Reading the text at the cursor *)

Lemma skipn_cons_nth (l : str) (pos : nat) (c : ascii) (r : str) :
  skipn pos l = c :: r -> nth_error l pos = Some c /\ skipn (S pos) l = r.
Proof.
  revert l. induction pos as [|pos IH]; intros l H.
  - destruct l; [discriminate|]. simpl in H. injection H as -> ->. auto.
  - destruct l; [discriminate|]. simpl in H. apply IH in H. exact H.
Qed.

Lemma skipn_nil_nth (l : str) (pos : nat) :
  skipn pos l = [] -> nth_error l pos = None.
Proof.
  intros H. apply nth_error_None.
  apply (f_equal (@List.length _)) in H. rewrite length_skipn in H.
  simpl in H. lia.
Qed.

Lemma skipn_app_at (l : str) (pos : nat) (a b : str) :
  skipn pos l = a ++ b -> skipn (pos + List.length a) l = b.
Proof.
  intros H. rewrite Nat.add_comm, <- skipn_skipn, H.
  now rewrite skipn_app, skipn_all, Nat.sub_diag.
Qed.

Lemma slice_at (l : str) (pos : nat) (a b : str) :
  skipn pos l = a ++ b -> slice l pos (pos + List.length a) = a.
Proof.
  intros H. unfold slice. rewrite H.
  replace (pos + List.length a - pos) with (List.length a) by lia.
  now rewrite firstn_app, firstn_all, Nat.sub_diag, app_nil_r.
Qed.

Lemma skipn_length_at (l : str) (pos : nat) (a : str) :
  skipn pos l = a -> List.length l - pos = List.length a.
Proof. intros <-. now rewrite length_skipn. Qed.

Section Scans.

Variable text : str.

Lemma advance_while_ge (cond : ascii -> bool) (fuel pos : nat) :
  pos <= advance_while text cond fuel pos.
Proof.
  revert pos. induction fuel as [|fuel IH]; intros pos; simpl; [lia|].
  destruct (nth_error text pos); [|lia].
  destruct (cond a); [|lia]. specialize (IH (S pos)). lia.
Qed.

Lemma advance_while_le (cond : ascii -> bool) (fuel pos : nat) :
  pos <= List.length text ->
  advance_while text cond fuel pos <= List.length text.
Proof.
  revert pos. induction fuel as [|fuel IH]; intros pos H; simpl; [lia|].
  destruct (nth_error text pos) eqn:E; [|lia].
  destruct (cond a); [|lia]. apply IH.
  assert (nth_error text pos <> None) by congruence.
  apply nth_error_Some in H0. lia.
Qed.

(** With the fuel that [scan_while] gives, the loop ends because its
    condition is false, never because the fuel is spent. *)
Lemma advance_while_stop (cond : ascii -> bool) (fuel pos : nat) :
  List.length text - pos <= fuel ->
  stops cond (skipn (advance_while text cond fuel pos) text).
Proof.
  revert pos. induction fuel as [|fuel IH]; intros pos H; simpl.
  - rewrite skipn_all2 by lia. exact I.
  - destruct (skipn pos text) as [|c r] eqn:E.
    + rewrite (skipn_nil_nth _ _ E), E. exact I.
    + destruct (skipn_cons_nth _ _ _ _ E) as [-> _].
      destruct (cond c) eqn:Ec.
      * apply IH. lia.
      * rewrite E. exact Ec.
Qed.

Lemma advance_while_run (cond : ascii -> bool) (run rest : str) :
  forallb cond run = true -> stops cond rest ->
  forall fuel pos,
    skipn pos text = run ++ rest -> List.length run <= fuel ->
    advance_while text cond fuel pos = pos + List.length run.
Proof.
  intros Hrun Hrest. induction run as [|c run IH]; intros fuel pos H Hf.
  - simpl in *. destruct fuel as [|fuel]; simpl; [lia|].
    destruct rest as [|c r].
    + rewrite (skipn_nil_nth _ _ H). lia.
    + destruct (skipn_cons_nth _ _ _ _ H) as [-> _].
      simpl in Hrest. rewrite Hrest. lia.
  - simpl in Hrun. apply andb_true_iff in Hrun. destruct Hrun as [Hc Hrun].
    destruct fuel as [|fuel]; [simpl in Hf; lia|].
    simpl in H. destruct (skipn_cons_nth _ _ _ _ H) as [Hn Hs].
    simpl. rewrite Hn, Hc. rewrite (IH Hrun fuel (S pos) Hs).
    + lia.
    + simpl in Hf. lia.
Qed.

Lemma scan_while_run (cond : ascii -> bool) (run rest : str) (pos : nat) :
  skipn pos text = run ++ rest ->
  forallb cond run = true -> stops cond rest ->
  scan_while text cond pos = Ok (tt, pos + List.length run).
Proof.
  intros H Hrun Hrest. unfold scan_while. f_equal. f_equal.
  apply (advance_while_run cond run rest Hrun Hrest); auto.
  rewrite (skipn_length_at _ _ _ H), length_app. lia.
Qed.

Lemma scan_while_stay (cond : ascii -> bool) (rest : str) (pos : nat) :
  skipn pos text = rest -> stops cond rest ->
  scan_while text cond pos = Ok (tt, pos).
Proof.
  intros H Hrest.
  rewrite (scan_while_run cond [] rest pos H eq_refl Hrest).
  simpl. now rewrite Nat.add_0_r.
Qed.

Lemma current_char_at (pos : nat) (c : ascii) (r : str) :
  skipn pos text = c :: r -> current_char text pos = Ok (Some c, pos).
Proof.
  intros H. unfold current_char.
  now destruct (skipn_cons_nth _ _ _ _ H) as [-> _].
Qed.

Lemma startswith_at (s : str) (pos : nat) (r : str) :
  skipn pos text = s ++ r -> startswith text s pos = Ok (true, pos).
Proof.
  intros H. unfold startswith.
  now rewrite (slice_at _ _ _ _ H), str_eqb_refl.
Qed.

End Scans.

(* ------------------------------------------------------------------ *)
(** ** Progress of the cursor and totality *)

Lemma is_char_Some (l : str) (pos : nat) (ch : ascii) :
  is_char (nth_error l pos) ch = true ->
  nth_error l pos = Some ch /\ pos < List.length l.
Proof.
  destruct (nth_error l pos) as [c|] eqn:E; simpl; [|discriminate].
  intros H. apply char_eqb_eq in H. subst c. split; [reflexivity|].
  apply nth_error_Some. congruence.
Qed.

Section Progress.

Variable text : str.

Local Abbreviation len := (List.length text).

Lemma skip_whitespace_eq (pos : nat) :
  skip_whitespace text pos
  = Ok (tt, advance_while text isspace (len - pos) pos).
Proof. reflexivity. Qed.

Lemma parse_tag_name_eq (pos : nat) :
  parse_tag_name text pos
  = let q := advance_while text is_tag_name_char (len - pos) pos in
    if pos =? q then Raise (ExpectedTagName q)
    else Ok (slice text pos q, q).
Proof.
  unfold parse_tag_name. unfold_monad.
  now destruct (pos =? _).
Qed.

Lemma parse_attr_name_eq (pos : nat) :
  parse_attr_name text pos
  = let q := advance_while text is_attr_name_char (len - pos) pos in
    if pos =? q then Raise (ExpectedAttrName q)
    else Ok (slice text pos q, q).
Proof.
  unfold parse_attr_name. unfold_monad.
  now destruct (pos =? _).
Qed.

Lemma parse_attr_value_eq (pos : nat) :
  parse_attr_value text pos
  = if len <=? pos then Raise (ExpectedAttrValue pos)
    else if negb (is_char (nth_error text pos) dquote)
    then Raise (ExpectedDoubleQuote pos)
    else
      let start := pos + 1 in
      let q :=
        advance_while text (fun c => negb (char_eqb c dquote))
          (len - start) start in
      if len <=? q then Raise (AttrValueNotClosed start)
      else Ok (unescapeXMLChars (slice text start q), q + 1).
Proof.
  unfold parse_attr_value. unfold_monad.
  destruct (len <=? pos); [reflexivity|].
  destruct (negb _); [reflexivity|].
  now destruct (len <=? _).
Qed.

Lemma parse_text_eq (pos : nat) :
  parse_text text pos
  = let q :=
      advance_while text (fun c => negb (char_eqb c "<")) (len - pos) pos in
    Ok (SSMLText (unescapeXMLChars (slice text pos q)), q).
Proof. reflexivity. Qed.

Lemma skip_whitespace_post (pos : nat) :
  pos <= len -> post text pos (skip_whitespace text pos).
Proof.
  intros H. rewrite skip_whitespace_eq. simpl.
  pose proof (advance_while_ge text isspace (len - pos) pos).
  pose proof (advance_while_le text isspace (len - pos) pos H). lia.
Qed.

Lemma parse_tag_name_post (pos : nat) :
  pos <= len -> post text (S pos) (parse_tag_name text pos).
Proof.
  intros H. rewrite parse_tag_name_eq. cbv zeta.
  pose proof (advance_while_ge text is_tag_name_char (len - pos) pos).
  pose proof (advance_while_le text is_tag_name_char (len - pos) pos H).
  destruct (pos =? _) eqn:E.
  - error_ok_tac.
  - apply Nat.eqb_neq in E. simpl. lia.
Qed.

Lemma parse_attr_name_post (pos : nat) :
  pos <= len -> post text (S pos) (parse_attr_name text pos).
Proof.
  intros H. rewrite parse_attr_name_eq. cbv zeta.
  pose proof (advance_while_ge text is_attr_name_char (len - pos) pos).
  pose proof (advance_while_le text is_attr_name_char (len - pos) pos H).
  destruct (pos =? _) eqn:E.
  - error_ok_tac.
  - apply Nat.eqb_neq in E. simpl. lia.
Qed.

Lemma parse_attr_value_post (pos : nat) :
  pos <= len -> post text (pos + 2) (parse_attr_value text pos).
Proof.
  intros H. rewrite parse_attr_value_eq. cbv zeta.
  destruct (len <=? pos) eqn:E1; [error_ok_tac|].
  apply Nat.leb_gt in E1.
  destruct (negb _); [error_ok_tac|].
  set (cond := fun c => negb (char_eqb c dquote)).
  pose proof (advance_while_ge text cond (len - (pos + 1)) (pos + 1)).
  destruct (len <=? _) eqn:E2; [error_ok_tac|].
  apply Nat.leb_gt in E2. simpl. lia.
Qed.

Lemma parse_text_post (pos : nat) :
  pos < len -> nth_error text pos <> Some "<"%char ->
  post text (S pos) (parse_text text pos).
Proof.
  intros H Hc. rewrite parse_text_eq. cbv zeta.
  set (cond := fun c => negb (char_eqb c "<")).
  pose proof (advance_while_le text cond (len - pos) pos).
  destruct (len - pos) as [|fuel] eqn:E; [lia|].
  cbn [advance_while]. destruct (nth_error text pos) as [c|] eqn:En.
  - assert (cond c = true) as ->.
    { unfold cond. apply negb_true_iff, char_eqb_neq. congruence. }
    pose proof (advance_while_ge text cond fuel (S pos)).
    pose proof (advance_while_le text cond fuel (S pos)).
    simpl. lia.
  - apply nth_error_None in En. lia.
Qed.

End Progress.

(** One iteration of each loop and one call of [parse_element], with the
    cursor written out. *)
Section Unfold.

Variable text : str.

Local Abbreviation len := (List.length text).
Local Abbreviation ws pos :=
  (advance_while text isspace (len - pos) pos).

Lemma parse_attributes_loop_S (fuel : nat) (attrs : dict) (pos : nat) :
  parse_attributes_loop text (S fuel) attrs pos
  = let p0 := ws pos in
    if (len <=? p0) || is_char_in (nth_error text p0) ["/"; ">"]%char
    then Ok (attrs, p0)
    else
      match parse_attr_name text p0 with
      | Ok (attr_name, p1) =>
          let p2 := ws p1 in
          if (len <=? p2) || negb (is_char (nth_error text p2) "=")
          then Raise (ExpectedEq p2)
          else
            match parse_attr_value text (ws (p2 + 1)) with
            | Ok (attr_value, p4) =>
                parse_attributes_loop text fuel
                  (dict_set attrs attr_name attr_value) p4
            | Raise e => Raise e
            | OutOfFuel => OutOfFuel
            end
      | Raise e => Raise e
      | OutOfFuel => OutOfFuel
      end.
Proof.
  cbn [parse_attributes_loop]. unfold_monad. cbv zeta.
  destruct (_ || _); [reflexivity|].
  destruct (parse_attr_name text _) as [[attr_name p1]| |]; try reflexivity.
  now destruct (_ || _).
Qed.

Lemma parse_element_S (fuel : nat) (pos : nat) :
  parse_element text (S fuel) pos
  = if negb (is_char (nth_error text pos) "<") then Raise (ExpectedLt pos)
    else
      match parse_tag_name text (ws (pos + 1)) with
      | Ok (tag_name, p1) =>
          match parse_attributes text fuel (ws p1) with
          | Ok (attributes, p2) =>
              let p3 := ws p2 in
              if str_eqb (slice text p3 (p3 + 2)) "/>"
              then Ok (SSMLTag tag_name attributes [], p3 + 2)
              else if is_char (nth_error text p3) ">"
              then
                match parse_children text fuel tag_name [] (p3 + 1) with
                | Ok (children, p4) =>
                    Ok (SSMLTag tag_name attributes children, p4)
                | Raise e => Raise e
                | OutOfFuel => OutOfFuel
                end
              else Raise (MalformedTag p3)
          | Raise e => Raise e
          | OutOfFuel => OutOfFuel
          end
      | Raise e => Raise e
      | OutOfFuel => OutOfFuel
      end.
Proof.
  cbn [parse_element]. unfold_monad.
  destruct (negb _); [reflexivity|].
  destruct (parse_tag_name text _) as [[tag_name p1]| |]; try reflexivity.
  destruct (parse_attributes text fuel _) as [[attributes p2]| |];
    try reflexivity.
  cbv zeta. change (List.length (lit "/>")) with 2.
  destruct (str_eqb _ _); [reflexivity|].
  now destruct (is_char _ _).
Qed.

Lemma parse_children_S (fuel : nat) (tag_name : str)
      (children : list SSMLNode) (pos : nat) :
  parse_children text (S fuel) tag_name children pos
  = if len <=? pos then Raise (MissingClosingTag tag_name)
    else if str_eqb (slice text pos (pos + 2)) "</"
    then
      match parse_tag_name text (ws (pos + 2)) with
      | Ok (closing_tag, p1) =>
          let p2 := ws p1 in
          if (len <=? p2) || negb (is_char (nth_error text p2) ">")
          then Raise (ExpectedGtClosing p2)
          else if negb (str_eqb closing_tag tag_name)
          then Raise (MismatchedClosingTag tag_name closing_tag)
          else Ok (children, p2 + 1)
      | Raise e => Raise e
      | OutOfFuel => OutOfFuel
      end
    else if is_char (nth_error text pos) "<"
    then
      match parse_element text fuel pos with
      | Ok (child, p1) =>
          parse_children text fuel tag_name (children ++ [child]) p1
      | Raise e => Raise e
      | OutOfFuel => OutOfFuel
      end
    else
      match parse_text text pos with
      | Ok (text_node, p1) =>
          parse_children text fuel tag_name (children ++ [text_node]) p1
      | Raise e => Raise e
      | OutOfFuel => OutOfFuel
      end.
Proof.
  cbn [parse_children]. unfold_monad.
  destruct (len <=? pos); [reflexivity|].
  change (List.length (lit "</")) with 2.
  destruct (str_eqb _ _).
  - destruct (parse_tag_name text _) as [[closing_tag p1]| |];
      try reflexivity.
    cbv zeta. destruct (_ || _); [reflexivity|].
    now destruct (negb _).
  - destruct (is_char _ _); reflexivity.
Qed.

Lemma parse_eq (fuel : nat) (pos : nat) :
  parse text fuel pos
  = let p0 := ws pos in
    if (len <=? p0) || negb (is_char (nth_error text p0) "<")
    then Raise MustStartWithOpeningTag
    else
      match parse_element text fuel p0 with
      | Ok (node, p1) =>
          if negb (ws p1 =? len) then Raise ExtraContent
          else if negb (is_speak node) then Raise RootMustBeSpeak
          else Ok (node, ws p1)
      | Raise e => Raise e
      | OutOfFuel => OutOfFuel
      end.
Proof.
  unfold parse. unfold_monad. cbv zeta.
  destruct (_ || _); [reflexivity|].
  destruct (parse_element text fuel _) as [[node p1]| |]; try reflexivity.
  destruct (negb _); [reflexivity|].
  now destruct (negb _).
Qed.

End Unfold.

Lemma post_weaken {A : Type} (text : str) (lo lo' : nat)
      (r : result (A * nat)) :
  lo <= lo' -> post text lo' r -> post text lo r.
Proof.
  intros H. destruct r as [[a q]|e|]; simpl; auto. lia.
Qed.

(** The bounds of a white-space scan from [p]. *)
Ltac ws_facts text p :=
  pose proof (advance_while_ge text isspace (List.length text - p) p);
  pose proof (advance_while_le text isspace (List.length text - p) p).

Section Totality.

Variable text : str.

Local Abbreviation len := (List.length text).

Lemma parse_attributes_loop_post (fuel : nat) :
  forall attrs pos,
    pos <= len -> len - pos < fuel ->
    post text pos (parse_attributes_loop text fuel attrs pos).
Proof.
  induction fuel as [|fuel IH]; intros attrs pos Hpos Hfuel; [lia|].
  rewrite parse_attributes_loop_S. cbv zeta.
  ws_facts text pos.
  set (p0 := advance_while text isspace (len - pos) pos) in *.
  destruct (_ || _) eqn:E0; [simpl; lia|].
  apply orb_false_iff in E0. destruct E0 as [E0 _].
  apply Nat.leb_gt in E0.
  pose proof (parse_attr_name_post text p0) as Hn.
  destruct (parse_attr_name text p0) as [[attr_name p1]|e|];
    simpl in Hn; [|apply Hn; lia|apply Hn; lia].
  ws_facts text p1. set (p2 := advance_while text isspace (len - p1) p1) in *.
  destruct (_ || _) eqn:E2; [error_ok_tac|].
  apply orb_false_iff in E2. destruct E2 as [E2 _].
  apply Nat.leb_gt in E2.
  ws_facts text (p2 + 1).
  set (p3 := advance_while text isspace (len - (p2 + 1)) (p2 + 1)) in *.
  pose proof (parse_attr_value_post text p3) as Hv.
  destruct (parse_attr_value text p3) as [[attr_value p4]|e|];
    simpl in Hv; [|apply Hv; lia|apply Hv; lia].
  apply post_weaken with (lo' := p4); [lia|].
  apply IH; lia.
Qed.

Lemma parse_element_children_post (fuel : nat) :
  (forall pos,
      pos <= len -> len - pos < fuel ->
      post text (S pos) (parse_element text fuel pos))
  /\ (forall tag_name children pos,
         pos <= len -> S (len - pos) < fuel ->
         post text (S pos) (parse_children text fuel tag_name children pos)).
Proof.
  induction fuel as [|fuel [IHe IHc]]; [split; intros; lia|].
  split.
  - intros pos Hpos Hfuel. rewrite parse_element_S.
    destruct (negb _) eqn:E0; [error_ok_tac|].
    apply negb_false_iff, is_char_Some in E0. destruct E0 as [_ E0].
    ws_facts text (pos + 1).
    set (p0 := advance_while text isspace (len - (pos + 1)) (pos + 1)) in *.
    pose proof (parse_tag_name_post text p0) as Hn.
    destruct (parse_tag_name text p0) as [[tag_name p1]|e|];
      simpl in Hn; [|apply Hn; lia|apply Hn; lia].
    ws_facts text p1.
    set (p1' := advance_while text isspace (len - p1) p1) in *.
    pose proof (parse_attributes_loop_post fuel [] p1') as Ha.
    unfold parse_attributes.
    destruct (parse_attributes_loop text fuel [] p1')
      as [[attributes p2]|e|];
      simpl in Ha; [|apply Ha; lia|apply Ha; lia].
    cbv zeta.
    ws_facts text p2. set (p3 := advance_while text isspace (len - p2) p2) in *.
    destruct (str_eqb _ _) eqn:E3.
    + apply str_eqb_eq in E3.
      apply (f_equal (@List.length _)) in E3.
      unfold slice in E3. rewrite length_firstn, length_skipn in E3.
      change (List.length (lit "/>")) with 2 in E3. simpl. lia.
    + destruct (is_char _ _) eqn:E4; [|error_ok_tac].
      apply is_char_Some in E4. destruct E4 as [_ E4].
      pose proof (IHc tag_name [] (p3 + 1)) as Hc.
      destruct (parse_children text fuel tag_name [] (p3 + 1))
        as [[children p4]|e|];
        simpl in Hc |- *; [|apply Hc; lia|apply Hc; lia].
      lia.
  - intros tag_name children pos Hpos Hfuel. rewrite parse_children_S.
    destruct (len <=? pos) eqn:E0; [error_ok_tac|].
    apply Nat.leb_gt in E0.
    destruct (str_eqb _ _) eqn:E1.
    + apply str_eqb_eq in E1.
      apply (f_equal (@List.length _)) in E1.
      unfold slice in E1. rewrite length_firstn, length_skipn in E1.
      change (List.length (lit "</")) with 2 in E1.
      ws_facts text (pos + 2).
      set (p0 := advance_while text isspace (len - (pos + 2)) (pos + 2)) in *.
      pose proof (parse_tag_name_post text p0) as Hn.
      destruct (parse_tag_name text p0) as [[closing_tag p1]|e|];
        simpl in Hn; [|apply Hn; lia|apply Hn; lia].
      cbv zeta. ws_facts text p1.
      set (p2 := advance_while text isspace (len - p1) p1) in *.
      destruct (_ || _) eqn:E2; [error_ok_tac|].
      apply orb_false_iff in E2. destruct E2 as [E2 _].
      apply Nat.leb_gt in E2.
      destruct (negb _) eqn:E3.
      * split; [intros n Hn'; discriminate|].
        intros a b [= <- <-]. apply negb_true_iff, str_eqb_neq in E3.
        congruence.
      * simpl. lia.
    + destruct (is_char _ _) eqn:E4.
      * pose proof (IHe pos) as He.
        destruct (parse_element text fuel pos) as [[child p1]|e|];
          simpl in He; [|apply He; lia|apply He; lia].
        apply post_weaken with (lo' := S p1); [lia|].
        apply IHc; lia.
      * assert (nth_error text pos <> Some "<"%char) as Hc.
        { intros Hc. rewrite Hc in E4. discriminate. }
        pose proof (parse_text_post text pos E0 Hc) as Ht.
        destruct (parse_text text pos) as [[text_node p1]|e|];
          simpl in Ht; [|apply Ht|apply Ht].
        apply post_weaken with (lo' := S p1); [lia|].
        apply IHc; lia.
Qed.

End Totality.

(** More fuel never changes a result that was reached. *)
Section FuelMonotone.

Variable text : str.

Lemma parse_attributes_loop_mono (fuel : nat) :
  forall fuel' attrs pos,
    fuel <= fuel' ->
    parse_attributes_loop text fuel attrs pos <> OutOfFuel ->
    parse_attributes_loop text fuel' attrs pos
    = parse_attributes_loop text fuel attrs pos.
Proof.
  induction fuel as [|fuel IH]; intros fuel' attrs pos Hle H.
  - now contradiction H.
  - destruct fuel' as [|fuel']; [lia|].
    rewrite parse_attributes_loop_S in H.
    rewrite !parse_attributes_loop_S. cbv zeta in *.
    destruct (_ || _); [reflexivity|].
    destruct (parse_attr_name text _) as [[attr_name p1]| |];
      try reflexivity.
    destruct (_ || _); [reflexivity|].
    destruct (parse_attr_value text _) as [[attr_value p4]| |];
      try reflexivity.
    apply IH; [lia|assumption].
Qed.

Lemma parse_element_children_mono (fuel : nat) :
  (forall fuel' pos,
      fuel <= fuel' ->
      parse_element text fuel pos <> OutOfFuel ->
      parse_element text fuel' pos = parse_element text fuel pos)
  /\ (forall fuel' tag_name children pos,
         fuel <= fuel' ->
         parse_children text fuel tag_name children pos <> OutOfFuel ->
         parse_children text fuel' tag_name children pos
         = parse_children text fuel tag_name children pos).
Proof.
  induction fuel as [|fuel [IHe IHc]].
  - split; intros; now contradiction H0.
  - split.
    + intros fuel' pos Hle H.
      destruct fuel' as [|fuel']; [lia|].
      rewrite parse_element_S in H. rewrite !parse_element_S.
      destruct (negb _); [reflexivity|].
      destruct (parse_tag_name text _) as [[tag_name p1]| |];
        try reflexivity.
      unfold parse_attributes in *.
      destruct (parse_attributes_loop text fuel [] _)
        as [[attributes p2]| |] eqn:Ea.
      * rewrite (parse_attributes_loop_mono fuel fuel' [] _ ltac:(lia))
          by (rewrite Ea; discriminate).
        rewrite Ea. cbv zeta in *. destruct (str_eqb _ _); [reflexivity|].
        destruct (is_char _ _); [|reflexivity].
        rewrite (IHc fuel' tag_name [] _ ltac:(lia)); [reflexivity|].
        intros Hc. rewrite Hc in H. now contradiction H.
      * rewrite (parse_attributes_loop_mono fuel fuel' [] _ ltac:(lia))
          by (rewrite Ea; discriminate).
        now rewrite Ea.
      * now contradiction H.
    + intros fuel' tag_name children pos Hle H.
      destruct fuel' as [|fuel']; [lia|].
      rewrite parse_children_S in H. rewrite !parse_children_S.
      destruct (_ <=? _); [reflexivity|].
      destruct (str_eqb _ _); [reflexivity|].
      destruct (is_char _ _).
      * destruct (parse_element text fuel pos) as [[child p1]| |] eqn:Ee.
        -- rewrite (IHe fuel' pos ltac:(lia)) by (rewrite Ee; discriminate).
           rewrite Ee. apply IHc; [lia|assumption].
        -- rewrite (IHe fuel' pos ltac:(lia)) by (rewrite Ee; discriminate).
           now rewrite Ee.
        -- now contradiction H.
      * destruct (parse_text text pos) as [[text_node p1]| |];
          try reflexivity.
        apply IHc; [lia|assumption].
Qed.

Lemma parse_mono (fuel fuel' pos : nat) :
  fuel <= fuel' ->
  parse text fuel pos <> OutOfFuel ->
  parse text fuel' pos = parse text fuel pos.
Proof.
  intros Hle H. rewrite parse_eq in H. rewrite !parse_eq. cbv zeta in *.
  destruct (_ || _); [reflexivity|].
  destruct (parse_element text fuel _) as [[node p1]| |] eqn:Ee.
  - destruct (parse_element_children_mono fuel) as [He _].
    rewrite (He fuel' _ Hle) by (rewrite Ee; discriminate). now rewrite Ee.
  - destruct (parse_element_children_mono fuel) as [He _].
    rewrite (He fuel' _ Hle) by (rewrite Ee; discriminate). now rewrite Ee.
  - now contradiction H.
Qed.

Lemma parse_post (fuel : nat) :
  List.length text < fuel -> post text 0 (parse text fuel 0).
Proof.
  intros Hfuel. rewrite parse_eq. cbv zeta.
  pose proof (advance_while_le text isspace (List.length text - 0) 0).
  set (p0 := advance_while text isspace (List.length text - 0) 0) in *.
  destruct (_ || _); [error_ok_tac|].
  destruct (parse_element_children_post text fuel) as [He _].
  specialize (He p0).
  destruct (parse_element text fuel p0) as [[node p1]|e|];
    simpl in He; [|apply He; lia|apply He; lia].
  destruct (negb _) eqn:E; [error_ok_tac|].
  destruct (negb (is_speak node)); [error_ok_tac|].
  apply negb_false_iff, Nat.eqb_eq in E. simpl. lia.
Qed.

End FuelMonotone.

(** [parseSSML] agrees with [parse] at any larger fuel. *)
Lemma parseSSML_fuel (ssml : str) (fuel : nat) :
  fuel_for ssml <= fuel ->
  parse ssml fuel 0 = parse ssml (fuel_for ssml) 0.
Proof.
  intros H. apply parse_mono; [assumption|].
  pose proof (parse_post ssml (fuel_for ssml)) as Hp.
  intros E. rewrite E in Hp. apply Hp. unfold fuel_for. lia.
Qed.

Lemma parseSSML_of_parse (ssml : str) (fuel : nat)
      (r : result (SSMLNode * nat)) :
  parse ssml fuel 0 = r -> r <> OutOfFuel ->
  parseSSML ssml
  = match r with
    | Ok (node, _) => Ok node
    | Raise e => Raise e
    | OutOfFuel => OutOfFuel
    end.
Proof.
  intros <- H. unfold parseSSML.
  destruct (Nat.le_ge_cases fuel (fuel_for ssml)) as [Hle|Hge].
  - now rewrite (parse_mono ssml fuel (fuel_for ssml) 0 Hle H).
  - now rewrite (parseSSML_fuel ssml fuel Hge).
Qed.

(* ------------------------------------------------------------------ *)
(** ** Productions on a known piece of text

    Each lemma runs one production at a cursor where the remaining text
    [skipn pos text] is known to begin with a given lexeme. *)

Lemma skipn_cons_lt (l : str) (pos : nat) (c : ascii) (r : str) :
  skipn pos l = c :: r -> pos < List.length l.
Proof.
  intros H. apply skipn_length_at in H. simpl in H. lia.
Qed.

Section Lexemes.

Variable text : str.

Local Abbreviation len := (List.length text).

Lemma ws_at (pos : nat) (w rest : str) :
  skipn pos text = w ++ rest ->
  forallb isspace w = true -> stops isspace rest ->
  advance_while text isspace (len - pos) pos = pos + List.length w.
Proof.
  intros H Hw Hr.
  apply (advance_while_run text isspace w rest Hw Hr); auto.
  rewrite (skipn_length_at _ _ _ H), length_app. lia.
Qed.

Lemma ws_stay (pos : nat) (rest : str) :
  skipn pos text = rest -> stops isspace rest ->
  advance_while text isspace (len - pos) pos = pos.
Proof.
  intros H Hr. rewrite (ws_at pos [] rest H eq_refl Hr). simpl. lia.
Qed.

Lemma parse_tag_name_at (pos : nat) (name rest : str) :
  skipn pos text = name ++ rest ->
  name <> [] ->
  forallb is_tag_name_char name = true -> stops is_tag_name_char rest ->
  parse_tag_name text pos = Ok (name, pos + List.length name).
Proof.
  intros H Hne Hn Hr. rewrite parse_tag_name_eq.
  rewrite (advance_while_run text is_tag_name_char name rest Hn Hr).
  - cbv zeta. destruct (Nat.eqb_spec pos (pos + List.length name)) as [E|E].
    + destruct name; [congruence|simpl in E; lia].
    + now rewrite (slice_at _ _ _ _ H).
  - exact H.
  - rewrite (skipn_length_at _ _ _ H), length_app. lia.
Qed.

Lemma parse_attr_name_at (pos : nat) (name rest : str) :
  skipn pos text = name ++ rest ->
  name <> [] ->
  forallb is_attr_name_char name = true -> stops is_attr_name_char rest ->
  parse_attr_name text pos = Ok (name, pos + List.length name).
Proof.
  intros H Hne Hn Hr. rewrite parse_attr_name_eq.
  rewrite (advance_while_run text is_attr_name_char name rest Hn Hr).
  - cbv zeta. destruct (Nat.eqb_spec pos (pos + List.length name)) as [E|E].
    + destruct name; [congruence|simpl in E; lia].
    + now rewrite (slice_at _ _ _ _ H).
  - exact H.
  - rewrite (skipn_length_at _ _ _ H), length_app. lia.
Qed.

Lemma forallb_not_char (c : ascii) (s : str) :
  ~ In c s -> forallb (fun x => negb (char_eqb x c)) s = true.
Proof.
  intros H. apply forallb_forall. intros x Hx.
  apply negb_true_iff, char_eqb_neq. intros ->. contradiction.
Qed.

Lemma parse_attr_value_at (pos : nat) (value rest : str) :
  skipn pos text = dquote :: value ++ dquote :: rest ->
  ~ In dquote value ->
  parse_attr_value text pos
  = Ok (unescapeXMLChars value, pos + List.length value + 2).
Proof.
  intros H Hv. rewrite parse_attr_value_eq.
  pose proof (skipn_cons_lt _ _ _ _ H) as Hlt.
  destruct (skipn_cons_nth _ _ _ _ H) as [Hc Hs].
  apply Nat.leb_gt in Hlt. rewrite Hlt, Hc. simpl negb. cbv iota zeta.
  replace (S pos) with (pos + 1) in Hs by lia.
  rewrite (advance_while_run text _ value (dquote :: rest)
             (forallb_not_char _ _ Hv) eq_refl _ (pos + 1) Hs).
  2:{ rewrite (skipn_length_at _ _ _ Hs), length_app. lia. }
  pose proof (skipn_app_at _ _ _ _ Hs) as Hq.
  pose proof (skipn_cons_lt _ _ _ _ Hq) as Hq'.
  apply Nat.leb_gt in Hq'. rewrite Hq'.
  rewrite (slice_at _ _ _ _ Hs). f_equal. f_equal. lia.
Qed.

Lemma parse_text_at (pos : nat) (run rest : str) :
  skipn pos text = run ++ rest ->
  ~ In "<"%char run ->
  stops (fun c => negb (char_eqb c "<")) rest ->
  parse_text text pos
  = Ok (SSMLText (unescapeXMLChars run), pos + List.length run).
Proof.
  intros H Hrun Hr. rewrite parse_text_eq.
  rewrite (advance_while_run text _ run rest
             (forallb_not_char _ _ Hrun) Hr _ pos H).
  - cbv zeta. now rewrite (slice_at _ _ _ _ H).
  - rewrite (skipn_length_at _ _ _ H), length_app. lia.
Qed.

Lemma slice_two_at (pos : nat) (a b : ascii) (rest : str) :
  skipn pos text = a :: b :: rest -> slice text pos (pos + 2) = [a; b].
Proof.
  intros H. exact (slice_at text pos [a; b] rest H).
Qed.

Lemma slice_two_neq (pos : nat) (a : ascii) (rest s : str) :
  skipn pos text = a :: rest -> s <> [] -> hd a s <> a ->
  str_eqb (slice text pos (pos + 2)) s = false.
Proof.
  intros H Hs Hd. apply str_eqb_neq. intros E.
  unfold slice in E. rewrite H in E.
  replace (pos + 2 - pos) with 2 in E by lia.
  destruct s as [|x s]; [congruence|]. simpl in *. congruence.
Qed.

End Lexemes.

Lemma tag_name_char_not_space (c : ascii) :
  is_tag_name_char c = true -> isspace c = false.
Proof.
  unfold is_tag_name_char. intros H. apply andb_true_iff in H.
  destruct H as [H _]. now apply negb_true_iff in H.
Qed.

Lemma space_not_tag_name_char (c : ascii) :
  isspace c = true -> is_tag_name_char c = false.
Proof. unfold is_tag_name_char. now intros ->. Qed.

Lemma attr_name_char_not_space (c : ascii) :
  is_attr_name_char c = true -> isspace c = false.
Proof.
  unfold is_attr_name_char. intros H. apply andb_true_iff in H.
  destruct H as [H _]. now apply negb_true_iff in H.
Qed.

Lemma valid_tag_name_stops_space (name rest : str) :
  valid_tag_name name -> stops isspace (name ++ rest).
Proof.
  intros [Hne Hn]. destruct name as [|c name]; [congruence|].
  simpl in *. apply andb_true_iff in Hn. destruct Hn as [Hc _].
  now apply tag_name_char_not_space.
Qed.

Lemma valid_attr_name_stops_space (name rest : str) :
  valid_attr_name name -> stops isspace (name ++ rest).
Proof.
  intros [Hne Hn]. destruct name as [|c name]; [congruence|].
  simpl in *. apply andb_true_iff in Hn. destruct Hn as [Hc _].
  now apply attr_name_char_not_space.
Qed.

Lemma valid_tag_name_head (name rest : str) (ch : ascii) :
  valid_tag_name name -> is_tag_name_char ch = false ->
  hd ch (name ++ rest) <> ch.
Proof.
  intros [Hne Hn] Hch. destruct name as [|c name]; [congruence|].
  simpl in *. apply andb_true_iff in Hn. destruct Hn as [Hc _].
  congruence.
Qed.

Section Steps.

Variable text : str.

Local Abbreviation len := (List.length text).

(** The children loop at a run of text: the run, decoded, becomes the
    next child, and the cursor stops right after it. *)
Lemma parse_children_text_step (fuel : nat) (tag_name : str)
      (children : list SSMLNode) (pos : nat) (run rest : str) :
  skipn pos text = run ++ rest ->
  run <> [] -> ~ In "<"%char run ->
  stops (fun c => negb (char_eqb c "<")) rest ->
  parse_children text (S fuel) tag_name children pos
  = parse_children text fuel tag_name
      (children ++ [SSMLText (unescapeXMLChars run)])
      (pos + List.length run).
Proof.
  intros H Hne Hrun Hrest. rewrite parse_children_S.
  destruct run as [|c run]; [congruence|]. simpl in H.
  assert (c <> "<"%char) as Hc by (intros ->; apply Hrun; now left).
  pose proof (skipn_cons_lt _ _ _ _ H) as Hlt.
  apply Nat.leb_gt in Hlt. rewrite Hlt.
  rewrite (slice_two_neq text pos c _ (lit "</") H) by (simpl; congruence).
  destruct (skipn_cons_nth _ _ _ _ H) as [-> _]. simpl is_char.
  apply char_eqb_neq in Hc. rewrite Hc.
  now rewrite (parse_text_at text pos (c :: run) rest H Hrun Hrest).
Qed.

(** The children loop at a closing tag, with optional white space
    around its name. *)
Lemma parse_children_close (fuel : nat) (tag_name : str)
      (children : list SSMLNode) (pos : nat) (w1 name w2 rest : str) :
  skipn pos text
  = "<"%char :: "/"%char :: w1 ++ name ++ w2 ++ ">"%char :: rest ->
  forallb isspace w1 = true -> valid_tag_name name ->
  forallb isspace w2 = true ->
  parse_children text (S fuel) tag_name children pos
  = if str_eqb name tag_name
    then Ok (children,
             pos + 2 + List.length w1 + List.length name
             + List.length w2 + 1)
    else Raise (MismatchedClosingTag tag_name name).
Proof.
  intros H Hw1 Hname Hw2. rewrite parse_children_S.
  pose proof (skipn_cons_lt _ _ _ _ H) as Hlt.
  apply Nat.leb_gt in Hlt. rewrite Hlt.
  rewrite (slice_two_at text pos _ _ _ H).
  change (str_eqb ["<"%char; "/"%char] (lit "</")) with true. cbv iota.
  pose proof (skipn_app_at text pos ["<"%char; "/"%char] _ H) as H1.
  change (List.length ["<"%char; "/"%char]) with 2 in H1.
  rewrite (ws_at text (pos + 2) w1 _ H1 Hw1)
    by (now apply valid_tag_name_stops_space).
  pose proof (skipn_app_at text _ w1 _ H1) as H2.
  assert (stops is_tag_name_char (w2 ++ ">"%char :: rest)) as Hstop.
  { destruct w2 as [|c w2]; [reflexivity|]. simpl in *.
    apply andb_true_iff in Hw2. destruct Hw2 as [Hc _].
    now apply space_not_tag_name_char. }
  destruct Hname as [Hne Hn].
  rewrite (parse_tag_name_at text _ name _ H2 Hne Hn Hstop).
  pose proof (skipn_app_at text _ name _ H2) as H3.
  cbv zeta.
  rewrite (ws_at text _ w2 _ H3 Hw2) by reflexivity.
  pose proof (skipn_app_at text _ w2 _ H3) as H4.
  pose proof (skipn_cons_lt _ _ _ _ H4) as Hlt4.
  apply Nat.leb_gt in Hlt4. rewrite Hlt4.
  destruct (skipn_cons_nth _ _ _ _ H4) as [-> _].
  simpl. now destruct (str_eqb name tag_name).
Qed.

(** The children loop at the end of the text. *)
Lemma parse_children_end (fuel : nat) (tag_name : str)
      (children : list SSMLNode) (pos : nat) :
  len <= pos ->
  parse_children text (S fuel) tag_name children pos
  = Raise (MissingClosingTag tag_name).
Proof.
  intros H. rewrite parse_children_S.
  apply Nat.leb_le in H. now rewrite H.
Qed.

(** An opening tag without attributes. *)
Lemma parse_element_open (fuel : nat) (pos : nat) (name rest : str) :
  skipn pos text = "<"%char :: name ++ ">"%char :: rest ->
  valid_tag_name name ->
  parse_element text (S (S fuel)) pos
  = match
      parse_children text (S fuel) name [] (pos + 1 + List.length name + 1)
    with
    | Ok (children, p) => Ok (SSMLTag name [] children, p)
    | Raise e => Raise e
    | OutOfFuel => OutOfFuel
    end.
Proof.
  intros H Hname. rewrite parse_element_S.
  destruct (skipn_cons_nth _ _ _ _ H) as [Hc H1]. rewrite Hc.
  simpl negb. cbv iota.
  replace (S pos) with (pos + 1) in H1 by lia.
  rewrite (ws_stay text (pos + 1) _ H1)
    by (now apply valid_tag_name_stops_space).
  destruct Hname as [Hne Hn].
  rewrite (parse_tag_name_at text _ name _ H1 Hne Hn) by reflexivity.
  pose proof (skipn_app_at text _ name _ H1) as H2.
  rewrite (ws_stay text _ _ H2) by reflexivity.
  unfold parse_attributes. rewrite parse_attributes_loop_S. cbv zeta.
  rewrite (ws_stay text _ _ H2) by reflexivity.
  destruct (skipn_cons_nth _ _ _ _ H2) as [Hc2 _]. rewrite Hc2.
  replace (_ || _) with true by (simpl; now rewrite orb_true_r).
  cbv iota. rewrite (ws_stay text _ _ H2) by reflexivity.
  rewrite (slice_two_neq text _ ">"%char _ (lit "/>") H2)
    by (simpl; congruence).
  rewrite Hc2. reflexivity.
Qed.

(** The self-closing form without attributes. *)
Lemma parse_element_self_closing (fuel : nat) (pos : nat)
      (name rest : str) :
  skipn pos text = "<"%char :: name ++ "/"%char :: ">"%char :: rest ->
  valid_tag_name name ->
  parse_element text (S (S fuel)) pos
  = Ok (SSMLTag name [] [], pos + 1 + List.length name + 2).
Proof.
  intros H Hname. rewrite parse_element_S.
  destruct (skipn_cons_nth _ _ _ _ H) as [Hc H1]. rewrite Hc.
  simpl negb. cbv iota.
  replace (S pos) with (pos + 1) in H1 by lia.
  rewrite (ws_stay text (pos + 1) _ H1)
    by (now apply valid_tag_name_stops_space).
  destruct Hname as [Hne Hn].
  rewrite (parse_tag_name_at text _ name _ H1 Hne Hn) by reflexivity.
  pose proof (skipn_app_at text _ name _ H1) as H2.
  rewrite (ws_stay text _ _ H2) by reflexivity.
  unfold parse_attributes. rewrite parse_attributes_loop_S. cbv zeta.
  rewrite (ws_stay text _ _ H2) by reflexivity.
  destruct (skipn_cons_nth _ _ _ _ H2) as [Hc2 _]. rewrite Hc2.
  replace (_ || _) with true by (simpl; now rewrite orb_true_r).
  cbv iota. rewrite (ws_stay text _ _ H2) by reflexivity.
  now rewrite (slice_two_at text _ _ _ _ H2).
Qed.

End Steps.

(** A document whose root opens with [<speak>]: the parse is the children
    loop started right after the opening tag, followed by the check for
    trailing content. *)
Lemma parseSSML_speak (body : str) (fuel : nat) :
  let text := lit "<speak>" ++ body in
  parse_children text (S fuel) "speak" [] 7 <> OutOfFuel ->
  parseSSML text
  = match parse_children text (S fuel) "speak" [] 7 with
    | Ok (children, p) =>
        if advance_while text isspace (List.length text - p) p
           =? List.length text
        then Ok (SSMLTag "speak" [] children)
        else Raise ExtraContent
    | Raise e => Raise e
    | OutOfFuel => OutOfFuel
    end.
Proof.
  intros text H.
  assert (skipn 0 text = "<"%char :: lit "speak" ++ ">"%char :: body) as H0
      by reflexivity.
  assert (valid_tag_name "speak") as Hspeak
      by (split; [discriminate|reflexivity]).
  pose proof (parse_eq text (S (S fuel)) 0) as Hp. cbv zeta in Hp.
  rewrite (ws_stay text 0 _ H0 eq_refl) in Hp.
  change (nth_error text 0) with (Some "<"%char) in Hp.
  change (List.length text <=? 0) with false in Hp.
  change (false || negb (is_char (Some "<"%char) "<")) with false in Hp.
  cbv iota in Hp.
  rewrite (parse_element_open text fuel 0 _ _ H0 Hspeak) in Hp.
  change (0 + 1 + List.length (lit "speak") + 1) with 7 in Hp.
  rewrite (parseSSML_of_parse text (S (S fuel)) _ Hp).
  - destruct (parse_children text (S fuel) (lit "speak") [] 7)
      as [[children p]|e|]; try reflexivity.
    now destruct (_ =? _).
  - destruct (parse_children text (S fuel) (lit "speak") [] 7)
      as [[children p]|e|]; try discriminate.
    + now destruct (_ =? _).
    + now contradiction H.
Qed.

(* ------------------------------------------------------------------ *)
(** ** Text children *)







(* ------------------------------------------------------------------ *)
(** ** Closing tags *)

(** The children loop at an opening [<] calls [parse_element] and goes on
    with the child appended. *)
Lemma parse_children_element_step (text : str) (fuel : nat)
      (tag_name : str) (children : list SSMLNode) (pos : nat)
      (c : ascii) (rest : str) :
  skipn pos text = "<"%char :: c :: rest -> c <> "/"%char ->
  parse_children text (S fuel) tag_name children pos
  = match parse_element text fuel pos with
    | Ok (child, p1) =>
        parse_children text fuel tag_name (children ++ [child]) p1
    | Raise e => Raise e
    | OutOfFuel => OutOfFuel
    end.
Proof.
  intros H Hc. rewrite parse_children_S.
  pose proof (skipn_cons_lt _ _ _ _ H) as Hlt.
  apply Nat.leb_gt in Hlt. rewrite Hlt.
  rewrite (slice_two_at text pos _ _ _ H).
  assert (str_eqb ["<"%char; c] (lit "</") = false) as ->.
  { apply str_eqb_neq. intros [= E]. contradiction. }
  destruct (skipn_cons_nth _ _ _ _ H) as [-> _]. reflexivity.
Qed.

Lemma speak_unclosed (run : str) :
  ~ In "<"%char run ->
  parseSSML (lit "<speak>" ++ run) = Raise (MissingClosingTag "speak").
Proof.
  intros Hrun. set (text := lit "<speak>" ++ run).
  assert (skipn 7 text = run ++ []) as H7
      by (now rewrite app_nil_r).
  assert (parse_children text 2 "speak" [] 7
          = Raise (MissingClosingTag "speak")) as Hc.
  { destruct (list_eq_dec ascii_dec run []) as [E|E].
    - apply parse_children_end. unfold text. rewrite E. reflexivity.
    - rewrite (parse_children_text_step text 1 "speak" [] 7 run [] H7)
        by first [exact I | assumption].
      apply parse_children_end. unfold text. rewrite length_app. simpl. lia. }
  unfold text. rewrite (parseSSML_speak run 1); fold text; rewrite Hc;
    [reflexivity|discriminate].
Qed.

(** C7, the claim fails: an input can end while a tag is still open and
    raise an error that names no tag.  [<speak><voice] ends inside the
    opening tag of [voice], with [speak] open, and raises the error for a
    malformed tag; [<speak>Hi</] and [<speak>Hi</speak] end inside the
    closing tag and raise the errors for a missing tag name and a missing
    [>]. *)
Lemma end_of_input_inside_tag :
  parseSSML "<speak><voice" = Raise (MalformedTag 13)
  /\ message (MalformedTag 13)
     = "Malformed tag at position 13: expected '>' or '/>'"
  /\ parseSSML "<speak>Hi</" = Raise (ExpectedTagName 11)
  /\ message (ExpectedTagName 11) = "Expected tag name at position 11"
  /\ parseSSML "<speak>Hi</speak" = Raise (ExpectedGtClosing 16)
  /\ message (ExpectedGtClosing 16)
     = "Expected '>' at end of closing tag at position 16".
Proof.
  repeat split; vm_compute; reflexivity.
Qed.

(** C7, amended — closing tags are validated against the open tag.  When
    the children loop of an open tag [tag_name] reads a closing tag
    [</ name >] (white space allowed around the name), it returns the
    children when [name] equals [tag_name] and otherwise raises the
    mismatch error, whose message names the expected and the found tag.
    The comparison is equality of strings, so it is exact and case
    sensitive.  When the input ends where the next child or the closing
    tag would begin, the loop raises the error that names the open tag.
    The examples are those of the specification, a mismatch that differs
    only in case, nested tags, and the family of documents that end inside
    the text of [speak]. *)
Theorem closing_tag_checked :
  (forall text fuel tag_name children pos w1 name w2 rest,
      skipn pos text
      = "<"%char :: "/"%char :: w1 ++ name ++ w2 ++ ">"%char :: rest ->
      forallb isspace w1 = true -> valid_tag_name name ->
      forallb isspace w2 = true ->
      parse_children text (S fuel) tag_name children pos
      = if str_eqb name tag_name
        then Ok (children,
                 pos + 2 + List.length w1 + List.length name
                 + List.length w2 + 1)
        else Raise (MismatchedClosingTag tag_name name))
  /\ (forall name tag_name, str_eqb name tag_name = true <-> name = tag_name)
  /\ (forall tag_name closing_tag,
         message (MismatchedClosingTag tag_name closing_tag)
         = lit "Mismatched closing tag: expected </" ++ tag_name
             ++ lit "> but found </" ++ closing_tag ++ lit ">")
  /\ (forall text fuel tag_name children pos,
         List.length text <= pos ->
         parse_children text (S fuel) tag_name children pos
         = Raise (MissingClosingTag tag_name))
  /\ (forall tag_name,
         message (MissingClosingTag tag_name)
         = lit "Missing closing tag for <" ++ tag_name ++ lit ">")
  /\ (forall run,
         ~ In "<"%char run ->
         parseSSML (lit "<speak>" ++ run)
         = Raise (MissingClosingTag "speak"))
  /\ parseSSML "<speak><voice></speak>"
     = Raise (MismatchedClosingTag "voice" "speak")
  /\ parseSSML "<speak></Speak>"
     = Raise (MismatchedClosingTag "speak" "Speak")
  /\ parseSSML "<speak><a><b>x</a></b></speak>"
     = Raise (MismatchedClosingTag "b" "a")
  /\ parseSSML "<speak><voice>Hi"
     = Raise (MissingClosingTag "voice").
Proof.
  split; [exact parse_children_close|].
  split; [exact str_eqb_eq|].
  split; [reflexivity|].
  split; [exact parse_children_end|].
  split; [reflexivity|].
  split; [exact speak_unclosed|].
  repeat split; vm_compute; reflexivity.
Qed.

(* ------------------------------------------------------------------ *)
(** ** Self-closing tags *)

Lemma parseSSML_speak_ok (body : str) (fuel : nat)
      (children : list SSMLNode) (p : nat) :
  parse_children (lit "<speak>" ++ body) (S fuel) "speak" [] 7
  = Ok (children, p) ->
  p = List.length (lit "<speak>" ++ body) ->
  parseSSML (lit "<speak>" ++ body) = Ok (SSMLTag "speak" [] children).
Proof.
  intros H Hp. rewrite (parseSSML_speak body fuel); rewrite H;
    [|discriminate].
  rewrite ws_stay with (rest := []).
  - subst p. now rewrite Nat.eqb_refl.
  - apply skipn_all2. lia.
  - exact I.
Qed.

Lemma valid_tag_name_first (name : str) :
  valid_tag_name name ->
  exists c name', name = c :: name' /\ c <> "/"%char.
Proof.
  intros [Hne Hn]. destruct name as [|c name]; [congruence|].
  exists c, name. split; [reflexivity|].
  simpl in Hn. apply andb_true_iff in Hn. destruct Hn as [Hc _].
  intros ->. discriminate.
Qed.

Lemma speak_self_closed (name : str) :
  valid_tag_name name ->
  parseSSML (lit "<speak><" ++ name ++ lit "/></speak>")
  = Ok (SSMLTag "speak" [] [SSMLTag name [] []]).
Proof.
  intros Hname.
  change (lit "<speak><" ++ name ++ lit "/></speak>")
    with (lit "<speak>" ++ "<"%char :: name ++ lit "/></speak>").
  set (body := "<"%char :: name ++ lit "/></speak>").
  set (text := lit "<speak>" ++ body).
  assert (skipn 7 text
          = "<"%char :: name ++ "/"%char :: ">"%char :: lit "</speak>")
    as H7 by reflexivity.
  destruct (skipn_cons_nth _ _ _ _ H7) as [_ H8].
  pose proof (skipn_app_at text 8 name _ H8) as H9.
  pose proof (skipn_app_at text _ ["/"%char; ">"%char] _ H9) as H10.
  apply (parseSSML_speak_ok body 2 [SSMLTag name [] []]
           (8 + List.length name + 2 + 8)).
  - fold text.
    destruct (valid_tag_name_first name Hname) as (c & name' & E & Hc).
    rewrite (parse_children_element_step text 2 "speak" [] 7 c
               (name' ++ lit "/></speak>"))
      by (try assumption; rewrite H7, E; reflexivity).
    rewrite (parse_element_self_closing text 0 7 name _ H7 Hname).
    replace (7 + 1 + List.length name + 2)
      with (8 + List.length name + List.length ["/"%char; ">"%char])
      by (simpl; lia).
    rewrite (parse_children_close text 1 "speak" _ _ [] "speak" [] []
               H10 eq_refl)
      by first [reflexivity | split; [discriminate|reflexivity]].
    simpl. f_equal. f_equal. lia.
  - unfold text, body. rewrite length_app. simpl. rewrite length_app.
    simpl. lia.
Qed.

Lemma speak_explicitly_closed (name : str) :
  valid_tag_name name ->
  parseSSML (lit "<speak><" ++ name ++ lit "></" ++ name ++ lit "></speak>")
  = Ok (SSMLTag "speak" [] [SSMLTag name [] []]).
Proof.
  intros Hname.
  change (lit "<speak><" ++ name ++ lit "></" ++ name ++ lit "></speak>")
    with (lit "<speak>"
            ++ "<"%char :: name ++ lit "></" ++ name ++ lit "></speak>").
  set (body := "<"%char :: name ++ lit "></" ++ name ++ lit "></speak>").
  set (text := lit "<speak>" ++ body).
  assert (skipn 7 text
          = "<"%char :: name ++ ">"%char
              :: ("<"%char :: "/"%char :: [] ++ name ++ []
                    ++ ">"%char :: lit "</speak>"))
    as H7 by reflexivity.
  destruct (skipn_cons_nth _ _ _ _ H7) as [_ H8].
  pose proof (skipn_app_at text 8 name _ H8) as H9.
  pose proof (skipn_app_at text _ [">"%char] _ H9) as H10.
  simpl List.length in H10.
  assert (skipn (8 + List.length name + 1 + (2 + List.length name + 1)) text
          = "<"%char :: "/"%char :: [] ++ lit "speak" ++ []
              ++ ">"%char :: []) as H11.
  { replace (2 + List.length name + 1)
      with (List.length ("<"%char :: "/"%char :: name ++ [">"%char]))
      by (simpl; rewrite length_app; simpl; lia).
    apply skipn_app_at. rewrite H10. simpl. now rewrite <- app_assoc. }
  apply (parseSSML_speak_ok body 2 [SSMLTag name [] []]
           (8 + List.length name + 1 + (2 + List.length name + 1) + 8)).
  - fold text.
    destruct (valid_tag_name_first name Hname) as (c & name' & E & Hc).
    rewrite (parse_children_element_step text 2 "speak" [] 7 c
               (name' ++ lit "></" ++ name ++ lit "></speak>"))
      by (try assumption; rewrite H7, E; reflexivity).
    rewrite (parse_element_open text 0 7 name _ H7 Hname).
    replace (7 + 1 + List.length name + 1)
      with (8 + List.length name + 1) by lia.
    rewrite (parse_children_close text 0 name [] _ [] name [] _ H10 eq_refl
               Hname eq_refl).
    rewrite str_eqb_refl.
    replace (8 + List.length name + 1 + 2 + List.length (@nil ascii)
             + List.length name + List.length (@nil ascii) + 1)
      with (8 + List.length name + 1 + (2 + List.length name + 1))
      by (simpl; lia).
    rewrite (parse_children_close text 1 "speak" _ _ [] "speak" [] []
               H11 eq_refl)
      by first [reflexivity | split; [discriminate|reflexivity]].
    simpl. f_equal. f_equal. lia.
  - unfold text, body. rewrite length_app. simpl. rewrite !length_app.
    simpl. rewrite length_app. simpl. lia.
Qed.

Lemma parse_element_self_closing_form (text : str) (fuel pos : nat)
      (tag_name : str) (p1 : nat) (attributes : dict) (p2 : nat) :
  let ws p := advance_while text isspace (List.length text - p) p in
  nth_error text pos = Some "<"%char ->
  parse_tag_name text (ws (pos + 1)) = Ok (tag_name, p1) ->
  parse_attributes text fuel (ws p1) = Ok (attributes, p2) ->
  slice text (ws p2) (ws p2 + 2) = lit "/>" ->
  parse_element text (S fuel) pos
  = Ok (SSMLTag tag_name attributes [], ws p2 + 2).
Proof.
  intros ws Hc Hn Ha Hs. rewrite parse_element_S.
  rewrite Hc. simpl negb. cbv iota.
  fold (ws (pos + 1)). rewrite Hn. fold (ws p1). rewrite Ha.
  cbv zeta. fold (ws p2). rewrite Hs. reflexivity.
Qed.

Lemma serialize_empty_element (name : str) :
  ssmlNodeToText (SSMLTag "speak" [] [SSMLTag name [] []])
  = lit "<speak><" ++ name ++ lit "></" ++ name ++ lit "></speak>".
Proof.
  simpl. rewrite app_nil_r. repeat (rewrite <- app_assoc; simpl).
  reflexivity.
Qed.

(** C8 — the self-closing form and its serialization.  [parse_element]
    returns a tag with no children whenever the opening tag, whatever its
    name and attributes, ends in [/>]; for every lexeme that is a tag name
    the documents [<speak><name/></speak>] and
    [<speak><name></name></speak>] parse to the same tree.
    [ssmlNodeToText] writes every tag as an opening tag, its children and
    a closing tag, so a tag without children is written [<name></name>]
    and the tree of both documents is written in the explicit form. *)
Theorem self_closing_never_reconstructed :
  (forall text fuel pos tag_name p1 attributes p2,
      let ws p := advance_while text isspace (List.length text - p) p in
      nth_error text pos = Some "<"%char ->
      parse_tag_name text (ws (pos + 1)) = Ok (tag_name, p1) ->
      parse_attributes text fuel (ws p1) = Ok (attributes, p2) ->
      slice text (ws p2) (ws p2 + 2) = lit "/>" ->
      parse_element text (S fuel) pos
      = Ok (SSMLTag tag_name attributes [], ws p2 + 2))
  /\ (forall name,
         valid_tag_name name ->
         parseSSML (lit "<speak><" ++ name ++ lit "/></speak>")
         = Ok (SSMLTag "speak" [] [SSMLTag name [] []])
         /\ parseSSML
              (lit "<speak><" ++ name ++ lit "></" ++ name
                 ++ lit "></speak>")
            = Ok (SSMLTag "speak" [] [SSMLTag name [] []])
         /\ ssmlNodeToText (SSMLTag "speak" [] [SSMLTag name [] []])
            = lit "<speak><" ++ name ++ lit "></" ++ name
                ++ lit "></speak>")
  /\ (forall name attributes children,
         ssmlNodeToText (SSMLTag name attributes children)
         = lit "<" ++ name ++ attrs_to_text attributes ++ lit ">"
             ++ List.concat (map ssmlNodeToText children)
             ++ lit "</" ++ name ++ lit ">")
  /\ (forall name attributes,
         ssmlNodeToText (SSMLTag name attributes [])
         = lit "<" ++ name ++ attrs_to_text attributes ++ lit "></"
             ++ name ++ lit ">")
  /\ parseSSML "<speak>a<br/>b</speak>"
     = Ok (SSMLTag "speak" []
             [SSMLText "a"; SSMLTag "br" [] []; SSMLText "b"])
  /\ parseSSML "<speak>a<br></br>b</speak>"
     = parseSSML "<speak>a<br/>b</speak>"
  /\ parseSSML (sq "<speak><break time='1s' /></speak>")
     = Ok (SSMLTag "speak" [] [SSMLTag "break" [(lit "time", lit "1s")] []])
  /\ ssmlNodeToText
       (SSMLTag "speak" [] [SSMLTag "break" [(lit "time", lit "1s")] []])
     = sq "<speak><break time='1s'></break></speak>".
Proof.
  split; [exact parse_element_self_closing_form|].
  split.
  { intros name Hname. split; [now apply speak_self_closed|].
    split; [now apply speak_explicitly_closed|].
    apply serialize_empty_element. }
  split; [reflexivity|].
  split; [reflexivity|].
  repeat split; vm_compute; reflexivity.
Qed.

(* ------------------------------------------------------------------ *)
(** ** Termination *)

Section Iterations.

Variable text : str.

Local Abbreviation len := (List.length text).

Lemma parse_element_progress (fuel pos : nat) (node : SSMLNode)
      (pos' : nat) :
  parse_element text fuel pos = Ok (node, pos') -> pos < pos' <= len.
Proof.
  intros H.
  assert (pos < len) as Hlt.
  { destruct fuel as [|fuel]; [discriminate|].
    rewrite parse_element_S in H.
    destruct (negb _) eqn:E; [discriminate|].
    now apply negb_false_iff, is_char_Some in E. }
  destruct (parse_element_children_mono text fuel) as [Hm _].
  specialize (Hm (fuel + S len) pos).
  rewrite H in Hm. specialize (Hm ltac:(lia) ltac:(discriminate)).
  destruct (parse_element_children_post text (fuel + S len)) as [Hp _].
  specialize (Hp pos ltac:(lia) ltac:(lia)).
  rewrite Hm in Hp. simpl in Hp. lia.
Qed.

Lemma parse_children_progress (fuel : nat) (tag_name : str)
      (children : list SSMLNode) (pos : nat)
      (result : list SSMLNode) (pos' : nat) :
  parse_children text fuel tag_name children pos = Ok (result, pos') ->
  pos < pos' <= len.
Proof.
  intros H.
  assert (pos < len) as Hlt.
  { destruct fuel as [|fuel]; [discriminate|].
    rewrite parse_children_S in H.
    destruct (len <=? pos) eqn:E; [discriminate|].
    now apply Nat.leb_gt in E. }
  destruct (parse_element_children_mono text fuel) as [_ Hm].
  specialize (Hm (fuel + S (S len)) tag_name children pos).
  rewrite H in Hm. specialize (Hm ltac:(lia) ltac:(discriminate)).
  destruct (parse_element_children_post text (fuel + S (S len)))
    as [_ Hp].
  specialize (Hp tag_name children pos ltac:(lia) ltac:(lia)).
  rewrite Hm in Hp. simpl in Hp. lia.
Qed.

Lemma parse_attributes_progress (fuel pos : nat) (attributes : dict)
      (pos' : nat) :
  pos <= len ->
  parse_attributes text fuel pos = Ok (attributes, pos') ->
  pos <= pos' <= len.
Proof.
  intros Hpos H. unfold parse_attributes in H.
  pose proof (parse_attributes_loop_mono text fuel (fuel + S len) [] pos
                ltac:(lia)) as Hm.
  rewrite H in Hm. specialize (Hm ltac:(discriminate)).
  pose proof (parse_attributes_loop_post text (fuel + S len) [] pos Hpos
                ltac:(lia)) as Hp.
  rewrite Hm in Hp. exact Hp.
Qed.

(** One iteration of the loop of [parse_attributes] leaves the loop, by
    [break] or by an error, or goes on from a cursor strictly to the
    right. *)
Lemma parse_attributes_iteration (fuel : nat) (attrs : dict) (pos : nat) :
  pos <= len ->
  (exists pos',
      parse_attributes_loop text (S fuel) attrs pos = Ok (attrs, pos')
      /\ pos <= pos' <= len)
  \/ (exists e, parse_attributes_loop text (S fuel) attrs pos = Raise e)
  \/ (exists attr_name attr_value pos',
         pos < pos' <= len
         /\ parse_attributes_loop text (S fuel) attrs pos
            = parse_attributes_loop text fuel
                (dict_set attrs attr_name attr_value) pos').
Proof.
  intros Hpos. rewrite parse_attributes_loop_S. cbv zeta.
  pose proof (advance_while_ge text isspace (len - pos) pos).
  pose proof (advance_while_le text isspace (len - pos) pos Hpos).
  set (p0 := advance_while text isspace (len - pos) pos) in *.
  destruct (_ || _); [left; exists p0; split; [reflexivity|lia]|].
  pose proof (parse_attr_name_post text p0 ltac:(lia)) as Hn.
  destruct (parse_attr_name text p0) as [[attr_name p1]|e|];
    simpl in Hn; [|right; left; now exists e|contradiction].
  pose proof (advance_while_ge text isspace (len - p1) p1).
  pose proof (advance_while_le text isspace (len - p1) p1 ltac:(lia)).
  set (p2 := advance_while text isspace (len - p1) p1) in *.
  destruct (_ || _) eqn:E2; [right; left; now eexists|].
  apply orb_false_iff in E2. destruct E2 as [E2 _].
  apply Nat.leb_gt in E2.
  pose proof (advance_while_ge text isspace (len - (p2 + 1)) (p2 + 1)).
  pose proof (advance_while_le text isspace (len - (p2 + 1)) (p2 + 1)
                ltac:(lia)).
  set (p3 := advance_while text isspace (len - (p2 + 1)) (p2 + 1)) in *.
  pose proof (parse_attr_value_post text p3 ltac:(lia)) as Hv.
  destruct (parse_attr_value text p3) as [[attr_value p4]|e|];
    simpl in Hv; [|right; left; now exists e|contradiction].
  right. right. exists attr_name, attr_value, p4.
  split; [lia|reflexivity].
Qed.

(** One iteration of the loop of [parse_children] leaves the loop, at a
    closing tag or by an error, or goes on with one more child from a
    cursor strictly to the right. *)
Lemma parse_children_iteration (fuel : nat) (tag_name : str)
      (children : list SSMLNode) (pos : nat) :
  pos <= len -> len - pos < fuel ->
  (exists pos',
      parse_children text (S fuel) tag_name children pos
      = Ok (children, pos')
      /\ pos < pos' <= len)
  \/ (exists e,
         parse_children text (S fuel) tag_name children pos = Raise e)
  \/ (exists child pos',
         pos < pos' <= len
         /\ parse_children text (S fuel) tag_name children pos
            = parse_children text fuel tag_name (children ++ [child])
                pos').
Proof.
  intros Hpos Hfuel.
  destruct (parse_children text (S fuel) tag_name children pos)
    as [[result p]|e|] eqn:Hc; [|right; left; now exists e|].
  - pose proof (parse_children_progress _ _ _ _ _ _ Hc) as Hp.
    rewrite parse_children_S in Hc.
    destruct (len <=? pos) eqn:E0; [discriminate|].
    apply Nat.leb_gt in E0.
    destruct (str_eqb _ _).
    + left. exists p. split; [|assumption].
      destruct (parse_tag_name text _) as [[closing_tag p1]|e|];
        try discriminate.
      cbv zeta in Hc. destruct (_ || _); [discriminate|].
      destruct (negb _); [discriminate|]. congruence.
    + right. right. destruct (is_char _ _) eqn:E4.
      * destruct (parse_element text fuel pos) as [[child p1]|e|] eqn:He;
          try discriminate.
        exists child, p1. split; [|now symmetry].
        now apply parse_element_progress in He.
      * assert (nth_error text pos <> Some "<"%char) as Hne.
        { intros Hx. rewrite Hx in E4. discriminate. }
        pose proof (parse_text_post text pos E0 Hne) as Ht.
        destruct (parse_text text pos) as [[text_node p1]|e|];
          try discriminate.
        exists text_node, p1. split; [|now symmetry].
        simpl in Ht. lia.
  - exfalso.
    destruct (parse_element_children_post text (S fuel)) as [_ Hp].
    specialize (Hp tag_name children pos Hpos ltac:(lia)).
    now rewrite Hc in Hp.
Qed.

End Iterations.

(** C9, the claim fails: the attribute list is a production that can
    return without moving the cursor and without raising.  In
    [<speak></speak>] the tag name ends at offset 6, and the attribute
    list read from there is empty and leaves the cursor at 6. *)
Lemma attribute_list_without_progress :
  parse_tag_name (lit "<speak></speak>") 1 = Ok (lit "speak", 6)
  /\ skip_whitespace (lit "<speak></speak>") 6 = Ok (tt, 6)
  /\ parse_attributes (lit "<speak></speak>") 1 6 = Ok ([], 6)
  /\ parseSSML "<speak></speak>" = Ok (SSMLTag "speak" [] []).
Proof.
  repeat split; vm_compute; reflexivity.
Qed.

(** C9, amended — termination.  [parseSSML] returns a tree or raises on
    every input: the fuel of the model is never spent, and any larger
    amount gives the same result.  An element, the closing of a children
    list, a tag name, an attribute name, an attribute value and a text run
    each move the cursor strictly forward when they return, and never past
    the end of the text; white space and the attribute list, which may be
    empty, never move it backward; every iteration of the loops of
    [parse_attributes] and [parse_children] that does not leave the loop
    continues from a cursor strictly to the right. *)
Theorem parseSSML_terminates :
  (forall ssml, parseSSML ssml <> OutOfFuel)
  /\ (forall ssml fuel,
         fuel_for ssml <= fuel ->
         parse ssml fuel 0 = parse ssml (fuel_for ssml) 0)
  /\ (forall text fuel pos node pos',
         parse_element text fuel pos = Ok (node, pos') ->
         pos < pos' <= List.length text)
  /\ (forall text fuel tag_name children pos result pos',
         parse_children text fuel tag_name children pos
         = Ok (result, pos') ->
         pos < pos' <= List.length text)
  /\ (forall text pos,
         pos <= List.length text ->
         post text (S pos) (parse_tag_name text pos)
         /\ post text (S pos) (parse_attr_name text pos)
         /\ post text (pos + 2) (parse_attr_value text pos)
         /\ post text pos (skip_whitespace text pos))
  /\ (forall text pos,
         pos < List.length text -> nth_error text pos <> Some "<"%char ->
         post text (S pos) (parse_text text pos))
  /\ (forall text fuel pos attributes pos',
         pos <= List.length text ->
         parse_attributes text fuel pos = Ok (attributes, pos') ->
         pos <= pos' <= List.length text)
  /\ (forall text fuel attrs pos,
         pos <= List.length text ->
         (exists pos',
             parse_attributes_loop text (S fuel) attrs pos = Ok (attrs, pos')
             /\ pos <= pos' <= List.length text)
         \/ (exists e,
                parse_attributes_loop text (S fuel) attrs pos = Raise e)
         \/ (exists attr_name attr_value pos',
                pos < pos' <= List.length text
                /\ parse_attributes_loop text (S fuel) attrs pos
                   = parse_attributes_loop text fuel
                       (dict_set attrs attr_name attr_value) pos'))
  /\ (forall text fuel tag_name children pos,
         pos <= List.length text -> List.length text - pos < fuel ->
         (exists pos',
             parse_children text (S fuel) tag_name children pos
             = Ok (children, pos')
             /\ pos < pos' <= List.length text)
         \/ (exists e,
                parse_children text (S fuel) tag_name children pos = Raise e)
         \/ (exists child pos',
                pos < pos' <= List.length text
                /\ parse_children text (S fuel) tag_name children pos
                   = parse_children text fuel tag_name (children ++ [child])
                       pos')).
Proof.
  split.
  { intros ssml H. unfold parseSSML in H.
    pose proof (parse_post ssml (fuel_for ssml)) as Hp.
    destruct (parse ssml (fuel_for ssml) 0) as [[node p]|e|];
      try discriminate.
    apply Hp. unfold fuel_for. lia. }
  split; [exact parseSSML_fuel|].
  split; [exact parse_element_progress|].
  split; [exact parse_children_progress|].
  split.
  { intros text pos H.
    split; [now apply parse_tag_name_post|].
    split; [now apply parse_attr_name_post|].
    split; [now apply parse_attr_value_post|].
    now apply skip_whitespace_post. }
  split; [exact parse_text_post|].
  split; [exact parse_attributes_progress|].
  split; [exact parse_attributes_iteration|].
  exact parse_children_iteration.
Qed.

(* ------------------------------------------------------------------ *)
(** ** The root element *)

Lemma skipn_nth_cons (l : str) (pos : nat) (c : ascii) :
  nth_error l pos = Some c -> skipn pos l = c :: skipn (S pos) l.
Proof.
  revert l. induction pos as [|pos IH]; intros l H.
  - destruct l; [discriminate|]. simpl in H. now injection H as ->.
  - destruct l; [discriminate|]. simpl in H. exact (IH l H).
Qed.

Lemma slice_cons (text : str) (pos q : nat) (c : ascii) :
  nth_error text pos = Some c -> pos < q ->
  slice text pos q = c :: slice text (S pos) q.
Proof.
  intros Hc Hq. unfold slice.
  replace (q - pos) with (S (q - S pos)) by lia.
  now rewrite (skipn_nth_cons text pos c Hc).
Qed.

(** Every character passed by a scan satisfies the loop condition. *)
Lemma advance_while_all (text : str) (cond : ascii -> bool)
      (fuel pos : nat) :
  forallb cond (slice text pos (advance_while text cond fuel pos)) = true.
Proof.
  revert pos. induction fuel as [|fuel IH]; intros pos; simpl.
  - unfold slice. now rewrite Nat.sub_diag.
  - destruct (nth_error text pos) as [c|] eqn:Hc.
    + destruct (cond c) eqn:Ec.
      * pose proof (advance_while_ge text cond fuel (S pos)).
        rewrite (slice_cons text pos _ c Hc) by lia.
        simpl. now rewrite Ec, IH.
      * unfold slice. now rewrite Nat.sub_diag.
    + unfold slice. now rewrite Nat.sub_diag.
Qed.

Lemma parseSSML_Ok_inv (ssml : str) (node : SSMLNode) :
  parseSSML ssml = Ok node ->
  exists attributes children p0 p1,
    node = SSMLTag "speak" attributes children
    /\ skip_whitespace ssml 0 = Ok (tt, p0)
    /\ nth_error ssml p0 = Some "<"%char
    /\ parse_element ssml (fuel_for ssml) p0 = Ok (node, p1)
    /\ skip_whitespace ssml p1 = Ok (tt, List.length ssml)
    /\ p0 < p1 <= List.length ssml
    /\ forallb isspace (firstn p0 ssml) = true
    /\ forallb isspace (skipn p1 ssml) = true.
Proof.
  unfold parseSSML. rewrite parse_eq. cbv zeta. intros H.
  set (p0 := advance_while ssml isspace (List.length ssml - 0) 0) in *.
  destruct (_ || _) eqn:E0; [discriminate|].
  apply orb_false_iff in E0. destruct E0 as [_ E0].
  apply negb_false_iff, is_char_Some in E0. destruct E0 as [Hc _].
  destruct (parse_element ssml (fuel_for ssml) p0) as [[n p1]|e|] eqn:He;
    try discriminate.
  destruct (negb (_ =? _)) eqn:E1; [discriminate|].
  apply negb_false_iff, Nat.eqb_eq in E1.
  destruct (negb (is_speak n)) eqn:E2; [discriminate|].
  apply negb_false_iff in E2. injection H as ->.
  destruct node as [t|name attributes children]; [discriminate|].
  simpl in E2. apply str_eqb_eq in E2. subst name.
  exists attributes, children, p0, p1.
  split; [reflexivity|]. split; [reflexivity|]. split; [assumption|].
  split; [assumption|].
  split; [rewrite skip_whitespace_eq; now rewrite E1|].
  split; [now apply parse_element_progress in He|].
  split.
  - pose proof (advance_while_all ssml isspace (List.length ssml - 0) 0)
      as Ha.
    fold p0 in Ha. unfold slice in Ha.
    now rewrite Nat.sub_0_r in Ha.
  - pose proof (advance_while_all ssml isspace (List.length ssml - p1) p1)
      as Ha.
    rewrite E1 in Ha. unfold slice in Ha.
    rewrite firstn_all2 in Ha; [assumption|].
    now rewrite length_skipn.
Qed.

Lemma parseSSML_extra_content (ssml : str) (p0 : nat) (node : SSMLNode)
      (p1 p2 : nat) :
  skip_whitespace ssml 0 = Ok (tt, p0) ->
  parse_element ssml (fuel_for ssml) p0 = Ok (node, p1) ->
  skip_whitespace ssml p1 = Ok (tt, p2) ->
  p2 <> List.length ssml ->
  parseSSML ssml = Raise ExtraContent.
Proof.
  rewrite !skip_whitespace_eq. intros [= H0] He [= H1] Hne.
  unfold parseSSML. rewrite parse_eq. cbv zeta. rewrite H0.
  assert (p0 < List.length ssml /\ nth_error ssml p0 = Some "<"%char)
    as [Hlt Hc].
  { unfold fuel_for in He. rewrite parse_element_S in He.
    destruct (negb _) eqn:E; [discriminate|].
    apply negb_false_iff, is_char_Some in E. tauto. }
  apply Nat.leb_gt in Hlt. rewrite Hlt, Hc, He, H1. simpl.
  apply Nat.eqb_neq in Hne. now rewrite Hne.
Qed.

Lemma parseSSML_wrong_root (ssml : str) (p0 : nat) (name : str)
      (attributes : dict) (children : list SSMLNode) (p1 : nat) :
  skip_whitespace ssml 0 = Ok (tt, p0) ->
  parse_element ssml (fuel_for ssml) p0
  = Ok (SSMLTag name attributes children, p1) ->
  skip_whitespace ssml p1 = Ok (tt, List.length ssml) ->
  name <> lit "speak" ->
  parseSSML ssml = Raise RootMustBeSpeak.
Proof.
  rewrite !skip_whitespace_eq. intros [= H0] He [= H1] Hne.
  unfold parseSSML. rewrite parse_eq. cbv zeta. rewrite H0.
  assert (p0 < List.length ssml /\ nth_error ssml p0 = Some "<"%char)
    as [Hlt Hc].
  { unfold fuel_for in He. rewrite parse_element_S in He.
    destruct (negb _) eqn:E; [discriminate|].
    apply negb_false_iff, is_char_Some in E. tauto. }
  apply Nat.leb_gt in Hlt. rewrite Hlt, Hc, He, H1.
  change (false || negb (is_char (Some "<"%char) "<")) with false.
  cbv iota. rewrite Nat.eqb_refl. cbn [negb is_speak].
  apply str_eqb_neq in Hne. now rewrite Hne.
Qed.

(** C3 — the root element.  When [parseSSML] returns a tree, the input is
    white space, then one element read by [parse_element], then white
    space up to the end of the input, and the tree is a tag named exactly
    [speak].  When the element is followed by anything but white space
    the parse raises the error for extra content, and when the element is
    alone but has another name it raises the error for the root; so does
    [parseSSML("<foo></foo>")]. *)
Theorem parseSSML_root :
  (forall ssml node,
      parseSSML ssml = Ok node ->
      exists attributes children p0 p1,
        node = SSMLTag "speak" attributes children
        /\ skip_whitespace ssml 0 = Ok (tt, p0)
        /\ nth_error ssml p0 = Some "<"%char
        /\ parse_element ssml (fuel_for ssml) p0 = Ok (node, p1)
        /\ skip_whitespace ssml p1 = Ok (tt, List.length ssml)
        /\ p0 < p1 <= List.length ssml
        /\ forallb isspace (firstn p0 ssml) = true
        /\ forallb isspace (skipn p1 ssml) = true)
  /\ (forall ssml p0 node p1 p2,
         skip_whitespace ssml 0 = Ok (tt, p0) ->
         parse_element ssml (fuel_for ssml) p0 = Ok (node, p1) ->
         skip_whitespace ssml p1 = Ok (tt, p2) ->
         p2 <> List.length ssml ->
         parseSSML ssml = Raise ExtraContent)
  /\ (forall ssml p0 name attributes children p1,
         skip_whitespace ssml 0 = Ok (tt, p0) ->
         parse_element ssml (fuel_for ssml) p0
         = Ok (SSMLTag name attributes children, p1) ->
         skip_whitespace ssml p1 = Ok (tt, List.length ssml) ->
         name <> lit "speak" ->
         parseSSML ssml = Raise RootMustBeSpeak)
  /\ parseSSML "<foo></foo>" = Raise RootMustBeSpeak
  /\ message RootMustBeSpeak = "Root element must be <speak>"
  /\ parseSSML "<Speak></Speak>" = Raise RootMustBeSpeak
  /\ parseSSML "<speak></speak>x" = Raise ExtraContent
  /\ parseSSML "<speak></speak><speak></speak>" = Raise ExtraContent
  /\ parseSSML "<foo></foo>x" = Raise ExtraContent
  /\ parseSSML "x<speak></speak>" = Raise MustStartWithOpeningTag
  /\ parseSSML "  <speak></speak> " = Ok (SSMLTag "speak" [] []).
Proof.
  split; [exact parseSSML_Ok_inv|].
  split; [exact parseSSML_extra_content|].
  split; [exact parseSSML_wrong_root|].
  repeat split; vm_compute; reflexivity.
Qed.

(* ------------------------------------------------------------------ *)
(** ** Dictionaries *)

Lemma dict_get_set_same (d : dict) (key value : str) :
  dict_get (dict_set d key value) key = Some value.
Proof.
  induction d as [|[k v] d IH]; simpl.
  - now rewrite str_eqb_refl.
  - destruct (str_eqb k key) eqn:E; simpl; now rewrite E.
Qed.

Lemma dict_get_set_other (d : dict) (key value key' : str) :
  key' <> key ->
  dict_get (dict_set d key value) key' = dict_get d key'.
Proof.
  intros Hne. induction d as [|[k v] d IH]; simpl.
  - assert (str_eqb key key' = false) as -> by (apply str_eqb_neq; congruence).
    reflexivity.
  - destruct (str_eqb k key) eqn:E; simpl.
    + apply str_eqb_eq in E. subst k.
      assert (str_eqb key key' = false) as ->
          by (apply str_eqb_neq; congruence).
      reflexivity.
    + now rewrite IH.
Qed.

Lemma dict_set_keys_old (d : dict) (key value : str) :
  In key (dict_keys d) -> dict_keys (dict_set d key value) = dict_keys d.
Proof.
  induction d as [|[k v] d IH]; simpl; [tauto|].
  intros H. destruct (str_eqb k key) eqn:E; simpl; [reflexivity|].
  f_equal. apply IH. destruct H as [H|H]; [|assumption].
  apply str_eqb_neq in E. contradiction.
Qed.

Lemma dict_set_keys_new (d : dict) (key value : str) :
  ~ In key (dict_keys d) ->
  dict_keys (dict_set d key value) = dict_keys d ++ [key].
Proof.
  induction d as [|[k v] d IH]; simpl; [reflexivity|].
  intros H. destruct (str_eqb k key) eqn:E; simpl.
  - apply str_eqb_eq in E. tauto.
  - f_equal. apply IH. tauto.
Qed.

Lemma dict_set_NoDup (d : dict) (key value : str) :
  NoDup (dict_keys d) -> NoDup (dict_keys (dict_set d key value)).
Proof.
  intros H. destruct (in_dec (list_eq_dec ascii_dec) key (dict_keys d))
    as [Hin|Hnin].
  - now rewrite dict_set_keys_old.
  - rewrite dict_set_keys_new by assumption.
    apply NoDup_app; [assumption|repeat constructor; auto|].
    intros x Hx [<-|[]]. contradiction.
Qed.

Lemma dict_set_key_once (d : dict) (key value : str) :
  NoDup (dict_keys d) ->
  count_occ (list_eq_dec ascii_dec) (dict_keys (dict_set d key value)) key
  = 1.
Proof.
  intros H. apply NoDup_count_occ'.
  - now apply dict_set_NoDup.
  - destruct (in_dec (list_eq_dec ascii_dec) key (dict_keys d))
      as [Hin|Hnin].
    + now rewrite dict_set_keys_old.
    + rewrite dict_set_keys_new by assumption.
      apply in_or_app. right. now left.
Qed.

(* ------------------------------------------------------------------ *)
(** ** Invariants of parsed trees *)

Lemma slice_length (text : str) (pos q : nat) :
  q <= List.length text -> List.length (slice text pos q) = q - pos.
Proof.
  intros H. unfold slice. rewrite length_firstn, length_skipn. lia.
Qed.

Lemma replace_nonempty (old new s : str) :
  new <> [] -> s <> [] -> replace old new s <> [].
Proof.
  intros Hnew Hs. destruct s as [|c s]; [congruence|].
  unfold replace. cbn [List.length replace_fuel].
  destruct (starts_with old (c :: s)); [|discriminate].
  destruct new; [congruence|discriminate].
Qed.

Lemma unescape_nonempty (s : str) :
  s <> [] -> unescapeXMLChars s <> [].
Proof.
  intros H. unfold unescapeXMLChars.
  repeat apply replace_nonempty; (discriminate || assumption).
Qed.

(** A replacement does not bring in a character that neither the string
    nor the new text holds. *)
Lemma replace_keeps_absent (c : ascii) (old new s : str) :
  old <> [] -> ~ In c new -> ~ In c s -> ~ In c (replace old new s).
Proof.
  intros Hold Hnew.
  induction s as [s IH] using (induction_ltof1 _ (@List.length ascii)).
  unfold ltof in IH. intros Hs. destruct s as [|x s]; [exact Hs|].
  destruct (starts_with old (x :: s)) eqn:E.
  - apply starts_with_iff in E. destruct E as [r Hr]. rewrite Hr.
    rewrite replace_hit by assumption. intros Hin.
    apply in_app_or in Hin. destruct Hin as [Hin|Hin]; [contradiction|].
    revert Hin. apply IH.
    + rewrite Hr, length_app. destruct old; [congruence|simpl; lia].
    + intros Hin. apply Hs. rewrite Hr. apply in_or_app. now right.
  - rewrite replace_miss by assumption. intros [->|Hin].
    + apply Hs. now left.
    + revert Hin. apply IH; [simpl; lia|]. intros Hin. apply Hs. now right.
Qed.

Lemma unescape_keeps_absent (c : ascii) (s : str) :
  c <> "&"%char -> c <> "<"%char -> c <> ">"%char ->
  ~ In c s -> ~ In c (unescapeXMLChars s).
Proof.
  intros. unfold unescapeXMLChars.
  repeat apply replace_keeps_absent; try discriminate; try assumption;
    simpl; intuition congruence.
Qed.

Lemma forallb_not_char_inv (c : ascii) (s : str) :
  forallb (fun x => negb (char_eqb x c)) s = true -> ~ In c s.
Proof.
  intros H Hin. rewrite forallb_forall in H. specialize (H c Hin).
  rewrite char_eqb_refl in H. discriminate.
Qed.

Lemma parse_tag_name_valid (text : str) (pos : nat) (name : str)
      (pos' : nat) :
  parse_tag_name text pos = Ok (name, pos') -> valid_tag_name name.
Proof.
  rewrite parse_tag_name_eq. cbv zeta.
  destruct (pos =? _) eqn:E; [discriminate|]. intros [= <- <-].
  apply Nat.eqb_neq in E. split; [|apply advance_while_all].
  assert (pos <= List.length text) as Hpos.
  { destruct (Nat.le_gt_cases pos (List.length text)); [assumption|].
    exfalso. apply E.
    replace (List.length text - pos) with 0 by lia. reflexivity. }
  pose proof (advance_while_ge text is_tag_name_char
                (List.length text - pos) pos).
  pose proof (advance_while_le text is_tag_name_char
                (List.length text - pos) pos Hpos).
  intros Hs. apply (f_equal (@List.length _)) in Hs.
  rewrite slice_length in Hs by assumption. simpl in Hs. lia.
Qed.

Lemma parse_attr_name_valid (text : str) (pos : nat) (name : str)
      (pos' : nat) :
  parse_attr_name text pos = Ok (name, pos') -> valid_attr_name name.
Proof.
  rewrite parse_attr_name_eq. cbv zeta.
  destruct (pos =? _) eqn:E; [discriminate|]. intros [= <- <-].
  apply Nat.eqb_neq in E. split; [|apply advance_while_all].
  assert (pos <= List.length text) as Hpos.
  { destruct (Nat.le_gt_cases pos (List.length text)); [assumption|].
    exfalso. apply E.
    replace (List.length text - pos) with 0 by lia. reflexivity. }
  pose proof (advance_while_ge text is_attr_name_char
                (List.length text - pos) pos).
  pose proof (advance_while_le text is_attr_name_char
                (List.length text - pos) pos Hpos).
  intros Hs. apply (f_equal (@List.length _)) in Hs.
  rewrite slice_length in Hs by assumption. simpl in Hs. lia.
Qed.

Lemma parse_attr_value_no_quote (text : str) (pos : nat) (value : str)
      (pos' : nat) :
  parse_attr_value text pos = Ok (value, pos') -> ~ In dquote value.
Proof.
  rewrite parse_attr_value_eq. cbv zeta.
  destruct (_ <=? _); [discriminate|].
  destruct (negb _); [discriminate|].
  destruct (_ <=? _); [discriminate|]. intros [= <- _].
  apply unescape_keeps_absent; try discriminate.
  apply forallb_not_char_inv. apply advance_while_all.
Qed.

Lemma dict_set_Forall (Q : str * str -> Prop) (d : dict)
      (key value : str) :
  Forall Q d -> Q (key, value) -> Forall Q (dict_set d key value).
Proof.
  intros Hd Hq. induction d as [|[k v] d IH]; simpl.
  - now constructor.
  - inversion Hd as [|x l Hx Hl]; subst.
    destruct (str_eqb k key) eqn:E.
    + apply str_eqb_eq in E. subst k. now constructor.
    + constructor; [assumption|]. now apply IH.
Qed.

Lemma parse_attributes_loop_invariant (text : str) (fuel : nat) :
  forall attrs pos result pos',
    Forall (attr_ok (fun _ => True)) attrs ->
    NoDup (dict_keys attrs) ->
    parse_attributes_loop text fuel attrs pos = Ok (result, pos') ->
    Forall (attr_ok (fun _ => True)) result /\ NoDup (dict_keys result).
Proof.
  induction fuel as [|fuel IH]; intros attrs pos result pos' Ha Hd H;
    [discriminate|].
  rewrite parse_attributes_loop_S in H. cbv zeta in H.
  destruct (_ || _); [injection H as <- _; now split|].
  destruct (parse_attr_name text _) as [[attr_name p1]|e|] eqn:Hn;
    try discriminate.
  destruct (_ || _); [discriminate|].
  destruct (parse_attr_value text _) as [[attr_value p4]|e|] eqn:Hv;
    try discriminate.
  apply IH in H; [assumption| |now apply dict_set_NoDup].
  apply dict_set_Forall; [assumption|].
  split; [exact (parse_attr_name_valid _ _ _ _ Hn)|].
  split; [exact (parse_attr_value_no_quote _ _ _ _ Hv)|exact I].
Qed.

Lemma no_adjacent_text_app (children : list SSMLNode) (c d : SSMLNode) :
  no_adjacent_text children ->
  (is_text (last children d) = true -> is_text c = false) ->
  no_adjacent_text (children ++ [c]).
Proof.
  induction children as [|x l IH]; intros Hadj Hlast.
  - simpl. auto.
  - destruct Hadj as [Hx Hl]. destruct l as [|y l'].
    + simpl. split; [exact Hlast|]. auto.
    + split; [exact Hx|]. apply IH; [exact Hl|exact Hlast].
Qed.

(** A property of nodes that holds for every non-empty text and for every
    tag built from a valid name, valid attributes with different keys and
    children that have the property and no two texts in a row, holds for
    every tree that [parseSSML] returns. *)
Section TreeInvariant.

Variable P : SSMLNode -> Prop.

Hypothesis P_text : forall text, text <> [] -> P (SSMLText text).

Hypothesis P_tag :
  forall name attributes children,
    valid_tag_name name ->
    Forall (attr_ok (fun _ => True)) attributes ->
    NoDup (dict_keys attributes) ->
    Forall P children -> no_adjacent_text children ->
    P (SSMLTag name attributes children).

Variable text : str.

Lemma parse_element_children_invariant (fuel : nat) :
  (forall pos node pos',
      parse_element text fuel pos = Ok (node, pos') ->
      P node /\ is_text node = false)
  /\ (forall tag_name children pos result pos',
         Forall P children -> no_adjacent_text children ->
         (is_text (last children (SSMLTag [] [] [])) = true ->
          stops (fun c => negb (char_eqb c "<")) (skipn pos text)) ->
         parse_children text fuel tag_name children pos
         = Ok (result, pos') ->
         Forall P result /\ no_adjacent_text result).
Proof.
  induction fuel as [|fuel [IHe IHc]]; [split; intros; discriminate|].
  split.
  - intros pos node pos' H. rewrite parse_element_S in H.
    destruct (negb _); [discriminate|].
    destruct (parse_tag_name text _) as [[tag_name p1]|e|] eqn:Hn;
      try discriminate.
    apply parse_tag_name_valid in Hn.
    unfold parse_attributes in H.
    destruct (parse_attributes_loop text fuel [] _)
      as [[attributes p2]|e|] eqn:Ha; try discriminate.
    apply parse_attributes_loop_invariant in Ha;
      [|constructor|constructor].
    destruct Ha as [Ha Hd].
    cbv zeta in H. destruct (str_eqb _ _).
    + injection H as <- _. split; [|reflexivity].
      apply P_tag; auto. exact I.
    + destruct (is_char _ _); [|discriminate].
      destruct (parse_children text fuel tag_name [] _)
        as [[children p4]|e|] eqn:Hc; try discriminate.
      injection H as <- _. split; [|reflexivity].
      apply IHc in Hc; [|constructor|exact I|discriminate].
      destruct Hc as [Hc Hadj]. now apply P_tag.
  - intros tag_name children pos result pos' Hch Hadj Hlast H.
    rewrite parse_children_S in H.
    destruct (_ <=? _) eqn:E0; [discriminate|].
    apply Nat.leb_gt in E0.
    destruct (str_eqb _ _).
    + destruct (parse_tag_name text _) as [[closing_tag p1]|e|];
        try discriminate.
      cbv zeta in H. destruct (_ || _); [discriminate|].
      destruct (negb _); [discriminate|]. injection H as <- _.
      now split.
    + destruct (is_char _ _) eqn:E4.
      * destruct (parse_element text fuel pos) as [[child p1]|e|] eqn:He;
          try discriminate.
        apply IHe in He. destruct He as [Hp Htag].
        apply IHc in H; [assumption| | |].
        -- apply Forall_app. split; [assumption|]. now repeat constructor.
        -- apply no_adjacent_text_app with (d := SSMLTag [] [] []); auto.
        -- rewrite last_last, Htag. discriminate.
      * rewrite parse_text_eq in H. cbv zeta in H.
        assert (nth_error text pos <> Some "<"%char) as Hne.
        { intros Hx. rewrite Hx in E4. discriminate. }
        apply IHc in H; [assumption| | |].
        -- apply Forall_app. split; [assumption|].
           constructor; [|constructor]. apply P_text, unescape_nonempty.
           pose proof (parse_text_post text pos E0 Hne) as Ht.
           rewrite parse_text_eq in Ht. cbv zeta in Ht. simpl in Ht.
           intros Hs. apply (f_equal (@List.length _)) in Hs.
           rewrite slice_length in Hs by lia. simpl in Hs. lia.
        -- apply no_adjacent_text_app with (d := SSMLTag [] [] []); auto.
           intros Ht. exfalso. specialize (Hlast Ht).
           destruct (nth_error text pos) as [c|] eqn:Ec.
           ++ rewrite (skipn_nth_cons text pos c Ec) in Hlast.
              simpl in Hlast, E4. apply negb_false_iff in Hlast.
              congruence.
           ++ apply nth_error_None in Ec. lia.
        -- intros _. apply advance_while_stop. lia.
Qed.

Lemma parseSSML_invariant (node : SSMLNode) :
  parseSSML text = Ok node -> P node.
Proof.
  intros H. apply parseSSML_Ok_inv in H.
  destruct H as (attributes & children & p0 & p1 & _ & _ & _ & He & _).
  destruct (parse_element_children_invariant (fuel_for text)) as [Hi _].
  exact (proj1 (Hi _ _ _ He)).
Qed.

End TreeInvariant.

(* ------------------------------------------------------------------ *)
(** ** Empty text runs *)

(** C5, the claim fails: between the adjacent tags [</a>] and [<b>] the
    parser yields no text node at all; the children of [speak] are the two
    tags, next to each other. *)
Lemma adjacent_tags_no_text_between :
  parseSSML "<speak><a></a><b></b></speak>"
  = Ok (SSMLTag "speak" [] [SSMLTag "a" [] []; SSMLTag "b" [] []])
  /\ nth_error [SSMLTag "a" [] []; SSMLTag "b" [] []] 1
     <> Some (SSMLText "")
  /\ ~ In (SSMLText "") [SSMLTag "a" [] []; SSMLTag "b" [] []].
Proof.
  split; [vm_compute; reflexivity|].
  split; [discriminate|].
  intros [H|[H|[]]]; discriminate.
Qed.

(** C5, amended — the parser never yields an empty text node.
    [parse_children] reads a text run only when the cursor is inside the
    text and not at [<], so every text node of a tree returned by
    [parseSSML] holds at least one character; an empty run between
    adjacent tags adds no child. *)
Theorem parsed_text_nonempty (ssml : str) (node : SSMLNode) :
  parseSSML ssml = Ok node -> no_empty_text node = true.
Proof.
  apply parseSSML_invariant with (P := fun n => no_empty_text n = true).
  - intros text H. simpl. apply negb_true_iff, str_eqb_neq. exact H.
  - intros name attributes children _ _ _ H _. simpl.
    apply forallb_forall. now apply Forall_forall.
Qed.

Lemma parsed_text_nonempty_witness :
  parseSSML "<speak><a></a><b></b></speak>"
  = Ok (SSMLTag "speak" [] [SSMLTag "a" [] []; SSMLTag "b" [] []])
  /\ no_empty_text
       (SSMLTag "speak" [] [SSMLTag "a" [] []; SSMLTag "b" [] []])
     = true.
Proof.
  split; [vm_compute; reflexivity|].
  apply (parsed_text_nonempty "<speak><a></a><b></b></speak>").
  vm_compute. reflexivity.
Defined.

(* ------------------------------------------------------------------ *)
(** ** Errors *)

(** C4, the claim fails: the error for an input that does not begin with
    a tag carries a message and nothing else; no offset is formatted into
    it (the message holds no digit). *)
Lemma error_without_offset :
  exists e,
    parseSSML "not-a-tag" = Raise e
    /\ message e = "SSML must start with an opening tag"
    /\ error_offset e = None
    /\ existsb is_digit (message e) = false.
Proof.
  exists MustStartWithOpeningTag. repeat split; vm_compute; reflexivity.
Qed.

(* ------------------------------------------------------------------ *)
(** ** Attributes *)

Lemma attr_name_char_not_delim (c : ascii) :
  is_attr_name_char c = true -> char_in c ["/"; ">"]%char = false.
Proof.
  unfold is_attr_name_char, char_in. simpl. intros H.
  apply andb_true_iff in H. destruct H as [_ H].
  apply negb_true_iff in H.
  destruct (char_eqb c "="); [discriminate|].
  simpl in H. exact H.
Qed.

Lemma space_or_eq_not_attr_name_char (w rest : str) :
  forallb isspace w = true ->
  stops is_attr_name_char (w ++ "="%char :: rest).
Proof.
  intros Hw. destruct w as [|c w]; [reflexivity|].
  simpl in *. apply andb_true_iff in Hw. destruct Hw as [Hc _].
  unfold is_attr_name_char. now rewrite Hc.
Qed.

Section AttributeSteps.

Variable text : str.

(** The loop of [parse_attributes] at an attribute [name = "value"]:
    it performs [attrs[name] = value] with the decoded value and goes on
    after the closing quote. *)
Lemma parse_attributes_attr_step (fuel : nat) (attrs : dict) (pos : nat)
      (w0 name w1 w2 value rest : str) :
  skipn pos text
  = w0 ++ name ++ w1 ++ "="%char :: w2 ++ dquote :: value
      ++ dquote :: rest ->
  forallb isspace w0 = true -> valid_attr_name name ->
  forallb isspace w1 = true -> forallb isspace w2 = true ->
  ~ In dquote value ->
  parse_attributes_loop text (S fuel) attrs pos
  = parse_attributes_loop text fuel
      (dict_set attrs name (unescapeXMLChars value))
      (pos + List.length w0 + List.length name + List.length w1 + 1
       + List.length w2 + List.length value + 2).
Proof.
  intros H Hw0 Hname Hw1 Hw2 Hv.
  rewrite parse_attributes_loop_S. cbv zeta.
  rewrite (ws_at text pos w0 _ H Hw0)
    by (now apply valid_attr_name_stops_space).
  pose proof (skipn_app_at text pos w0 _ H) as H1.
  destruct Hname as [Hne Hn].
  assert (exists c name', name = c :: name') as (c & name' & E).
  { destruct name as [|c name']; [congruence|]. now exists c, name'. }
  assert (is_attr_name_char c = true) as Hc.
  { rewrite E in Hn. simpl in Hn. now apply andb_true_iff in Hn. }
  assert (skipn (pos + List.length w0) text
          = c :: name' ++ w1 ++ "="%char :: w2 ++ dquote :: value
              ++ dquote :: rest) as H1'
      by (now rewrite H1, E).
  pose proof (skipn_cons_lt _ _ _ _ H1') as Hlt.
  apply Nat.leb_gt in Hlt. rewrite Hlt.
  destruct (skipn_cons_nth _ _ _ _ H1') as [Hnth _]. rewrite Hnth.
  unfold is_char_in. rewrite (attr_name_char_not_delim c Hc).
  cbn [orb].
  rewrite (parse_attr_name_at text _ name _ H1 Hne Hn)
    by (now apply space_or_eq_not_attr_name_char).
  pose proof (skipn_app_at text _ name _ H1) as H2.
  rewrite (ws_at text _ w1 _ H2 Hw1) by reflexivity.
  pose proof (skipn_app_at text _ w1 _ H2) as H3.
  pose proof (skipn_cons_lt _ _ _ _ H3) as Hlt3.
  apply Nat.leb_gt in Hlt3. rewrite Hlt3.
  destruct (skipn_cons_nth _ _ _ _ H3) as [Hnth3 H4]. rewrite Hnth3.
  change (false || negb (is_char (Some "="%char) "=")) with false.
  cbv iota.
  match type of H4 with
  | skipn (S ?p) _ = _ => replace (S p) with (p + 1) in H4 by lia
  end.
  rewrite (ws_at text _ w2 _ H4 Hw2) by reflexivity.
  pose proof (skipn_app_at text _ w2 _ H4) as H5.
  rewrite (parse_attr_value_at text _ value rest H5 Hv).
  f_equal; lia.
Qed.

(** The loop leaves at [/] or [>], after optional white space. *)
Lemma parse_attributes_exit (fuel : nat) (attrs : dict) (pos : nat)
      (w0 : str) (c : ascii) (rest : str) :
  skipn pos text = w0 ++ c :: rest ->
  forallb isspace w0 = true -> char_in c ["/"; ">"]%char = true ->
  parse_attributes_loop text (S fuel) attrs pos
  = Ok (attrs, pos + List.length w0).
Proof.
  intros H Hw0 Hc. rewrite parse_attributes_loop_S. cbv zeta.
  assert (isspace c = false) as Hs.
  { unfold char_in in Hc. simpl in Hc.
    apply orb_true_iff in Hc. destruct Hc as [Hc|Hc].
    - apply char_eqb_eq in Hc. now subst c.
    - rewrite orb_false_r in Hc. apply char_eqb_eq in Hc. now subst c. }
  rewrite (ws_at text pos w0 _ H Hw0) by exact Hs.
  pose proof (skipn_app_at text pos w0 _ H) as H1.
  destruct (skipn_cons_nth _ _ _ _ H1) as [-> _].
  unfold is_char_in. rewrite Hc. now rewrite orb_true_r.
Qed.

End AttributeSteps.

Lemma skipn_after_attr (text : str) (pos : nat)
      (w0 name w1 w2 value rest : str) :
  skipn pos text
  = w0 ++ name ++ w1 ++ "="%char :: w2 ++ dquote :: value
      ++ dquote :: rest ->
  skipn (pos + List.length w0 + List.length name + List.length w1 + 1
         + List.length w2 + List.length value + 2) text
  = rest.
Proof.
  intros H.
  apply skipn_app_at in H. apply skipn_app_at in H.
  apply skipn_app_at in H.
  apply (skipn_app_at _ _ ["="%char]) in H.
  apply skipn_app_at in H.
  apply (skipn_app_at _ _ [dquote]) in H.
  apply skipn_app_at in H.
  apply (skipn_app_at _ _ [dquote]) in H.
  simpl List.length in H. rewrite <- H. f_equal. lia.
Qed.

Lemma speak_two_attributes (n1 v1 n2 v2 : str) :
  valid_attr_name n1 -> ~ In dquote v1 ->
  valid_attr_name n2 -> ~ In dquote v2 ->
  parseSSML
    (lit "<speak " ++ n1 ++ lit "=" ++ dquote :: v1 ++ dquote :: lit " "
       ++ n2 ++ lit "=" ++ dquote :: v2 ++ dquote :: lit "></speak>")
  = Ok (SSMLTag "speak"
          (dict_set (dict_set [] n1 (unescapeXMLChars v1))
             n2 (unescapeXMLChars v2))
          []).
Proof.
  intros Hn1 Hv1 Hn2 Hv2.
  set (text := lit "<speak " ++ n1 ++ lit "=" ++ dquote :: v1
                 ++ dquote :: lit " " ++ n2 ++ lit "=" ++ dquote :: v2
                 ++ dquote :: lit "></speak>").
  set (tail2 := ">"%char :: lit "</speak>").
  set (tail1 := " "%char :: n2 ++ "="%char :: [] ++ dquote :: v2
                  ++ dquote :: tail2).
  assert (skipn 0 text
          = "<"%char :: lit "speak" ++ [" "%char] ++ [] ++ n1 ++ []
              ++ "="%char :: [] ++ dquote :: v1 ++ dquote :: tail1)
    as H0 by reflexivity.
  destruct (skipn_cons_nth _ _ _ _ H0) as [Hc0 H1].
  change 1 with (0 + 1) in H1.
  pose proof (skipn_app_at text _ (lit "speak") _ H1) as H2.
  pose proof (skipn_app_at text _ [" "%char] _ H2) as H3.
  pose proof (skipn_after_attr text _ [] n1 [] [] v1 tail1 H3) as H4.
  assert (parse text 5 0
          = Ok (SSMLTag "speak"
                  (dict_set (dict_set [] n1 (unescapeXMLChars v1))
                     n2 (unescapeXMLChars v2)) [],
                List.length text)) as Hp.
  { rewrite parse_eq. cbv zeta.
    rewrite (ws_stay text 0 _ H0 eq_refl). rewrite Hc0.
    change (List.length text <=? 0) with false.
    change (false || negb (is_char (Some "<"%char) "<")) with false.
    cbv iota. rewrite parse_element_S. rewrite Hc0.
    change (negb (is_char (Some "<"%char) "<")) with false. cbv iota.
    rewrite (ws_stay text _ _ H1 eq_refl).
    rewrite (parse_tag_name_at text _ (lit "speak") _ H1)
      by first [discriminate | reflexivity].
    rewrite (ws_at text _ [" "%char] _ H2 eq_refl)
      by exact (valid_attr_name_stops_space n1 _ Hn1).
    unfold parse_attributes.
    rewrite (parse_attributes_attr_step text 3 [] _ [] n1 [] [] v1 tail1
               H3 eq_refl Hn1 eq_refl eq_refl Hv1).
    set (q1 := 0 + 1 + List.length (lit "speak") + List.length [" "%char]
               + List.length (@nil ascii) + List.length n1
               + List.length (@nil ascii) + 1 + List.length (@nil ascii)
               + List.length v1 + 2) in *.
    pose proof (skipn_after_attr text q1 [" "%char] n2 [] [] v2 tail2 H4)
      as H5.
    rewrite (parse_attributes_attr_step text 2 _ q1 [" "%char] n2 [] [] v2
               tail2 H4 eq_refl Hn2 eq_refl eq_refl Hv2).
    set (q2 := q1 + List.length [" "%char] + List.length n2
               + List.length (@nil ascii) + 1 + List.length (@nil ascii)
               + List.length v2 + 2) in *.
    rewrite (parse_attributes_exit text 1 _ q2 [] ">"%char (lit "</speak>")
               H5 eq_refl eq_refl).
    change (List.length (@nil ascii)) with 0. rewrite Nat.add_0_r.
    cbv zeta. rewrite (ws_stay text q2 _ H5 eq_refl).
    rewrite (slice_two_neq text q2 ">"%char _ (lit "/>") H5)
      by (simpl; congruence).
    destruct (skipn_cons_nth _ _ _ _ H5) as [Hc5 H6]. rewrite Hc5.
    change (is_char (Some ">"%char) ">") with true. cbv iota.
    replace (S q2) with (q2 + 1) in H6 by lia.
    rewrite (parse_children_close text 3 "speak" [] _ [] "speak" [] []
               H6 eq_refl)
      by first [reflexivity | split; [discriminate|reflexivity]].
    change (str_eqb (lit "speak") (lit "speak")) with true. cbv iota.
    assert (q2 + 1 + 2 + List.length (@nil ascii)
            + List.length (lit "speak") + List.length (@nil ascii) + 1
            = List.length text) as ->.
    { pose proof (skipn_length_at _ _ _ H5) as Hl.
      pose proof (skipn_cons_lt _ _ _ _ H5). simpl in Hl |- *. lia. }
    rewrite (ws_stay text (List.length text) [])
      by first [exact I | apply skipn_all].
    now rewrite Nat.eqb_refl. }
  now rewrite (parseSSML_of_parse text 5 _ Hp).
Qed.

Lemma parsed_unique_keys (ssml : str) (node : SSMLNode) :
  parseSSML ssml = Ok node -> unique_keys node.
Proof.
  apply parseSSML_invariant.
  - intros text _. constructor.
  - intros name attributes children _ _ Hd Hc _. now constructor.
Qed.

(** C10 — a repeated attribute name.  The loop of [parse_attributes]
    performs [attrs[name] = value] for every attribute in document order
    and never rejects a name it has seen.  An assignment binds the key to
    the new value, leaves the other keys alone, keeps the key list of a
    dictionary that already has the key, and leaves the key exactly once
    in it.  So a [speak] tag that lists the same name twice is accepted
    and its mapping holds that name once, bound to the second value; in
    every tree returned by [parseSSML] the keys of each tag are pairwise
    different. *)
Theorem duplicate_attribute_last_wins :
  (forall name v1 v2,
      valid_attr_name name -> ~ In dquote v1 -> ~ In dquote v2 ->
      parseSSML
        (lit "<speak " ++ name ++ lit "=" ++ dquote :: v1 ++ dquote :: lit " "
           ++ name ++ lit "=" ++ dquote :: v2 ++ dquote :: lit "></speak>")
      = Ok (SSMLTag "speak" [(name, unescapeXMLChars v2)] []))
  /\ (forall text fuel attrs pos w0 name w1 w2 value rest,
         skipn pos text
         = w0 ++ name ++ w1 ++ "="%char :: w2 ++ dquote :: value
             ++ dquote :: rest ->
         forallb isspace w0 = true -> valid_attr_name name ->
         forallb isspace w1 = true -> forallb isspace w2 = true ->
         ~ In dquote value ->
         parse_attributes_loop text (S fuel) attrs pos
         = parse_attributes_loop text fuel
             (dict_set attrs name (unescapeXMLChars value))
             (pos + List.length w0 + List.length name + List.length w1 + 1
              + List.length w2 + List.length value + 2))
  /\ (forall d key value, dict_get (dict_set d key value) key = Some value)
  /\ (forall d key value key',
         key' <> key ->
         dict_get (dict_set d key value) key' = dict_get d key')
  /\ (forall d key value,
         In key (dict_keys d) ->
         dict_keys (dict_set d key value) = dict_keys d)
  /\ (forall d key value,
         NoDup (dict_keys d) ->
         count_occ (list_eq_dec ascii_dec)
           (dict_keys (dict_set d key value)) key
         = 1)
  /\ (forall ssml node, parseSSML ssml = Ok node -> unique_keys node)
  /\ parseSSML (sq "<speak a='1' a='2'></speak>")
     = Ok (SSMLTag "speak" [(lit "a", lit "2")] [])
  /\ parseSSML (sq "<speak><p a='1' b='x' a='2'/></speak>")
     = Ok (SSMLTag "speak" []
             [SSMLTag "p" [(lit "a", lit "2"); (lit "b", lit "x")] []]).
Proof.
  split.
  { intros name v1 v2 Hn Hv1 Hv2.
    rewrite (speak_two_attributes name v1 name v2 Hn Hv1 Hn Hv2).
    simpl. now rewrite str_eqb_refl. }
  split; [exact parse_attributes_attr_step|].
  split; [exact dict_get_set_same|].
  split; [exact dict_get_set_other|].
  split; [exact dict_set_keys_old|].
  split; [exact dict_set_key_once|].
  split; [exact parsed_unique_keys|].
  split; vm_compute; reflexivity.
Qed.

(* ------------------------------------------------------------------ *)
(** ** Round trips *)

(** C2 — [escapeXMLChars] encodes [<] as [&amp;lt;], because its last
    pass encodes the ampersand written by its first pass, and
    [unescapeXMLChars] decodes that to [&lt;], not to [<]. *)
Theorem escape_unescape_lt :
  escapeXMLChars "<" = "&amp;lt;"
  /\ unescapeXMLChars (escapeXMLChars "<") = "&lt;"
  /\ unescapeXMLChars (escapeXMLChars "<") <> lit "<".
Proof.
  split; [vm_compute; reflexivity|].
  split; [vm_compute; reflexivity|].
  vm_compute. discriminate.
Qed.

Lemma replace_char_length (c : ascii) (new s : str) :
  1 <= List.length new ->
  List.length s <= List.length (replace [c] new s).
Proof.
  intros Hn. rewrite replace_char.
  induction s as [|x s IH]; simpl; [lia|].
  rewrite length_app. destruct (char_eqb x c); simpl; lia.
Qed.

Lemma replace_char_longer (c : ascii) (new s : str) :
  2 <= List.length new -> In c s ->
  List.length s < List.length (replace [c] new s).
Proof.
  intros Hn Hin. rewrite replace_char.
  induction s as [|x s IH]; simpl; [contradiction|].
  rewrite length_app. destruct (char_eqb x c) eqn:E.
  - pose proof (replace_char_length c new s ltac:(lia)) as Hl.
    rewrite replace_char in Hl. lia.
  - destruct Hin as [->|Hin].
    + rewrite char_eqb_refl in E. discriminate.
    + specialize (IH Hin). simpl. lia.
Qed.

(** The round trip through the codec holds exactly for the strings
    without [<] and [>]. *)
Lemma unescape_escape_iff (s : str) :
  unescapeXMLChars (escapeXMLChars s) = s
  <-> ~ In "<"%char s /\ ~ In ">"%char s.
Proof.
  split.
  - rewrite unescape_escape. intros H.
    apply (f_equal (@List.length _)) in H.
    change (lit "<") with ["<"%char] in H.
    change (lit ">") with [">"%char] in H.
    pose proof (replace_char_length "<"%char (lit "&lt;") s
                  ltac:(simpl; lia)) as H1.
    pose proof (replace_char_length ">"%char (lit "&gt;")
                  (replace ["<"%char] (lit "&lt;") s) ltac:(simpl; lia))
      as H2.
    split; intros Hin.
    + pose proof (replace_char_longer "<"%char (lit "&lt;") s
                    ltac:(simpl; lia) Hin). lia.
    + assert (In ">"%char (replace ["<"%char] (lit "&lt;") s)) as Hin'.
      { rewrite replace_char. apply in_flat_map. exists ">"%char.
        split; [assumption|]. now left. }
      pose proof (replace_char_longer ">"%char (lit "&gt;") _
                    ltac:(simpl; lia) Hin'). lia.
  - intros [Hlt Hgt]. now apply unescape_escape_plain.
Qed.

(** C1 — the text [<] is accepted in its encoded form, is serialized as
    [&amp;lt;], and is read back as the four characters [&lt;]: the
    reparsed tree differs from the parsed one. *)
Theorem round_trip_loses_lt :
  parseSSML "<speak>&lt;</speak>"
  = Ok (SSMLTag "speak" [] [SSMLText "<"])
  /\ ssmlNodeToText (SSMLTag "speak" [] [SSMLText "<"])
     = "<speak>&amp;lt;</speak>"
  /\ parseSSML (ssmlNodeToText (SSMLTag "speak" [] [SSMLText "<"]))
     = Ok (SSMLTag "speak" [] [SSMLText "&lt;"])
  /\ parseSSML (ssmlNodeToText (SSMLTag "speak" [] [SSMLText "<"]))
     <> parseSSML "<speak>&lt;</speak>".
Proof.
  split; [vm_compute; reflexivity|].
  split; [vm_compute; reflexivity|].
  split; [vm_compute; reflexivity|].
  vm_compute. discriminate.
Qed.

(* ------------------------------------------------------------------ *)
(** ** Serializing and reparsing *)

Lemma node_size_pos (node : SSMLNode) : 1 <= node_size node.
Proof. destruct node; simpl; lia. Qed.

Lemma attrs_to_text_fold (attributes : dict) (acc : str) :
  fold_left
    (fun attrs kv =>
       attrs ++ lit " " ++ fst kv ++ lit "=" ++ dquote
         :: escapeXMLChars (snd kv) ++ [dquote])
    attributes acc
  = acc ++ List.concat (map attr_text attributes).
Proof.
  revert acc. induction attributes as [|kv l IH]; intros acc; simpl.
  - now rewrite app_nil_r.
  - rewrite IH. unfold attr_text. now rewrite <- app_assoc.
Qed.

Lemma attrs_to_text_cons (kv : str * str) (attributes : dict) :
  attrs_to_text (kv :: attributes)
  = attr_text kv ++ attrs_to_text attributes.
Proof.
  unfold attrs_to_text. rewrite !attrs_to_text_fold. reflexivity.
Qed.

Lemma ssmlNodeToText_tag (name : str) (attributes : dict)
      (children : list SSMLNode) :
  ssmlNodeToText (SSMLTag name attributes children)
  = "<"%char :: name ++ attrs_to_text attributes
      ++ ">"%char :: children_text children
      ++ "<"%char :: "/"%char :: name ++ [">"%char].
Proof. reflexivity. Qed.

Lemma dict_set_new (d : dict) (key value : str) :
  ~ In key (dict_keys d) -> dict_set d key value = d ++ [(key, value)].
Proof.
  induction d as [|[k v] d IH]; simpl; [reflexivity|].
  intros H. destruct (str_eqb k key) eqn:E.
  - apply str_eqb_eq in E. tauto.
  - f_equal. apply IH. tauto.
Qed.

Lemma dict_rebuild (attributes acc : dict) :
  NoDup (dict_keys (acc ++ attributes)) ->
  fold_left (fun d kv => dict_set d (fst kv) (snd kv)) attributes acc
  = acc ++ attributes.
Proof.
  revert acc. induction attributes as [|[k v] l IH]; intros acc H; simpl.
  - now rewrite app_nil_r.
  - rewrite dict_set_new.
    + rewrite IH; rewrite <- app_assoc; [reflexivity|exact H].
    + unfold dict_keys in H. rewrite map_app in H. simpl in H.
      apply NoDup_remove_2 in H. intros Hin. apply H.
      apply in_or_app. now left.
Qed.

Lemma escape_keeps_absent (c : ascii) (s : str) :
  c <> "&"%char -> c <> "l"%char -> c <> "g"%char -> c <> "t"%char ->
  c <> ";"%char -> c <> "a"%char -> c <> "m"%char -> c <> "p"%char ->
  ~ In c s -> ~ In c (escapeXMLChars s).
Proof.
  intros. unfold escapeXMLChars.
  repeat apply replace_keeps_absent; try discriminate; try assumption;
    simpl; intuition congruence.
Qed.

Lemma escape_plain (s : str) :
  plain s -> escapeXMLChars s = escape_amp s.
Proof.
  intros [Hlt Hgt]. unfold escapeXMLChars, escape_amp.
  change (lit "<") with ["<"%char]. change (lit ">") with [">"%char].
  rewrite (replace_char_absent "<"%char) by assumption.
  now rewrite (replace_char_absent ">"%char) by assumption.
Qed.

Lemma escape_plain_no_lt (s : str) :
  plain s -> ~ In "<"%char (escapeXMLChars s).
Proof.
  intros Hs. rewrite (escape_plain s Hs). unfold escape_amp.
  apply replace_keeps_absent; [discriminate| |apply Hs].
  simpl. intuition discriminate.
Qed.

Lemma escape_nonempty (s : str) : s <> [] -> escapeXMLChars s <> [].
Proof.
  intros H. unfold escapeXMLChars.
  repeat apply replace_nonempty; (discriminate || assumption).
Qed.

Lemma ws_idem (text : str) (pos : nat) :
  let q := advance_while text isspace (List.length text - pos) pos in
  advance_while text isspace (List.length text - q) q = q.
Proof.
  intros q. apply ws_stay with (rest := skipn q text); [reflexivity|].
  apply advance_while_stop. lia.
Qed.

Lemma parse_attributes_loop_ws (text : str) (fuel : nat) (attrs : dict)
      (pos : nat) :
  parse_attributes_loop text fuel attrs
    (advance_while text isspace (List.length text - pos) pos)
  = parse_attributes_loop text fuel attrs pos.
Proof.
  destruct fuel as [|fuel]; [reflexivity|].
  rewrite !parse_attributes_loop_S. cbv zeta. now rewrite ws_idem.
Qed.

Lemma attr_text_app (kv : str * str) (rest : str) :
  attr_text kv ++ rest
  = [" "%char] ++ fst kv ++ [] ++ "="%char :: [] ++ dquote
      :: escapeXMLChars (snd kv) ++ dquote :: rest.
Proof.
  unfold attr_text. simpl. rewrite <- app_assoc. simpl.
  now rewrite <- app_assoc.
Qed.

Lemma attr_text_length (kv : str * str) :
  List.length (attr_text kv)
  = 1 + List.length (fst kv) + 2
    + List.length (escapeXMLChars (snd kv)) + 1.
Proof.
  unfold attr_text. simpl. rewrite length_app. simpl.
  rewrite length_app. simpl. lia.
Qed.

Lemma dquote_not_entity_char :
  dquote <> "&"%char /\ dquote <> "l"%char /\ dquote <> "g"%char
  /\ dquote <> "t"%char /\ dquote <> ";"%char /\ dquote <> "a"%char
  /\ dquote <> "m"%char /\ dquote <> "p"%char.
Proof. repeat split; discriminate. Qed.

Lemma escape_no_quote (s : str) :
  ~ In dquote s -> ~ In dquote (escapeXMLChars s).
Proof.
  destruct dquote_not_entity_char as (H1 & H2 & H3 & H4 & H5 & H6 & H7 & H8).
  now apply escape_keeps_absent.
Qed.

Section Printed.

Variable text : str.

(** The attribute list written by [ssmlNodeToText] is read back as the
    same sequence of assignments. *)
Lemma parse_attributes_printed (attributes : dict) :
  forall acc pos fuel rest,
    Forall (attr_ok plain) attributes ->
    List.length attributes < fuel ->
    skipn pos text = attrs_to_text attributes ++ ">"%char :: rest ->
    parse_attributes_loop text fuel acc pos
    = Ok (fold_left (fun d kv => dict_set d (fst kv) (snd kv))
            attributes acc,
          pos + List.length (attrs_to_text attributes)).
Proof.
  induction attributes as [|kv l IH]; intros acc pos fuel rest Hok Hf H.
  - destruct fuel as [|fuel]; [simpl in Hf; lia|].
    rewrite (parse_attributes_exit text fuel acc pos [] ">"%char rest H)
      by reflexivity.
    reflexivity.
  - destruct fuel as [|fuel]; [simpl in Hf; lia|].
    inversion Hok as [|kv' l' [Hk [Hq Hp]] Hl]; subst.
    rewrite attrs_to_text_cons, <- app_assoc, attr_text_app in H.
    rewrite (parse_attributes_attr_step text fuel acc pos [" "%char]
               (fst kv) [] [] (escapeXMLChars (snd kv)) _ H eq_refl Hk
               eq_refl eq_refl (escape_no_quote _ Hq)).
    pose proof (skipn_after_attr text pos [" "%char] (fst kv) [] []
                  (escapeXMLChars (snd kv)) _ H) as H'.
    destruct Hp as [Hlt Hgt].
    rewrite (unescape_escape_plain (snd kv) Hlt Hgt).
    rewrite (IH _ _ fuel rest Hl ltac:(simpl in Hf; lia) H').
    simpl fold_left. f_equal. f_equal.
    rewrite attrs_to_text_cons, length_app, attr_text_length.
    simpl. lia.
Qed.

End Printed.

Lemma tag_text_app (name : str) (attributes : dict)
      (children : list SSMLNode) (rest : str) :
  ssmlNodeToText (SSMLTag name attributes children) ++ rest
  = "<"%char :: name ++ attrs_to_text attributes
      ++ ">"%char :: children_text children
      ++ "<"%char :: "/"%char :: name ++ ">"%char :: rest.
Proof.
  rewrite ssmlNodeToText_tag. simpl.
  repeat (rewrite <- app_assoc; simpl). reflexivity.
Qed.

Lemma tag_text_length (name : str) (attributes : dict)
      (children : list SSMLNode) :
  List.length (ssmlNodeToText (SSMLTag name attributes children))
  = 1 + List.length name + List.length (attrs_to_text attributes) + 1
    + List.length (children_text children) + 2 + List.length name + 1.
Proof.
  rewrite ssmlNodeToText_tag. simpl.
  repeat (rewrite length_app; simpl). lia.
Qed.

Lemma attrs_text_stops (attributes : dict) (rest : str) :
  stops is_tag_name_char (attrs_to_text attributes ++ ">"%char :: rest).
Proof.
  destruct attributes as [|kv l]; [reflexivity|].
  rewrite attrs_to_text_cons, <- app_assoc, attr_text_app. reflexivity.
Qed.

Lemma children_text_cons (c : SSMLNode) (children : list SSMLNode) :
  children_text (c :: children) = ssmlNodeToText c ++ children_text children.
Proof. reflexivity. Qed.

Lemma children_size_cons (c : SSMLNode) (children : list SSMLNode) :
  children_size (c :: children) = node_size c + children_size children.
Proof. reflexivity. Qed.

Lemma children_size_pos (children : list SSMLNode) :
  1 <= children_size children.
Proof.
  induction children as [|c l IH]; [simpl; lia|].
  rewrite children_size_cons. lia.
Qed.

Lemma node_size_tag (name : str) (attributes : dict)
      (children : list SSMLNode) :
  node_size (SSMLTag name attributes children)
  = S (S (List.length attributes) + children_size children).
Proof. reflexivity. Qed.

(** After a text child comes a tag or the closing tag: a [<]. *)
Lemma after_text_stops (children : list SSMLNode) (rest : str) :
  match children with
  | c :: _ => is_text c = false
  | [] => True
  end ->
  stops (fun c => negb (char_eqb c "<"))
    (children_text children ++ "<"%char :: rest).
Proof.
  destruct children as [|c l]; [reflexivity|].
  destruct c as [v|name attributes cs]; [discriminate|].
  intros _. rewrite children_text_cons, <- app_assoc, tag_text_app.
  reflexivity.
Qed.

(** Parsing what [ssmlNodeToText] wrote for a well-formed tree whose texts
    and attribute values are plain gives the tree back. *)
Lemma printed_parse (fuel : nat) :
  (forall text pos name attributes children rest,
      well_formed plain (SSMLTag name attributes children) ->
      node_size (SSMLTag name attributes children) <= fuel ->
      skipn pos text
      = ssmlNodeToText (SSMLTag name attributes children) ++ rest ->
      parse_element text fuel pos
      = Ok (SSMLTag name attributes children,
            pos + List.length
                    (ssmlNodeToText (SSMLTag name attributes children))))
  /\ (forall text pos name acc children rest,
         valid_tag_name name ->
         Forall (well_formed plain) children ->
         no_adjacent_text children ->
         children_size children <= fuel ->
         skipn pos text
         = children_text children
             ++ "<"%char :: "/"%char :: name ++ ">"%char :: rest ->
         parse_children text fuel name acc pos
         = Ok (acc ++ children,
               pos + List.length (children_text children) + 2
               + List.length name + 1)).
Proof.
  induction fuel as [|fuel [IHe IHc]].
  { split.
    - intros text pos name attributes children rest _ H. simpl in H. lia.
    - intros text pos name acc children rest _ _ _ H.
      pose proof (children_size_pos children). lia. }
  split.
  - intros text pos name attributes children rest Hwf Hsize H.
    inversion Hwf as [|n a cs Hname Hattrs Hnodup Hch Hadj]; subst.
    rewrite node_size_tag in Hsize.
    rewrite tag_text_app in H.
    rewrite parse_element_S.
    destruct (skipn_cons_nth _ _ _ _ H) as [Hc H1]. rewrite Hc.
    change (negb (is_char (Some "<"%char) "<")) with false. cbv iota.
    replace (S pos) with (pos + 1) in H1 by lia.
    rewrite (ws_stay text (pos + 1) _ H1)
      by exact (valid_tag_name_stops_space name _ Hname).
    destruct Hname as [Hne Hn].
    rewrite (parse_tag_name_at text _ name _ H1 Hne Hn)
      by apply attrs_text_stops.
    pose proof (skipn_app_at text _ name _ H1) as H2.
    unfold parse_attributes. rewrite parse_attributes_loop_ws.
    rewrite (parse_attributes_printed text attributes [] _ fuel _ Hattrs
               ltac:(lia) H2).
    rewrite (dict_rebuild attributes []) by exact Hnodup.
    cbn [app].
    pose proof (skipn_app_at text _ (attrs_to_text attributes) _ H2) as H3.
    cbv zeta. rewrite (ws_stay text _ _ H3) by reflexivity.
    rewrite (slice_two_neq text _ ">"%char _ (lit "/>") H3)
      by (simpl; congruence).
    destruct (skipn_cons_nth _ _ _ _ H3) as [Hc3 H4]. rewrite Hc3.
    change (is_char (Some ">"%char) ">") with true. cbv iota.
    match type of H4 with
    | skipn (S ?p) _ = _ => replace (S p) with (p + 1) in H4 by lia
    end.
    rewrite (IHc text _ name [] children rest (conj Hne Hn) Hch Hadj
               ltac:(lia) H4).
    cbn [app]. f_equal. f_equal. rewrite tag_text_length. lia.
  - intros text pos name acc children rest Hname Hch Hadj Hsize H.
    destruct children as [|c cs].
    + change (children_text []) with (@nil ascii) in *. cbn [app] in H.
      rewrite (parse_children_close text fuel name acc pos [] name [] rest
                 H eq_refl Hname eq_refl).
      rewrite str_eqb_refl, app_nil_r. f_equal. f_equal. simpl. lia.
    + rewrite children_size_cons in Hsize.
      pose proof (children_size_pos cs) as Hcs.
      pose proof (node_size_pos c) as Hcp.
      inversion Hch as [|c' cs' Hc Hcs']; subst.
      destruct Hadj as [Hnext Hadj].
      rewrite children_text_cons, <- app_assoc in H.
      destruct c as [v|n a cs0].
      * inversion Hc as [v' Hv Hplain|]; subst.
        cbn [ssmlNodeToText] in H.
        rewrite (parse_children_text_step text fuel name acc pos
                   (escapeXMLChars v) _ H (escape_nonempty v Hv)
                   (escape_plain_no_lt v Hplain))
          by (apply after_text_stops; now apply Hnext).
        destruct Hplain as [Hlt Hgt].
        rewrite (unescape_escape_plain v Hlt Hgt).
        pose proof (skipn_app_at text pos _ _ H) as H'.
        rewrite (IHc text _ name (acc ++ [SSMLText v]) cs rest Hname Hcs'
                   Hadj ltac:(lia) H').
        rewrite <- app_assoc. cbn [app]. f_equal. f_equal.
        rewrite children_text_cons, length_app. cbn [ssmlNodeToText]. lia.
      * inversion Hc as [|n' a' cs0' Hn Ha Hnd Hc0 Hadj0]; subst.
        destruct (valid_tag_name_first n Hn) as (x & n' & E & Hx).
        assert (exists r, skipn pos text = "<"%char :: x :: r) as [r Hr].
        { rewrite H, tag_text_app, E. eexists. reflexivity. }
        rewrite (parse_children_element_step text fuel name acc pos x r
                   Hr Hx).
        rewrite (IHe text pos n a cs0 _ Hc ltac:(lia) H).
        pose proof (skipn_app_at text pos _ _ H) as H'.
        rewrite (IHc text _ name (acc ++ [SSMLTag n a cs0]) cs rest Hname
                   Hcs' Hadj ltac:(lia) H').
        rewrite <- app_assoc. cbn [app]. f_equal. f_equal.
        rewrite children_text_cons, length_app. lia.
Qed.

(** Serializing and reparsing a well-formed [speak] tree whose texts and
    attribute values hold neither [<] nor [>] gives the tree back. *)
Lemma print_parse_round_trip (node : SSMLNode) :
  well_formed plain node -> is_speak node = true ->
  parseSSML (ssmlNodeToText node) = Ok node.
Proof.
  intros Hwf Hspeak.
  destruct node as [v|name attributes children]; [discriminate|].
  set (text := ssmlNodeToText (SSMLTag name attributes children)).
  assert (skipn 0 text = text ++ []) as H0 by (now rewrite app_nil_r).
  destruct (printed_parse (node_size (SSMLTag name attributes children)))
    as [He _].
  specialize (He text 0 name attributes children [] Hwf (le_n _) H0).
  fold text in He. cbn [Nat.add] in He.
  assert (parse text (node_size (SSMLTag name attributes children)) 0
          = Ok (SSMLTag name attributes children, List.length text)) as Hp.
  { rewrite parse_eq. cbv zeta.
    unfold text in H0 at 2. rewrite tag_text_app in H0.
    rewrite (ws_stay text 0 _ H0 eq_refl).
    destruct (skipn_cons_nth _ _ _ _ H0) as [Hc _]. rewrite Hc.
    pose proof (skipn_cons_lt _ _ _ _ H0) as Hlt.
    apply Nat.leb_gt in Hlt. rewrite Hlt.
    change (false || negb (is_char (Some "<"%char) "<")) with false.
    cbv iota. rewrite He.
    rewrite (ws_stay text (List.length text) [])
      by first [exact I | apply skipn_all].
    rewrite Nat.eqb_refl. cbn [negb]. now rewrite Hspeak. }
  now rewrite (parseSSML_of_parse text _ _ Hp).
Qed.

(** A tree returned by [parseSSML] whose texts and attribute values are
    plain is well formed. *)
Lemma parsed_well_formed (ssml : str) (node : SSMLNode) :
  parseSSML ssml = Ok node -> plain_tree node -> well_formed plain node.
Proof.
  refine (parseSSML_invariant
            (fun n => plain_tree n -> well_formed plain n) _ _ ssml node).
  - intros text Hne Hp. inversion Hp; subst. now constructor.
  - intros name attributes children Hname Hattrs Hd Hch Hadj Hp.
    inversion Hp as [|n a cs Hpa Hpc]; subst.
    constructor; try assumption.
    + rewrite Forall_forall in *. intros kv Hin.
      destruct (Hattrs kv Hin) as (Hk & Hq & _).
      split; [assumption|]. split; [assumption|]. now apply Hpa.
    + rewrite Forall_forall in *. intros c Hin. apply Hch; auto.
Qed.

(** X1 — the tree-level round trip, for the inputs that the defect of
    [escapeXMLChars] does not touch: when [parseSSML] accepts an input
    and no text or attribute value of the tree holds [<] or [>],
    serializing the tree and reparsing the result gives the same tree. *)
Theorem round_trip_plain (ssml : str) (node : SSMLNode) :
  parseSSML ssml = Ok node -> plain_tree node ->
  parseSSML (ssmlNodeToText node) = Ok node.
Proof.
  intros H Hp. apply print_parse_round_trip.
  - exact (parsed_well_formed ssml node H Hp).
  - apply parseSSML_Ok_inv in H.
    destruct H as (attributes & children & p0 & p1 & -> & _).
    reflexivity.
Qed.

Lemma round_trip_plain_witness :
  parseSSML
    (sq "<speak><voice name='Jo'>Hi &amp; bye</voice> a<br/>b</speak>")
  = Ok (SSMLTag "speak" []
          [SSMLTag "voice" [(lit "name", lit "Jo")]
             [SSMLText "Hi & bye"];
           SSMLText " a"; SSMLTag "br" [] []; SSMLText "b"])
  /\ parseSSML
       (ssmlNodeToText
          (SSMLTag "speak" []
             [SSMLTag "voice" [(lit "name", lit "Jo")]
                [SSMLText "Hi & bye"];
              SSMLText " a"; SSMLTag "br" [] []; SSMLText "b"]))
     = Ok (SSMLTag "speak" []
             [SSMLTag "voice" [(lit "name", lit "Jo")]
                [SSMLText "Hi & bye"];
              SSMLText " a"; SSMLTag "br" [] []; SSMLText "b"]).
Proof.
  split; [vm_compute; reflexivity|].
  apply (round_trip_plain
           (sq "<speak><voice name='Jo'>Hi &amp; bye</voice> a<br/>b</speak>")).
  - vm_compute. reflexivity.
  - repeat constructor; simpl; intuition discriminate.
Defined.

(* ------------------------------------------------------------------ *)
(** * Further properties of the code *)

(** ** The entity codec *)

Lemma replace_char_removes (c : ascii) (new s : str) :
  ~ In c new -> ~ In c (replace [c] new s).
Proof.
  intros Hnew. rewrite replace_char. intros Hin.
  apply in_flat_map in Hin. destruct Hin as (x & _ & Hx).
  destruct (char_eqb x c) eqn:E; [contradiction|].
  destruct Hx as [<-|[]]. rewrite char_eqb_refl in E. discriminate.
Qed.

Lemma replace_char_app (c : ascii) (new a b : str) :
  replace [c] new (a ++ b) = replace [c] new a ++ replace [c] new b.
Proof. rewrite !replace_char. apply flat_map_app. Qed.

Lemma escape_app (a b : str) :
  escapeXMLChars (a ++ b) = escapeXMLChars a ++ escapeXMLChars b.
Proof.
  unfold escapeXMLChars.
  change (lit "<") with ["<"%char]. change (lit ">") with [">"%char].
  change (lit "&") with ["&"%char].
  now rewrite !replace_char_app.
Qed.

Lemma escape_no_lt (s : str) : ~ In "<"%char (escapeXMLChars s).
Proof.
  unfold escapeXMLChars.
  apply replace_keeps_absent; [discriminate|simpl; intuition discriminate|].
  apply replace_keeps_absent; [discriminate|simpl; intuition discriminate|].
  change (lit "<") with ["<"%char].
  apply replace_char_removes. simpl. intuition discriminate.
Qed.

Lemma escape_no_gt (s : str) : ~ In ">"%char (escapeXMLChars s).
Proof.
  unfold escapeXMLChars.
  apply replace_keeps_absent; [discriminate|simpl; intuition discriminate|].
  change (lit ">") with [">"%char].
  apply replace_char_removes. simpl. intuition discriminate.
Qed.

(** X2 — what a round trip through the codec gives.  For every string,
    decoding its encoding gives the string with [<] written [&lt;] and [>]
    written [&gt;]; so [unescapeXMLChars (escapeXMLChars s)] is [s]
    exactly when [s] holds neither [<] nor [>]. *)
Theorem codec_round_trip_exact (s : str) :
  unescapeXMLChars (escapeXMLChars s)
  = replace ">" "&gt;" (replace "<" "&lt;" s)
  /\ (unescapeXMLChars (escapeXMLChars s) = s
      <-> ~ In "<"%char s /\ ~ In ">"%char s).
Proof.
  split; [apply unescape_escape|apply unescape_escape_iff].
Qed.

(** X3 — the encoding writes no markup.  The result of [escapeXMLChars]
    never holds [<] or [>], and holds a double quote only if the argument
    does: what [ssmlNodeToText] writes for a text node or inside an
    attribute value cannot open or close a tag or end the value. *)
Theorem escape_writes_no_markup (s : str) :
  ~ In "<"%char (escapeXMLChars s)
  /\ ~ In ">"%char (escapeXMLChars s)
  /\ (In dquote (escapeXMLChars s) -> In dquote s).
Proof.
  split; [apply escape_no_lt|]. split; [apply escape_no_gt|].
  intros Hin. destruct (in_dec ascii_dec dquote s) as [H|H]; [exact H|].
  exfalso. exact (escape_no_quote s H Hin).
Qed.

(** X4 — the encoding works character by character, the decoding does
    not.  [escapeXMLChars] of a concatenation is the concatenation of the
    encodings, so [ssmlNodeToText] writes two neighbouring text children
    exactly as it writes the one text child that holds both; decoding two
    halves of an entity apart differs from decoding the whole. *)
Theorem escape_is_characterwise :
  (forall a b,
      escapeXMLChars (a ++ b) = escapeXMLChars a ++ escapeXMLChars b)
  /\ (forall name attributes before a b after,
         ssmlNodeToText
           (SSMLTag name attributes
              (before ++ [SSMLText a; SSMLText b] ++ after))
         = ssmlNodeToText
             (SSMLTag name attributes
                (before ++ [SSMLText (a ++ b)] ++ after)))
  /\ unescapeXMLChars (lit "&l" ++ lit "t;")
     <> unescapeXMLChars "&l" ++ unescapeXMLChars "t;".
Proof.
  split; [exact escape_app|]. split.
  - intros name attributes before a b after.
    cbn [ssmlNodeToText]. do 5 f_equal.
    rewrite !map_app, !concat_app. f_equal. simpl.
    rewrite escape_app, !app_nil_r. reflexivity.
  - vm_compute. discriminate.
Qed.

(** ** Lexing of names and attribute values *)

Lemma scan_split (text : str) (cond : ascii -> bool) (pos : nat) :
  let q := advance_while text cond (List.length text - pos) pos in
  pos <= List.length text ->
  skipn pos text = slice text pos q ++ skipn q text
  /\ q = pos + List.length (slice text pos q).
Proof.
  intros q Hpos.
  pose proof (advance_while_ge text cond (List.length text - pos) pos).
  pose proof (advance_while_le text cond (List.length text - pos) pos Hpos).
  fold q in H, H0. split.
  - unfold slice. replace q with ((q - pos) + pos) at 2 by lia.
    rewrite <- skipn_skipn. now rewrite firstn_skipn.
  - rewrite slice_length by assumption. lia.
Qed.

(** The two name scanners have the same shape: a scan with a loop
    condition and an error for the empty run. *)
Lemma name_scan_cases (text : str) (cond : ascii -> bool)
      (mk : nat -> ValueError) (pos : nat) :
  let r :=
    let q := advance_while text cond (List.length text - pos) pos in
    if pos =? q then Raise (mk q) else Ok (slice text pos q, q) in
  (forall name pos',
      r = Ok (name, pos')
      <-> name <> [] /\ forallb cond name = true
          /\ pos' = pos + List.length name
          /\ exists rest, skipn pos text = name ++ rest /\ stops cond rest)
  /\ (forall e,
         r = Raise e <-> e = mk pos /\ stops cond (skipn pos text)).
Proof.
  cbv zeta. split.
  - intros name pos'. split.
    + destruct (pos =? _) eqn:E; [discriminate|]. intros [= <- <-].
      apply Nat.eqb_neq in E.
      assert (pos <= List.length text) as Hpos.
      { destruct (Nat.le_gt_cases pos (List.length text)); [assumption|].
        exfalso. apply E.
        replace (List.length text - pos) with 0 by lia. reflexivity. }
      destruct (scan_split text cond pos Hpos) as [Hs Hq].
      split.
      { intros Hn. rewrite Hn in Hq. simpl in Hq. lia. }
      split; [apply advance_while_all|]. split; [exact Hq|].
      eexists. split; [exact Hs|]. apply advance_while_stop. lia.
    + intros (Hne & Hn & -> & rest & Hs & Hr).
      rewrite (advance_while_run text cond name rest Hn Hr _ pos Hs).
      * destruct (Nat.eqb_spec pos (pos + List.length name)) as [E|E].
        -- destruct name; [congruence|simpl in E; lia].
        -- now rewrite (slice_at _ _ _ _ Hs).
      * rewrite (skipn_length_at _ _ _ Hs), length_app. lia.
  - intros e. split.
    + destruct (pos =? _) eqn:E; [|discriminate]. intros [= <-].
      apply Nat.eqb_eq in E. split; [now rewrite <- E|].
      rewrite E at 1. apply advance_while_stop. lia.
    + intros [-> Hr].
      rewrite (advance_while_run text cond [] _ eq_refl Hr _ pos eq_refl)
        by (simpl; lia).
      simpl. rewrite Nat.add_0_r, Nat.eqb_refl. reflexivity.
Qed.

(** X5 — what a name is.  [parse_tag_name] returns exactly the longest
    non-empty run of characters at the cursor that are neither white
    space, [/] nor [>], with the cursor right after it, and raises the
    error for a missing tag name, at the cursor, exactly when that run is
    empty (the text is over, or the next character is one of those).
    [parse_attr_name] does the same with [=] as one more delimiter. *)
Theorem name_lexing (text : str) (pos : nat) :
  (forall name pos',
      parse_tag_name text pos = Ok (name, pos')
      <-> name <> [] /\ forallb is_tag_name_char name = true
          /\ pos' = pos + List.length name
          /\ exists rest,
               skipn pos text = name ++ rest
               /\ stops is_tag_name_char rest)
  /\ (forall e,
         parse_tag_name text pos = Raise e
         <-> e = ExpectedTagName pos
             /\ stops is_tag_name_char (skipn pos text))
  /\ (forall name pos',
         parse_attr_name text pos = Ok (name, pos')
         <-> name <> [] /\ forallb is_attr_name_char name = true
             /\ pos' = pos + List.length name
             /\ exists rest,
                  skipn pos text = name ++ rest
                  /\ stops is_attr_name_char rest)
  /\ (forall e,
         parse_attr_name text pos = Raise e
         <-> e = ExpectedAttrName pos
             /\ stops is_attr_name_char (skipn pos text)).
Proof.
  rewrite parse_tag_name_eq, parse_attr_name_eq.
  destruct (name_scan_cases text is_tag_name_char ExpectedTagName pos)
    as [H1 H2].
  destruct (name_scan_cases text is_attr_name_char ExpectedAttrName pos)
    as [H3 H4].
  split; [exact H1|]. split; [exact H2|]. split; [exact H3|exact H4].
Qed.

(** X6 — an attribute value.  At the end of the text [parse_attr_value]
    raises the error for a missing value; at any character but a double
    quote (an apostrophe, say) it raises the error for a missing double
    quote, at that offset; at a double quote that no second one follows it
    raises the error for an unterminated value, with the offset after the
    opening quote; otherwise it returns the decoded characters between the
    quote and the next double quote and stops after that one. *)
Theorem attr_value_cases (text : str) (pos : nat) :
  (skipn pos text = [] ->
   parse_attr_value text pos = Raise (ExpectedAttrValue pos))
  /\ (forall c rest,
         skipn pos text = c :: rest -> c <> dquote ->
         parse_attr_value text pos = Raise (ExpectedDoubleQuote pos))
  /\ (forall value,
         skipn pos text = dquote :: value -> ~ In dquote value ->
         parse_attr_value text pos = Raise (AttrValueNotClosed (pos + 1)))
  /\ (forall value rest,
         skipn pos text = dquote :: value ++ dquote :: rest ->
         ~ In dquote value ->
         parse_attr_value text pos
         = Ok (unescapeXMLChars value, pos + List.length value + 2)).
Proof.
  split; [|split; [|split]].
  - intros H. rewrite parse_attr_value_eq.
    apply skipn_length_at in H. simpl in H.
    assert ((List.length text <=? pos) = true) as -> by (apply Nat.leb_le; lia).
    reflexivity.
  - intros c rest H Hc. rewrite parse_attr_value_eq.
    pose proof (skipn_cons_lt _ _ _ _ H) as Hlt.
    apply Nat.leb_gt in Hlt. rewrite Hlt.
    destruct (skipn_cons_nth _ _ _ _ H) as [-> _].
    cbn [is_char]. apply char_eqb_neq in Hc. now rewrite Hc.
  - intros value H Hv. rewrite parse_attr_value_eq.
    pose proof (skipn_cons_lt _ _ _ _ H) as Hlt.
    pose proof (skipn_length_at _ _ _ H) as Hlen. simpl in Hlen.
    apply Nat.leb_gt in Hlt. rewrite Hlt.
    destruct (skipn_cons_nth _ _ _ _ H) as [-> Hs].
    cbn [is_char]. rewrite char_eqb_refl. cbn [negb]. cbv zeta.
    replace (S pos) with (pos + 1) in Hs by lia.
    rewrite <- (app_nil_r value) in Hs.
    rewrite (advance_while_run text _ value []
               (forallb_not_char _ _ Hv) I _ (pos + 1) Hs).
    2:{ rewrite (skipn_length_at _ _ _ Hs), length_app. simpl. lia. }
    rewrite app_nil_r in Hs. apply skipn_length_at in Hs.
    assert ((List.length text <=? pos + 1 + List.length value) = true) as ->.
    { apply Nat.leb_le. lia. }
    reflexivity.
  - intros value rest H Hv. exact (parse_attr_value_at text pos value rest H Hv).
Qed.

(** ** Inputs without an opening tag *)

(** X7 — an input that does not begin with a tag.  When the input is
    empty, is white space only, or has a first character after the leading
    white space that is not [<], [parseSSML] raises the error that the
    document must start with an opening tag. *)
Theorem no_opening_tag (w rest : str) :
  forallb isspace w = true -> no_tag_ahead rest ->
  parseSSML (w ++ rest) = Raise MustStartWithOpeningTag.
Proof.
  intros Hw Hrest. unfold parseSSML. rewrite parse_eq. cbv zeta.
  assert (skipn 0 (w ++ rest) = w ++ rest) as H0 by reflexivity.
  assert (stops isspace rest) as Hstop.
  { destruct rest as [|c r]; [exact I|]. apply Hrest. }
  rewrite (ws_at (w ++ rest) 0 w rest H0 Hw Hstop). cbn [Nat.add].
  pose proof (skipn_app_at (w ++ rest) 0 w rest H0) as H1.
  cbn [Nat.add] in H1.
  destruct rest as [|c r].
  - rewrite app_nil_r, Nat.leb_refl. reflexivity.
  - destruct (skipn_cons_nth _ _ _ _ H1) as [-> _].
    destruct Hrest as [_ Hc]. cbn [is_char].
    apply char_eqb_neq in Hc. rewrite Hc. now rewrite orb_true_r.
Qed.

Lemma no_opening_tag_witness :
  parseSSML [] = Raise MustStartWithOpeningTag
  /\ parseSSML (lit "  " ++ lit "not-a-tag") = Raise MustStartWithOpeningTag.
Proof.
  split.
  - apply (no_opening_tag [] []); [reflexivity|exact I].
  - apply (no_opening_tag (lit "  ") (lit "not-a-tag")).
    + reflexivity.
    + split; [reflexivity|discriminate].
Defined.

(** ** Trees returned by the parser, serialized and parsed again *)

Lemma dict_keys_reescape (attributes : dict) :
  dict_keys (map (fun kv => (fst kv, reescape (snd kv))) attributes)
  = dict_keys attributes.
Proof. unfold dict_keys. rewrite map_map. reflexivity. Qed.

Lemma is_speak_reescape (node : SSMLNode) :
  is_speak (reescape_tree node) = is_speak node.
Proof. now destruct node. Qed.

Section PrintedAny.

Variable text : str.

(** The attribute list written by [ssmlNodeToText] is read back as the
    assignments of the same names to the values with [<] and [>] left
    encoded. *)
Lemma parse_attributes_printed_any (attributes : dict) :
  forall acc pos fuel rest,
    Forall (attr_ok (fun _ => True)) attributes ->
    List.length attributes < fuel ->
    skipn pos text = attrs_to_text attributes ++ ">"%char :: rest ->
    parse_attributes_loop text fuel acc pos
    = Ok (fold_left (fun d kv => dict_set d (fst kv) (snd kv))
            (map (fun kv => (fst kv, reescape (snd kv))) attributes) acc,
          pos + List.length (attrs_to_text attributes)).
Proof.
  induction attributes as [|kv l IH]; intros acc pos fuel rest Hok Hf H.
  - destruct fuel as [|fuel]; [simpl in Hf; lia|].
    rewrite (parse_attributes_exit text fuel acc pos [] ">"%char rest H)
      by reflexivity.
    reflexivity.
  - destruct fuel as [|fuel]; [simpl in Hf; lia|].
    inversion Hok as [|kv' l' [Hk [Hq _]] Hl]; subst.
    rewrite attrs_to_text_cons, <- app_assoc, attr_text_app in H.
    rewrite (parse_attributes_attr_step text fuel acc pos [" "%char]
               (fst kv) [] [] (escapeXMLChars (snd kv)) _ H eq_refl Hk
               eq_refl eq_refl (escape_no_quote _ Hq)).
    pose proof (skipn_after_attr text pos [" "%char] (fst kv) [] []
                  (escapeXMLChars (snd kv)) _ H) as H'.
    rewrite (unescape_escape (snd kv)). fold (reescape (snd kv)).
    rewrite (IH _ _ fuel rest Hl ltac:(simpl in Hf; lia) H').
    simpl fold_left. f_equal. f_equal.
    rewrite attrs_to_text_cons, length_app, attr_text_length.
    simpl. lia.
Qed.

End PrintedAny.

(** Parsing what [ssmlNodeToText] wrote for a well-formed tree gives the
    tree with [<] and [>] left encoded in its texts and values. *)
Lemma printed_parse_any (fuel : nat) :
  (forall text pos name attributes children rest,
      well_formed (fun _ => True) (SSMLTag name attributes children) ->
      node_size (SSMLTag name attributes children) <= fuel ->
      skipn pos text
      = ssmlNodeToText (SSMLTag name attributes children) ++ rest ->
      parse_element text fuel pos
      = Ok (reescape_tree (SSMLTag name attributes children),
            pos + List.length
                    (ssmlNodeToText (SSMLTag name attributes children))))
  /\ (forall text pos name acc children rest,
         valid_tag_name name ->
         Forall (well_formed (fun _ => True)) children ->
         no_adjacent_text children ->
         children_size children <= fuel ->
         skipn pos text
         = children_text children
             ++ "<"%char :: "/"%char :: name ++ ">"%char :: rest ->
         parse_children text fuel name acc pos
         = Ok (acc ++ map reescape_tree children,
               pos + List.length (children_text children) + 2
               + List.length name + 1)).
Proof.
  induction fuel as [|fuel [IHe IHc]].
  { split.
    - intros text pos name attributes children rest _ H. simpl in H. lia.
    - intros text pos name acc children rest _ _ _ H.
      pose proof (children_size_pos children). lia. }
  split.
  - intros text pos name attributes children rest Hwf Hsize H.
    inversion Hwf as [|n a cs Hname Hattrs Hnodup Hch Hadj]; subst.
    rewrite node_size_tag in Hsize.
    rewrite tag_text_app in H.
    rewrite parse_element_S.
    destruct (skipn_cons_nth _ _ _ _ H) as [Hc H1]. rewrite Hc.
    change (negb (is_char (Some "<"%char) "<")) with false. cbv iota.
    replace (S pos) with (pos + 1) in H1 by lia.
    rewrite (ws_stay text (pos + 1) _ H1)
      by exact (valid_tag_name_stops_space name _ Hname).
    destruct Hname as [Hne Hn].
    rewrite (parse_tag_name_at text _ name _ H1 Hne Hn)
      by apply attrs_text_stops.
    pose proof (skipn_app_at text _ name _ H1) as H2.
    unfold parse_attributes. rewrite parse_attributes_loop_ws.
    rewrite (parse_attributes_printed_any text attributes [] _ fuel _
               Hattrs ltac:(lia) H2).
    rewrite (dict_rebuild _ [])
      by (cbn [app]; now rewrite dict_keys_reescape).
    cbn [app].
    pose proof (skipn_app_at text _ (attrs_to_text attributes) _ H2) as H3.
    cbv zeta. rewrite (ws_stay text _ _ H3) by reflexivity.
    rewrite (slice_two_neq text _ ">"%char _ (lit "/>") H3)
      by (simpl; congruence).
    destruct (skipn_cons_nth _ _ _ _ H3) as [Hc3 H4]. rewrite Hc3.
    change (is_char (Some ">"%char) ">") with true. cbv iota.
    match type of H4 with
    | skipn (S ?p) _ = _ => replace (S p) with (p + 1) in H4 by lia
    end.
    rewrite (IHc text _ name [] children rest (conj Hne Hn) Hch Hadj
               ltac:(lia) H4).
    cbn [app reescape_tree]. f_equal. f_equal. rewrite tag_text_length. lia.
  - intros text pos name acc children rest Hname Hch Hadj Hsize H.
    destruct children as [|c cs].
    + change (children_text []) with (@nil ascii) in *. cbn [app] in H.
      rewrite (parse_children_close text fuel name acc pos [] name [] rest
                 H eq_refl Hname eq_refl).
      rewrite str_eqb_refl. cbn [map]. rewrite app_nil_r.
      f_equal. f_equal. simpl. lia.
    + rewrite children_size_cons in Hsize.
      pose proof (children_size_pos cs) as Hcs.
      pose proof (node_size_pos c) as Hcp.
      inversion Hch as [|c' cs' Hc Hcs']; subst.
      destruct Hadj as [Hnext Hadj].
      rewrite children_text_cons, <- app_assoc in H.
      destruct c as [v|n a cs0].
      * inversion Hc as [v' Hv _|]; subst.
        cbn [ssmlNodeToText] in H.
        rewrite (parse_children_text_step text fuel name acc pos
                   (escapeXMLChars v) _ H (escape_nonempty v Hv)
                   (escape_no_lt v))
          by (apply after_text_stops; now apply Hnext).
        rewrite (unescape_escape v). fold (reescape v).
        pose proof (skipn_app_at text pos _ _ H) as H'.
        rewrite (IHc text _ name (acc ++ [SSMLText (reescape v)]) cs rest
                   Hname Hcs' Hadj ltac:(lia) H').
        rewrite <- app_assoc. cbn [app map reescape_tree].
        f_equal. f_equal.
        rewrite children_text_cons, length_app. cbn [ssmlNodeToText]. lia.
      * inversion Hc as [|n' a' cs0' Hn Ha Hnd Hc0 Hadj0]; subst.
        destruct (valid_tag_name_first n Hn) as (x & n' & E & Hx).
        assert (exists r, skipn pos text = "<"%char :: x :: r) as [r Hr].
        { rewrite H, tag_text_app, E. eexists. reflexivity. }
        rewrite (parse_children_element_step text fuel name acc pos x r
                   Hr Hx).
        rewrite (IHe text pos n a cs0 _ Hc ltac:(lia) H).
        pose proof (skipn_app_at text pos _ _ H) as H'.
        rewrite (IHc text _ name
                   (acc ++ [reescape_tree (SSMLTag n a cs0)]) cs rest Hname
                   Hcs' Hadj ltac:(lia) H').
        rewrite <- app_assoc. cbn [app map]. f_equal. f_equal.
        rewrite children_text_cons, length_app. lia.
Qed.

Lemma print_parse_any (node : SSMLNode) :
  well_formed (fun _ => True) node -> is_speak node = true ->
  parseSSML (ssmlNodeToText node) = Ok (reescape_tree node).
Proof.
  intros Hwf Hspeak.
  destruct node as [v|name attributes children]; [discriminate|].
  set (text := ssmlNodeToText (SSMLTag name attributes children)).
  assert (skipn 0 text = text ++ []) as H0 by (now rewrite app_nil_r).
  destruct (printed_parse_any
              (node_size (SSMLTag name attributes children))) as [He _].
  specialize (He text 0 name attributes children [] Hwf (le_n _) H0).
  fold text in He. cbn [Nat.add] in He.
  assert (parse text (node_size (SSMLTag name attributes children)) 0
          = Ok (reescape_tree (SSMLTag name attributes children),
                List.length text)) as Hp.
  { rewrite parse_eq. cbv zeta.
    unfold text in H0 at 2. rewrite tag_text_app in H0.
    rewrite (ws_stay text 0 _ H0 eq_refl).
    destruct (skipn_cons_nth _ _ _ _ H0) as [Hc _]. rewrite Hc.
    pose proof (skipn_cons_lt _ _ _ _ H0) as Hlt.
    apply Nat.leb_gt in Hlt. rewrite Hlt.
    change (false || negb (is_char (Some "<"%char) "<")) with false.
    cbv iota. rewrite He.
    rewrite (ws_stay text (List.length text) [])
      by first [exact I | apply skipn_all].
    rewrite Nat.eqb_refl. cbn [negb].
    rewrite is_speak_reescape. now rewrite Hspeak. }
  now rewrite (parseSSML_of_parse text _ _ Hp).
Qed.

Lemma parsed_well_formed_any (ssml : str) (node : SSMLNode) :
  parseSSML ssml = Ok node -> well_formed (fun _ => True) node.
Proof.
  refine (parseSSML_invariant (well_formed (fun _ => True)) _ _ ssml node).
  - intros text Hne. now constructor.
  - intros name attributes children Hname Hattrs Hd Hch Hadj.
    now constructor.
Qed.

(** X8 — the shape of every parsed tree.  In a tree returned by
    [parseSSML] every tag name is non-empty and holds no white space, [/]
    or [>]; every attribute name is non-empty and holds none of these nor
    [=]; no attribute value holds a double quote; the attribute names of a
    tag are pairwise different; no text node is empty; and no two text
    nodes are neighbours in a children list. *)
Theorem parsed_tree_shape (ssml : str) (node : SSMLNode) :
  parseSSML ssml = Ok node -> well_formed (fun _ => True) node.
Proof.
  refine (parseSSML_invariant (well_formed (fun _ => True)) _ _ ssml node).
  - intros text Hne. constructor; [exact Hne|exact I].
  - intros name attributes children Hname Hattrs Hd Hch Hadj.
    constructor; assumption.
Qed.

Lemma parsed_tree_shape_witness :
  well_formed (fun _ => True)
    (SSMLTag "speak" [(lit "a", lit "1"); (lit "b", lit "x>y")]
       [SSMLText "Hi "; SSMLTag "br" [] []; SSMLText "<"]).
Proof.
  apply (parsed_tree_shape
           (sq "<speak a='0' b='x>y' a='1'>Hi <br/>&lt;</speak>")).
  vm_compute. reflexivity.
Defined.

(** X9 — what reparsing gives, for every accepted input.  When
    [parseSSML] accepts an input, it also accepts the text that
    [ssmlNodeToText] writes for the tree, and the tree it returns then is
    the first one with every [<] of a text or attribute value replaced by
    [&lt;] and every [>] by [&gt;]; names, attribute order and the
    children structure are the same. *)
Theorem reparse_of_parsed (ssml : str) (node : SSMLNode) :
  parseSSML ssml = Ok node ->
  parseSSML (ssmlNodeToText node) = Ok (reescape_tree node).
Proof.
  intros H. apply print_parse_any.
  - exact (parsed_well_formed_any ssml node H).
  - apply parseSSML_Ok_inv in H.
    destruct H as (attributes & children & p0 & p1 & -> & _).
    reflexivity.
Qed.

Lemma reparse_of_parsed_witness :
  parseSSML
    (ssmlNodeToText
       (SSMLTag "speak" [(lit "b", lit "x>y")]
          [SSMLText "1 "; SSMLTag "br" [] []; SSMLText "< 2"]))
  = Ok (SSMLTag "speak" [(lit "b", lit "x&gt;y")]
          [SSMLText "1 "; SSMLTag "br" [] []; SSMLText "&lt; 2"]).
Proof.
  apply (reparse_of_parsed (sq "<speak b='x>y'>1 <br/>&lt; 2</speak>")).
  vm_compute. reflexivity.
Defined.

(** X10 — trees built by hand.  For a tree that was not parsed but
    constructed, with a root named speak, valid tag and attribute names,
    attribute values without a double quote, pairwise different attribute
    names, no empty text and no neighbouring texts, the text written by
    [ssmlNodeToText] is accepted by [parseSSML]; the result is the tree
    with [<] and [>] of texts and values encoded, and the tree itself when
    no text or value holds one of the two. *)
Theorem serialized_tree_parses :
  (forall node,
      well_formed (fun _ => True) node -> is_speak node = true ->
      parseSSML (ssmlNodeToText node) = Ok (reescape_tree node))
  /\ (forall node,
         well_formed plain node -> is_speak node = true ->
         parseSSML (ssmlNodeToText node) = Ok node).
Proof.
  split; [exact print_parse_any|exact print_parse_round_trip].
Qed.

(** ** Serialization as a one-to-one map *)

Lemma tag_text_head (name : str) (attributes : dict)
      (children : list SSMLNode) :
  exists rest,
    ssmlNodeToText (SSMLTag name attributes children) = "<"%char :: rest.
Proof.
  eexists. rewrite <- (app_nil_r (ssmlNodeToText _)), tag_text_app.
  reflexivity.
Qed.

Lemma serialized_plain_injective (a b : SSMLNode) :
  well_formed plain a -> well_formed plain b ->
  ssmlNodeToText a = ssmlNodeToText b -> a = b.
Proof.
  intros Ha Hb H.
  destruct a as [u|n1 a1 c1], b as [v|n2 a2 c2].
  - inversion Ha as [u' _ [Hu1 Hu2]|]; inversion Hb as [v' _ [Hv1 Hv2]|].
    subst. cbn [ssmlNodeToText] in H.
    f_equal. rewrite <- (unescape_escape_plain u Hu1 Hu2), H.
    exact (unescape_escape_plain v Hv1 Hv2).
  - exfalso. destruct (tag_text_head n2 a2 c2) as [r Hr].
    rewrite Hr in H. cbn [ssmlNodeToText] in H.
    apply (escape_no_lt u). rewrite H. now left.
  - exfalso. destruct (tag_text_head n1 a1 c1) as [r Hr].
    rewrite Hr in H. cbn [ssmlNodeToText] in H.
    apply (escape_no_lt v). rewrite <- H. now left.
  - set (fuel := node_size (SSMLTag n1 a1 c1)
                 + node_size (SSMLTag n2 a2 c2)).
    destruct (printed_parse fuel) as [He _].
    set (text := ssmlNodeToText (SSMLTag n1 a1 c1)).
    assert (skipn 0 text = ssmlNodeToText (SSMLTag n1 a1 c1) ++ []) as H1
        by (now rewrite app_nil_r).
    assert (skipn 0 text = ssmlNodeToText (SSMLTag n2 a2 c2) ++ []) as H2
        by (rewrite <- H; now rewrite app_nil_r).
    pose proof (He text 0 n1 a1 c1 [] Ha ltac:(unfold fuel; lia) H1) as E1.
    pose proof (He text 0 n2 a2 c2 [] Hb ltac:(unfold fuel; lia) H2) as E2.
    rewrite E1 in E2. congruence.
Qed.

(** X11 — serialization is one-to-one where the codec is.  Two
    well-formed trees whose texts and attribute values hold neither [<]
    nor [>] and which [ssmlNodeToText] writes as the same text are the
    same tree.  With [<] allowed this fails: the text nodes ["<"] and
    ["&lt;"] are both written [&amp;lt;], so the documents that hold one
    or the other are written alike. *)
Theorem serialization_injective :
  (forall a b,
      well_formed plain a -> well_formed plain b ->
      ssmlNodeToText a = ssmlNodeToText b -> a = b)
  /\ ssmlNodeToText (SSMLTag "speak" [] [SSMLText "<"])
     = ssmlNodeToText (SSMLTag "speak" [] [SSMLText "&lt;"]).
Proof.
  split; [exact serialized_plain_injective|reflexivity].
Qed.

(** ** The accepted documents *)

Lemma scan_inv (text : str) (cond : ascii -> bool) (pos : nat) :
  let q := advance_while text cond (List.length text - pos) pos in
  exists run,
    skipn pos text = run ++ skipn q text
    /\ forallb cond run = true
    /\ stops cond (skipn q text)
    /\ q = pos + List.length run.
Proof.
  intros q. destruct (Nat.le_gt_cases pos (List.length text)) as [Hpos|Hpos].
  - destruct (scan_split text cond pos Hpos) as [Hs Hq]. fold q in Hs, Hq.
    exists (slice text pos q). split; [exact Hs|].
    split; [apply advance_while_all|].
    split; [apply advance_while_stop; lia|exact Hq].
  - exists []. assert (q = pos) as ->.
    { unfold q. replace (List.length text - pos) with 0 by lia.
      reflexivity. }
    rewrite skipn_all2 by lia. repeat split. simpl. lia.
Qed.

Lemma slice_eq_inv (text : str) (pos : nat) (s : str) :
  str_eqb (slice text pos (pos + List.length s)) s = true ->
  skipn pos text = s ++ skipn (pos + List.length s) text.
Proof.
  intros H. apply str_eqb_eq in H. unfold slice in H.
  replace (pos + List.length s - pos) with (List.length s) in H by lia.
  rewrite <- (firstn_skipn (List.length s) (skipn pos text)) at 1.
  rewrite H, skipn_skipn. f_equal. f_equal. lia.
Qed.

Section Inverse.

Variable text : str.

Lemma parse_tag_name_inv (pos : nat) (name : str) (pos' : nat) :
  parse_tag_name text pos = Ok (name, pos') ->
  valid_tag_name name /\ pos' = pos + List.length name
  /\ skipn pos text = name ++ skipn pos' text
  /\ stops is_tag_name_char (skipn pos' text).
Proof.
  intros H. rewrite parse_tag_name_eq in H.
  apply (proj1 (name_scan_cases text is_tag_name_char ExpectedTagName pos))
    in H.
  destruct H as (Hne & Hn & -> & rest & Hs & Hr).
  rewrite (skipn_app_at text pos name rest Hs).
  repeat split; assumption.
Qed.

Lemma parse_attr_name_inv (pos : nat) (name : str) (pos' : nat) :
  parse_attr_name text pos = Ok (name, pos') ->
  valid_attr_name name /\ pos' = pos + List.length name
  /\ skipn pos text = name ++ skipn pos' text
  /\ stops is_attr_name_char (skipn pos' text).
Proof.
  intros H. rewrite parse_attr_name_eq in H.
  apply (proj1 (name_scan_cases text is_attr_name_char ExpectedAttrName pos))
    in H.
  destruct H as (Hne & Hn & -> & rest & Hs & Hr).
  rewrite (skipn_app_at text pos name rest Hs).
  repeat split; assumption.
Qed.

Lemma stops_not_char (c : ascii) (rest : str) :
  stops (fun x => negb (char_eqb x c)) rest -> rest <> [] ->
  rest = c :: tl rest.
Proof.
  destruct rest as [|x r]; [congruence|]. simpl. intros H _.
  apply negb_false_iff, char_eqb_eq in H. now subst.
Qed.

Lemma parse_attr_value_inv (pos : nat) (value : str) (pos' : nat) :
  parse_attr_value text pos = Ok (value, pos') ->
  exists raw,
    value = unescapeXMLChars raw /\ ~ In dquote raw
    /\ pos' = pos + List.length raw + 2
    /\ skipn pos text = dquote :: raw ++ dquote :: skipn pos' text.
Proof.
  intros H. rewrite parse_attr_value_eq in H.
  destruct (List.length text <=? pos); [discriminate|].
  destruct (negb (is_char (nth_error text pos) dquote)) eqn:E;
    [discriminate|].
  apply negb_false_iff, is_char_Some in E. destruct E as [Hc _].
  apply skipn_nth_cons in Hc. cbv zeta in H.
  destruct (scan_inv text (fun c => negb (char_eqb c dquote)) (pos + 1))
    as (raw & Hs & Hraw & Hstop & Hq).
  set (q := advance_while text _ _ (pos + 1)) in *.
  destruct (List.length text <=? q) eqn:Hlen; [discriminate|].
  apply Nat.leb_gt in Hlen. injection H as <- <-.
  assert (skipn q text <> []) as Hne.
  { intros Hnil. apply (f_equal (@List.length ascii)) in Hnil.
    rewrite length_skipn in Hnil. simpl in Hnil. lia. }
  pose proof (stops_not_char dquote _ Hstop Hne) as Hd.
  assert (tl (skipn q text) = skipn (q + 1) text) as Ht.
  { destruct (skipn q text) as [|x r] eqn:Eq; [congruence|].
    destruct (skipn_cons_nth _ _ _ _ Eq) as [_ <-].
    replace (q + 1) with (S q) by lia. reflexivity. }
  rewrite Ht in Hd. exists raw.
  split; [now rewrite Hq, (slice_at text (pos + 1) raw _ Hs)|].
  split; [now apply forallb_not_char_inv|].
  split; [lia|].
  rewrite Hc. f_equal. replace (S pos) with (pos + 1) by lia.
  rewrite Hs. f_equal. exact Hd.
Qed.

Lemma parse_text_inv (pos : nat) (node : SSMLNode) (pos' : nat) :
  parse_text text pos = Ok (node, pos') ->
  exists raw,
    node = SSMLText (unescapeXMLChars raw) /\ ~ In "<"%char raw
    /\ pos' = pos + List.length raw
    /\ skipn pos text = raw ++ skipn pos' text
    /\ stops (fun c => negb (char_eqb c "<")) (skipn pos' text).
Proof.
  intros H. rewrite parse_text_eq in H. cbv zeta in H.
  destruct (scan_inv text (fun c => negb (char_eqb c "<")) pos)
    as (raw & Hs & Hraw & Hstop & Hq).
  set (q := advance_while text _ _ pos) in *.
  injection H as <- <-. exists raw.
  split; [now rewrite Hq, (slice_at text pos raw _ Hs)|].
  split; [now apply forallb_not_char_inv|]. auto.
Qed.

End Inverse.

Lemma attrs_render_cons (a : AttrSyntax) (l : list AttrSyntax) :
  attrs_render (a :: l) = attr_render a ++ attrs_render l.
Proof. reflexivity. Qed.

Lemma children_render_cons (c : Syntax) (l : list Syntax) :
  children_render (c :: l) = render c ++ children_render l.
Proof. reflexivity. Qed.

Lemma attr_name_char_is_tag_name_char (c : ascii) :
  is_attr_name_char c = true -> is_tag_name_char c = true.
Proof.
  intros H. unfold is_tag_name_char.
  rewrite (attr_name_char_not_delim c H).
  now rewrite (attr_name_char_not_space c H).
Qed.

Ltac list_eq :=
  cbn [app]; repeat (rewrite <- app_assoc; cbn [app]); reflexivity.

(** What the attribute loop has read when it returns: attributes in
    concrete syntax and the white space before the end of the tag. *)
Lemma parse_attributes_loop_sound (text : str) (fuel : nat) :
  forall acc pos attrs pos',
    parse_attributes_loop text fuel acc pos = Ok (attrs, pos') ->
    exists l w,
      Forall attr_syntax_ok l /\ forallb isspace w = true
      /\ attrs = attrs_of l acc
      /\ skipn pos text = attrs_render l ++ w ++ skipn pos' text
      /\ pos' = pos + List.length (attrs_render l) + List.length w
      /\ stops isspace (skipn pos' text).
Proof.
  induction fuel as [|fuel IH]; intros acc pos attrs pos'; [discriminate|].
  rewrite parse_attributes_loop_S. cbv zeta.
  destruct (scan_inv text isspace pos) as (w0 & Hs0 & Hw0 & Hstop0 & Hq0).
  set (p0 := advance_while text isspace _ pos) in *. clearbody p0.
  destruct (_ || _) eqn:E.
  - intros [= <- <-]. exists [], w0. cbn [attrs_render map List.concat app].
    repeat split; auto. simpl. lia.
  - clear E.
    destruct (parse_attr_name text p0) as [[name p1]|e|] eqn:En;
      try discriminate.
    apply parse_attr_name_inv in En. destruct En as (Hname & Hp1 & Hs1 & _).
    destruct (scan_inv text isspace p1) as (w1 & Hs2 & Hw1 & _ & Hq1).
    set (p2 := advance_while text isspace _ p1) in *. clearbody p2.
    destruct (_ || _) eqn:E2; [discriminate|].
    apply orb_false_iff in E2. destruct E2 as [_ E2].
    apply negb_false_iff, is_char_Some in E2. destruct E2 as [Hc2 _].
    apply skipn_nth_cons in Hc2.
    replace (S p2) with (p2 + 1) in Hc2 by lia.
    destruct (scan_inv text isspace (p2 + 1))
      as (w2 & Hs3 & Hw2 & _ & Hq3).
    set (p3 := advance_while text isspace _ (p2 + 1)) in *. clearbody p3.
    destruct (parse_attr_value text p3) as [[v p4]|e|] eqn:Ev;
      try discriminate.
    apply parse_attr_value_inv in Ev.
    destruct Ev as (raw & -> & Hraw & Hp4 & Hs4).
    intros H. apply IH in H.
    destruct H as (l & w & Hl & Hw & -> & Hs5 & Hp' & Hstop).
    exists (mkAttrSyntax w0 name w1 w2 raw :: l), w.
    split.
    { constructor; [|exact Hl].
      exact (conj Hw0 (conj Hname (conj Hw1 (conj Hw2 Hraw)))). }
    split; [exact Hw|]. split; [reflexivity|].
    rewrite attrs_render_cons. unfold attr_render.
    cbn [attr_before attr_name attr_after_name attr_after_eq attr_raw].
    split; [|split; [|exact Hstop]].
    + rewrite Hs0, Hs1, Hs2, Hc2, Hs3, Hs4, Hs5. list_eq.
    + repeat (rewrite length_app; cbn [List.length]). lia.
Qed.

Lemma is_text_tree_of (s : Syntax) :
  is_text (tree_of s) = negb (is_element s).
Proof. now destruct s. Qed.

(** The tag name ends where the attribute list begins, so the first
    attribute begins with white space. *)
Lemma first_attr_set_off (l : list AttrSyntax) (rest : str) :
  Forall attr_syntax_ok l ->
  stops is_tag_name_char (attrs_render l ++ rest) ->
  attrs_syntax_ok l.
Proof.
  intros Hl Hstop. split; [exact Hl|].
  destruct l as [|a l]; [exact I|].
  inversion Hl as [|a' l' (_ & [Hne Hn] & _) _]; subst.
  intros Hb. rewrite attrs_render_cons in Hstop. unfold attr_render in Hstop.
  rewrite Hb in Hstop. destruct (attr_name a) as [|c n]; [congruence|].
  simpl in Hstop, Hn. apply andb_true_iff in Hn. destruct Hn as [Hc _].
  apply attr_name_char_is_tag_name_char in Hc. congruence.
Qed.

Lemma text_run_nonempty (text : str) (pos : nat) (raw : str) :
  pos < List.length text ->
  is_char (nth_error text pos) "<" = false ->
  skipn pos text = raw ++ skipn (pos + List.length raw) text ->
  stops (fun c => negb (char_eqb c "<"))
    (skipn (pos + List.length raw) text) ->
  raw <> [].
Proof.
  intros Hlt Hc Hs Hstop ->. simpl in *. rewrite Nat.add_0_r in Hstop.
  destruct (nth_error text pos) as [c|] eqn:E.
  - rewrite (skipn_nth_cons text pos c E) in Hstop. simpl in Hstop, Hc.
    apply negb_false_iff in Hstop. congruence.
  - apply nth_error_None in E. lia.
Qed.

Lemma text_then_no_text (cs : list Syntax) (rest : str) :
  Forall syntax_ok cs ->
  stops (fun c => negb (char_eqb c "<")) (children_render cs ++ rest) ->
  match map tree_of cs with
  | c :: _ => is_text c = false
  | [] => True
  end.
Proof.
  intros Hcs Hstop. destruct cs as [|c cs]; [exact I|].
  cbn [map]. rewrite is_text_tree_of.
  destruct c as [raw| |]; [|reflexivity|reflexivity].
  exfalso. inversion Hcs as [|c' cs' Hc _]; subst.
  inversion Hc as [raw' Hne Hlt| |]; subst.
  rewrite children_render_cons in Hstop. cbn [render] in Hstop.
  destruct raw as [|x raw]; [congruence|]. simpl in Hstop.
  apply negb_false_iff, char_eqb_eq in Hstop. subst x.
  apply Hlt. now left.
Qed.

(** Every successful parse of an element or of a children list has read
    a well-formed layout whose tree is the result. *)
Lemma parse_element_children_sound (text : str) (fuel : nat) :
  (forall pos node pos',
      parse_element text fuel pos = Ok (node, pos') ->
      exists s,
        syntax_ok s /\ is_element s = true /\ tree_of s = node
        /\ skipn pos text = render s ++ skipn pos' text
        /\ pos' = pos + List.length (render s))
  /\ (forall name acc pos result pos',
         parse_children text fuel name acc pos = Ok (result, pos') ->
         exists cs w2 w3,
           Forall syntax_ok cs /\ no_adjacent_text (map tree_of cs)
           /\ valid_tag_name name
           /\ forallb isspace w2 = true /\ forallb isspace w3 = true
           /\ result = acc ++ map tree_of cs
           /\ skipn pos text
              = children_render cs ++ lit "</" ++ w2 ++ name ++ w3
                  ++ ">"%char :: skipn pos' text
           /\ pos' = pos + List.length (children_render cs) + 2
                     + List.length w2 + List.length name
                     + List.length w3 + 1).
Proof.
  induction fuel as [|fuel [IHe IHc]]; [split; intros; discriminate|].
  split.
  - intros pos node pos'. rewrite parse_element_S.
    destruct (negb (is_char (nth_error text pos) "<")) eqn:E0;
      [discriminate|].
    apply negb_false_iff, is_char_Some in E0. destruct E0 as [Hc0 _].
    apply skipn_nth_cons in Hc0. replace (S pos) with (pos + 1) in Hc0 by lia.
    destruct (scan_inv text isspace (pos + 1))
      as (w0 & Hs0 & Hw0 & _ & Hq0).
    set (p0 := advance_while text isspace _ (pos + 1)) in *. clearbody p0.
    destruct (parse_tag_name text p0) as [[name p1]|e|] eqn:En;
      try discriminate.
    apply parse_tag_name_inv in En.
    destruct En as (Hname & Hp1 & Hs1 & Hstop1).
    unfold parse_attributes. rewrite parse_attributes_loop_ws.
    destruct (parse_attributes_loop text fuel [] p1) as [[attrs p2]|e|]
      eqn:Ea; try discriminate.
    apply parse_attributes_loop_sound in Ea.
    destruct Ea as (l & w & Hl & Hw & -> & Hs2 & Hp2 & Hstop2).
    cbv zeta. rewrite (ws_stay text p2 _ eq_refl Hstop2).
    rewrite Hs2 in Hstop1. apply (first_attr_set_off l _ Hl) in Hstop1.
    destruct (str_eqb (slice text p2 (p2 + 2)) "/>") eqn:Es.
    + intros [= <- <-].
      apply (slice_eq_inv text p2 (lit "/>")) in Es.
      change (List.length (lit "/>")) with 2 in Es.
      exists (SynEmpty w0 name l w).
      split; [now constructor|]. split; [reflexivity|].
      split; [reflexivity|]. cbn [render]. split.
      * rewrite Hc0, Hs0, Hs1, Hs2, Es. list_eq.
      * cbn [List.length].
        repeat (rewrite length_app; cbn [List.length]).
        change (List.length (lit "/>")) with 2. lia.
    + destruct (is_char (nth_error text p2) ">") eqn:Eg; [|discriminate].
      apply is_char_Some in Eg. destruct Eg as [Hc2 _].
      apply skipn_nth_cons in Hc2.
      replace (S p2) with (p2 + 1) in Hc2 by lia.
      destruct (parse_children text fuel name [] (p2 + 1))
        as [[children p3]|e|] eqn:Ec; try discriminate.
      intros [= <- <-]. apply IHc in Ec.
      destruct Ec
        as (cs & w2 & w3 & Hcs & Hadj & _ & Hw2 & Hw3 & -> & Hs3 & Hp3).
      exists (SynElem w0 name l w cs w2 w3).
      split; [now constructor|]. split; [reflexivity|].
      split; [reflexivity|]. cbn [render]. fold (children_render cs). split.
      * rewrite Hc0, Hs0, Hs1, Hs2, Hc2, Hs3. list_eq.
      * cbn [List.length].
        repeat (rewrite length_app; cbn [List.length]).
        change (List.length (lit "</")) with 2.
        change (List.length (lit ">")) with 1. lia.
  - intros name acc pos result pos'. rewrite parse_children_S.
    destruct (List.length text <=? pos) eqn:Elen; [discriminate|].
    apply Nat.leb_gt in Elen.
    destruct (str_eqb (slice text pos (pos + 2)) "</") eqn:Es.
    + apply (slice_eq_inv text pos (lit "</")) in Es.
      change (List.length (lit "</")) with 2 in Es.
      destruct (scan_inv text isspace (pos + 2))
        as (w2 & Hs0 & Hw2 & _ & Hq0).
      set (p0 := advance_while text isspace _ (pos + 2)) in *.
      clearbody p0.
      destruct (parse_tag_name text p0) as [[closing p1]|e|] eqn:En;
        try discriminate.
      apply parse_tag_name_inv in En.
      destruct En as (Hname & Hp1 & Hs1 & _).
      cbv zeta.
      destruct (scan_inv text isspace p1) as (w3 & Hs2 & Hw3 & _ & Hq2).
      set (p2 := advance_while text isspace _ p1) in *. clearbody p2.
      destruct (_ || _) eqn:E2; [discriminate|].
      apply orb_false_iff in E2. destruct E2 as [_ E2].
      apply negb_false_iff, is_char_Some in E2. destruct E2 as [Hc2 _].
      apply skipn_nth_cons in Hc2.
      replace (S p2) with (p2 + 1) in Hc2 by lia.
      destruct (negb (str_eqb closing name)) eqn:Eq; [discriminate|].
      apply negb_false_iff, str_eqb_eq in Eq. subst closing.
      intros [= <- <-]. exists [], w2, w3.
      split; [constructor|]. split; [exact I|].
      split; [exact Hname|]. split; [exact Hw2|]. split; [exact Hw3|].
      split; [now rewrite app_nil_r|].
      change (children_render []) with (@nil ascii). cbn [app List.length].
      split.
      * rewrite Es, Hs0, Hs1, Hs2, Hc2. list_eq.
      * lia.
    + destruct (is_char (nth_error text pos) "<") eqn:Ec.
      * destruct (parse_element text fuel pos) as [[child p1]|e|] eqn:Ee;
          try discriminate.
        apply IHe in Ee.
        destruct Ee as (s & Hs & Hel & <- & Hs1 & Hp1).
        intros H. apply IHc in H.
        destruct H
          as (cs & w2 & w3 & Hcs & Hadj & Hname & Hw2 & Hw3 & -> & Hs2
              & Hp').
        exists (s :: cs), w2, w3.
        split; [now constructor|]. split.
        { cbn [map no_adjacent_text]. split; [|exact Hadj].
          rewrite is_text_tree_of, Hel. discriminate. }
        split; [exact Hname|]. split; [exact Hw2|]. split; [exact Hw3|].
        split; [now rewrite <- app_assoc|].
        rewrite children_render_cons. split.
        -- rewrite Hs1, Hs2. list_eq.
        -- rewrite length_app. lia.
      * destruct (parse_text text pos) as [[child p1]|e|] eqn:Et;
          try discriminate.
        apply parse_text_inv in Et.
        destruct Et as (raw & -> & Hraw & -> & Hs1 & Hstop).
        intros H. apply IHc in H.
        destruct H
          as (cs & w2 & w3 & Hcs & Hadj & Hname & Hw2 & Hw3 & -> & Hs2
              & Hp').
        exists (SynText raw :: cs), w2, w3.
        split.
        { constructor; [|exact Hcs]. constructor; [|exact Hraw].
          exact (text_run_nonempty text pos raw Elen Ec Hs1 Hstop). }
        split.
        { cbn [map no_adjacent_text]. split; [|exact Hadj].
          intros _. rewrite Hs2 in Hstop.
          exact (text_then_no_text cs _ Hcs Hstop). }
        split; [exact Hname|]. split; [exact Hw2|]. split; [exact Hw3|].
        split; [now rewrite <- app_assoc|].
        rewrite children_render_cons. cbn [render]. split.
        -- rewrite Hs1, Hs2. list_eq.
        -- rewrite length_app. lia.
Qed.

Lemma syntax_size_pos (s : Syntax) : 1 <= syntax_size s.
Proof. destruct s; simpl; lia. Qed.

Lemma syntaxes_size_pos (cs : list Syntax) : 1 <= syntaxes_size cs.
Proof. induction cs as [|c l IH]; simpl; lia. Qed.

Lemma syntaxes_size_cons (c : Syntax) (cs : list Syntax) :
  syntaxes_size (c :: cs) = syntax_size c + syntaxes_size cs.
Proof. reflexivity. Qed.

Lemma attr_render_app (a : AttrSyntax) (rest : str) :
  attr_render a ++ rest
  = attr_before a ++ attr_name a ++ attr_after_name a
      ++ "="%char :: attr_after_eq a ++ dquote :: attr_raw a
      ++ dquote :: rest.
Proof. unfold attr_render. list_eq. Qed.

Lemma attr_render_length (a : AttrSyntax) :
  List.length (attr_render a)
  = List.length (attr_before a) + List.length (attr_name a)
    + List.length (attr_after_name a) + 1
    + List.length (attr_after_eq a) + List.length (attr_raw a) + 2.
Proof.
  unfold attr_render.
  repeat (rewrite length_app; cbn [List.length]). lia.
Qed.

Lemma tag_end_stops_space (tail : str) : tag_end tail -> stops isspace tail.
Proof.
  destruct tail as [|c r]; [easy|]. simpl. unfold char_in. simpl.
  intros Hc. apply orb_true_iff in Hc. destruct Hc as [Hc|Hc].
  - apply char_eqb_eq in Hc. now subst c.
  - rewrite orb_false_r in Hc. apply char_eqb_eq in Hc. now subst c.
Qed.

(** The attribute loop leaves at the end of the text as it does at [/]
    and [>]. *)
Lemma parse_attributes_leave (text : str) (fuel : nat) (attrs : dict)
      (pos : nat) (w tail : str) :
  skipn pos text = w ++ tail -> forallb isspace w = true -> tag_end tail ->
  parse_attributes_loop text (S fuel) attrs pos
  = Ok (attrs, pos + List.length w).
Proof.
  intros H Hw Htail. destruct tail as [|c rest].
  - rewrite parse_attributes_loop_S. cbv zeta.
    rewrite (ws_at text pos w [] H Hw I).
    apply skipn_length_at in H. rewrite app_nil_r in H.
    assert ((List.length text <=? pos + List.length w) = true) as ->
        by (apply Nat.leb_le; lia).
    reflexivity.
  - exact (parse_attributes_exit text fuel attrs pos w c rest H Hw Htail).
Qed.

(** The attribute list of a layout is read as the assignments it
    denotes. *)
Lemma parse_attributes_rendered (text : str) (l : list AttrSyntax) :
  forall acc pos fuel w tail,
    Forall attr_syntax_ok l -> List.length l < fuel ->
    forallb isspace w = true -> tag_end tail ->
    skipn pos text = attrs_render l ++ w ++ tail ->
    parse_attributes_loop text fuel acc pos
    = Ok (attrs_of l acc,
          pos + List.length (attrs_render l) + List.length w).
Proof.
  induction l as [|a l IH]; intros acc pos fuel w tail Hl Hf Hw Hc H.
  - destruct fuel as [|fuel]; [simpl in Hf; lia|].
    rewrite (parse_attributes_leave text fuel acc pos w tail H Hw Hc).
    simpl. now rewrite Nat.add_0_r.
  - destruct fuel as [|fuel]; [simpl in Hf; lia|].
    inversion Hl as [|a' l' (Hb & Hn & Hw1 & Hw2 & Hraw) Hl']; subst.
    rewrite attrs_render_cons, <- app_assoc, attr_render_app in H.
    rewrite (parse_attributes_attr_step text fuel acc pos _ _ _ _ _ _ H
               Hb Hn Hw1 Hw2 Hraw).
    pose proof (skipn_after_attr text pos _ _ _ _ _ _ H) as H'.
    rewrite (IH _ _ fuel w tail Hl' ltac:(simpl in Hf; lia) Hw Hc H').
    unfold attrs_of. cbn [fold_left]. f_equal. f_equal.
    rewrite attrs_render_cons, length_app, attr_render_length. lia.
Qed.

Lemma attrs_then_stops (l : list AttrSyntax) (w tail : str) :
  attrs_syntax_ok l -> forallb isspace w = true -> tag_end tail ->
  stops is_tag_name_char (attrs_render l ++ w ++ tail).
Proof.
  intros [Hl Hfirst] Hw Hc. destruct l as [|a l].
  - cbn [attrs_render map List.concat app]. destruct w as [|x w].
    + destruct tail as [|c rest]; [exact I|]. cbn [app stops].
      unfold tag_end in Hc. unfold is_tag_name_char. rewrite Hc.
      apply andb_false_r.
    + simpl in *. apply andb_true_iff in Hw. destruct Hw as [Hx _].
      now apply space_not_tag_name_char.
  - inversion Hl as [|a' l' (Hb & _) _]; subst.
    rewrite attrs_render_cons, <- app_assoc, attr_render_app.
    destruct (attr_before a) as [|x b]; [congruence|].
    simpl in *. apply andb_true_iff in Hb. destruct Hb as [Hx _].
    now apply space_not_tag_name_char.
Qed.

(** The head of a tag: [<], the name and the attributes.  What follows
    decides between the self-closing form, the open form and the error
    for a malformed tag. *)
Lemma parse_element_head (text : str) (fuel pos : nat) (w0 name : str)
      (l : list AttrSyntax) (w1 tail : str) :
  forallb isspace w0 = true -> valid_tag_name name ->
  attrs_syntax_ok l -> forallb isspace w1 = true ->
  List.length l < fuel -> tag_end tail ->
  skipn pos text = "<"%char :: w0 ++ name ++ attrs_render l ++ w1 ++ tail ->
  let p := pos + 1 + List.length w0 + List.length name
           + List.length (attrs_render l) + List.length w1 in
  skipn p text = tail
  /\ parse_element text (S fuel) pos
     = if str_eqb (slice text p (p + 2)) "/>"
       then Ok (SSMLTag name (attrs_of l []) [], p + 2)
       else if is_char (nth_error text p) ">"
       then
         match parse_children text fuel name [] (p + 1) with
         | Ok (children, p4) =>
             Ok (SSMLTag name (attrs_of l []) children, p4)
         | Raise e => Raise e
         | OutOfFuel => OutOfFuel
         end
       else Raise (MalformedTag p).
Proof.
  intros Hw0 Hname Hattrs Hw1 Hsize Hc H p.
  rewrite parse_element_S.
  destruct (skipn_cons_nth _ _ _ _ H) as [Hc0 H1]. rewrite Hc0.
  change (negb (is_char (Some "<"%char) "<")) with false. cbv iota.
  replace (S pos) with (pos + 1) in H1 by lia.
  rewrite (ws_at text (pos + 1) w0 _ H1 Hw0)
    by exact (valid_tag_name_stops_space name _ Hname).
  pose proof (skipn_app_at text _ w0 _ H1) as H2.
  pose proof (attrs_then_stops l w1 tail Hattrs Hw1 Hc) as Hstop.
  destruct Hname as [Hne Hn].
  rewrite (parse_tag_name_at text _ name _ H2 Hne Hn Hstop).
  pose proof (skipn_app_at text _ name _ H2) as H3.
  unfold parse_attributes. rewrite parse_attributes_loop_ws.
  destruct Hattrs as [Hl _].
  rewrite (parse_attributes_rendered text l [] _ fuel w1 tail Hl
             Hsize Hw1 Hc H3).
  pose proof (skipn_app_at text _ (attrs_render l) _ H3) as H4.
  pose proof (skipn_app_at text _ w1 _ H4) as H5.
  fold p in H5 |- *. split; [exact H5|].
  cbv zeta. rewrite (ws_stay text p _ H5 (tag_end_stops_space _ Hc)).
  reflexivity.
Qed.

Lemma name_after_space_head (w name rest : str) :
  forallb isspace w = true -> valid_tag_name name ->
  exists x r, w ++ name ++ rest = x :: r /\ x <> "/"%char.
Proof.
  intros Hw [Hne Hn]. destruct w as [|x w].
  - destruct name as [|x n]; [congruence|]. exists x, (n ++ rest).
    split; [reflexivity|]. simpl in Hn.
    apply andb_true_iff in Hn. destruct Hn as [Hx _]. intros ->.
    discriminate.
  - exists x, (w ++ name ++ rest). split; [reflexivity|].
    simpl in Hw. apply andb_true_iff in Hw. destruct Hw as [Hx _].
    intros ->. discriminate.
Qed.

Lemma element_render_head (s : Syntax) (rest : str) :
  syntax_ok s -> is_element s = true ->
  exists x r, render s ++ rest = "<"%char :: x :: r /\ x <> "/"%char.
Proof.
  intros Hs Hel. destruct s as [raw|w0 name l w1|w0 name l w1 cs w2 w3];
    [discriminate| |].
  - inversion Hs as [|w0' n' l' w1' Hw0 Hname _ _|]; subst.
    destruct (name_after_space_head w0 name
                (attrs_render l ++ w1 ++ lit "/>" ++ rest) Hw0 Hname)
      as (x & r & E & Hx).
    exists x, r. split; [|exact Hx]. cbn [render]. rewrite <- E. list_eq.
  - inversion Hs as [| |w0' n' l' w1' cs' w2' w3' Hw0 Hname _ _ _ _ _ _];
      subst.
    destruct (name_after_space_head w0 name
                (attrs_render l ++ w1 ++ ">"%char :: children_render cs
                   ++ lit "</" ++ w2 ++ name ++ w3 ++ lit ">" ++ rest)
                Hw0 Hname)
      as (x & r & E & Hx).
    exists x, r. split; [|exact Hx]. cbn [render].
    fold (children_render cs). rewrite <- E. list_eq.
Qed.

(** After a text comes a tag or the closing tag: a [<]. *)
Lemma after_raw_stops (cs : list Syntax) (rest : str) :
  Forall syntax_ok cs ->
  match map tree_of cs with
  | c :: _ => is_text c = false
  | [] => True
  end ->
  stops (fun c => negb (char_eqb c "<"))
    (children_render cs ++ "<"%char :: rest).
Proof.
  intros Hcs Hnext. destruct cs as [|c cs]; [reflexivity|].
  cbn [map] in Hnext. rewrite is_text_tree_of in Hnext.
  apply negb_false_iff in Hnext.
  inversion Hcs as [|c' cs' Hc _]; subst.
  rewrite children_render_cons, <- app_assoc.
  destruct (element_render_head c (children_render cs ++ "<"%char :: rest)
              Hc Hnext) as (x & r & -> & _).
  reflexivity.
Qed.

(** Parsing the characters of a well-formed layout gives the tree that
    the layout denotes. *)
Lemma rendered_parse (fuel : nat) :
  (forall text pos s rest,
      syntax_ok s -> is_element s = true -> syntax_size s <= fuel ->
      skipn pos text = render s ++ rest ->
      parse_element text fuel pos
      = Ok (tree_of s, pos + List.length (render s)))
  /\ (forall text pos name acc cs w2 w3 rest,
         valid_tag_name name -> Forall syntax_ok cs ->
         no_adjacent_text (map tree_of cs) ->
         forallb isspace w2 = true -> forallb isspace w3 = true ->
         syntaxes_size cs <= fuel ->
         skipn pos text
         = children_render cs ++ "<"%char :: "/"%char :: w2 ++ name ++ w3
             ++ ">"%char :: rest ->
         parse_children text fuel name acc pos
         = Ok (acc ++ map tree_of cs,
               pos + List.length (children_render cs) + 2
               + List.length w2 + List.length name + List.length w3 + 1)).
Proof.
  induction fuel as [|fuel [IHe IHc]].
  { split.
    - intros text pos s rest _ _ H. pose proof (syntax_size_pos s). lia.
    - intros text pos name acc cs w2 w3 rest _ _ _ _ _ H.
      pose proof (syntaxes_size_pos cs). lia. }
  split.
  - intros text pos s rest Hs Hel Hsize H.
    destruct s as [raw|w0 name l w1|w0 name l w1 cs w2 w3];
      [discriminate| |].
    + inversion Hs as [|w0' n' l' w1' Hw0 Hname Hattrs Hw1|]; subst.
      cbn [syntax_size] in Hsize.
      assert (skipn pos text
              = "<"%char :: w0 ++ name ++ attrs_render l ++ w1
                  ++ "/"%char :: ">"%char :: rest) as H'.
      { rewrite H. cbn [render]. list_eq. }
      destruct (parse_element_head text fuel pos w0 name l w1
                  ("/"%char :: ">"%char :: rest)
                  Hw0 Hname Hattrs Hw1 ltac:(lia) eq_refl H')
        as [H5 ->].
      rewrite (slice_two_at text _ _ _ _ H5).
      change (str_eqb ["/"%char; ">"%char] (lit "/>")) with true.
      cbv iota. cbn [tree_of render]. f_equal. f_equal.
      cbn [List.length].
      repeat (rewrite length_app; cbn [List.length]).
      change (List.length (lit "/>")) with 2. lia.
    + inversion Hs
        as [| |w0' n' l' w1' cs' w2' w3' Hw0 Hname Hattrs Hw1 Hcs Hadj
                 Hw2 Hw3]; subst.
      cbn [syntax_size] in Hsize. fold (syntaxes_size cs) in Hsize.
      assert (skipn pos text
              = "<"%char :: w0 ++ name ++ attrs_render l ++ w1
                  ++ ">"%char :: children_render cs
                  ++ "<"%char :: "/"%char :: w2 ++ name ++ w3
                  ++ ">"%char :: rest) as H'.
      { rewrite H. cbn [render]. fold (children_render cs). list_eq. }
      destruct (parse_element_head text fuel pos w0 name l w1
                  (">"%char :: children_render cs
                     ++ "<"%char :: "/"%char :: w2 ++ name ++ w3
                     ++ ">"%char :: rest)
                  Hw0 Hname Hattrs Hw1 ltac:(lia) eq_refl H')
        as [H5 ->].
      rewrite (slice_two_neq text _ ">"%char _ (lit "/>") H5)
        by (simpl; congruence).
      destruct (skipn_cons_nth _ _ _ _ H5) as [Hc5 H6]. rewrite Hc5.
      change (is_char (Some ">"%char) ">") with true. cbv iota.
      match type of H6 with
      | skipn (S ?p) _ = _ => replace (S p) with (p + 1) in H6 by lia
      end.
      rewrite (IHc text _ name [] cs w2 w3 rest Hname Hcs Hadj Hw2 Hw3
                 ltac:(lia) H6).
      cbn [app tree_of render]. fold (children_render cs).
      f_equal. f_equal. cbn [List.length].
      repeat (rewrite length_app; cbn [List.length]).
      change (List.length (lit "</")) with 2.
      change (List.length (lit ">")) with 1. lia.
  - intros text pos name acc cs w2 w3 rest Hname Hcs Hadj Hw2 Hw3 Hsize H.
    destruct cs as [|c cs].
    + change (children_render []) with (@nil ascii) in *. cbn [app] in H.
      rewrite (parse_children_close text fuel name acc pos w2 name w3 rest
                 H Hw2 Hname Hw3).
      rewrite str_eqb_refl. cbn [map]. rewrite app_nil_r.
      f_equal. f_equal. simpl. lia.
    + rewrite syntaxes_size_cons in Hsize.
      pose proof (syntaxes_size_pos cs) as Hcsp.
      pose proof (syntax_size_pos c) as Hcp.
      inversion Hcs as [|c' cs' Hc Hcs']; subst.
      cbn [map] in Hadj. destruct Hadj as [Hnext Hadj].
      rewrite children_render_cons, <- app_assoc in H.
      destruct (is_element c) eqn:Hel.
      * match type of H with
        | _ = _ ++ ?R =>
            destruct (element_render_head c R Hc Hel) as (x & r & E & Hx)
        end.
        rewrite E in H.
        rewrite (parse_children_element_step text fuel name acc pos x r
                   H Hx).
        rewrite <- E in H.
        rewrite (IHe text pos c _ Hc Hel ltac:(lia) H).
        pose proof (skipn_app_at text pos _ _ H) as H'.
        rewrite (IHc text _ name (acc ++ [tree_of c]) cs w2 w3 rest Hname
                   Hcs' Hadj Hw2 Hw3 ltac:(lia) H').
        rewrite <- app_assoc. cbn [app map]. f_equal. f_equal.
        rewrite children_render_cons, length_app. lia.
      * destruct c as [raw| |]; [|discriminate|discriminate].
        inversion Hc as [raw' Hne Hlt| |]; subst.
        cbn [render] in H.
        rewrite (parse_children_text_step text fuel name acc pos raw _ H
                   Hne Hlt)
          by (apply after_raw_stops; [exact Hcs'|now apply Hnext]).
        pose proof (skipn_app_at text pos _ _ H) as H'.
        rewrite (IHc text _ name (acc ++ [SSMLText (unescapeXMLChars raw)])
                   cs w2 w3 rest Hname Hcs' Hadj Hw2 Hw3 ltac:(lia) H').
        rewrite <- app_assoc. cbn [app map tree_of]. f_equal. f_equal.
        rewrite children_render_cons, length_app. cbn [render]. lia.
Qed.

Lemma rendered_document_parses (lead trail : str) (s : Syntax) :
  forallb isspace lead = true -> forallb isspace trail = true ->
  syntax_ok s -> is_element s = true -> is_speak (tree_of s) = true ->
  parseSSML (lead ++ render s ++ trail) = Ok (tree_of s).
Proof.
  intros Hlead Htrail Hs Hel Hspeak.
  set (text := lead ++ render s ++ trail).
  assert (skipn 0 text = lead ++ render s ++ trail) as H0 by reflexivity.
  destruct (element_render_head s trail Hs Hel) as (x & r & E & _).
  pose proof (skipn_app_at text 0 lead _ H0) as H1. cbn [Nat.add] in H1.
  destruct (rendered_parse (syntax_size s)) as [He _].
  specialize (He text _ s trail Hs Hel (le_n _) H1).
  pose proof (skipn_app_at text _ (render s) _ H1) as H2.
  assert (parse text (syntax_size s) 0
          = Ok (tree_of s, List.length text)) as Hp.
  { rewrite parse_eq. cbv zeta.
    rewrite (ws_at text 0 lead _ H0 Hlead) by (now rewrite E).
    cbn [Nat.add]. rewrite E in H1.
    destruct (skipn_cons_nth _ _ _ _ H1) as [Hc _]. rewrite Hc.
    pose proof (skipn_cons_lt _ _ _ _ H1) as Hlt.
    apply Nat.leb_gt in Hlt. rewrite Hlt.
    change (false || negb (is_char (Some "<"%char) "<")) with false.
    cbv iota. rewrite He.
    rewrite <- (app_nil_r trail) in H2.
    rewrite (ws_at text _ trail [] H2 Htrail I).
    assert (List.length lead + List.length (render s) + List.length trail
            = List.length text) as ->.
    { unfold text. rewrite !length_app. lia. }
    rewrite Nat.eqb_refl. cbn [negb]. now rewrite Hspeak. }
  now rewrite (parseSSML_of_parse text _ _ Hp).
Qed.

Lemma parsed_document_layout (ssml : str) (node : SSMLNode) :
  parseSSML ssml = Ok node -> document ssml node.
Proof.
  intros H. apply parseSSML_Ok_inv in H.
  destruct H
    as (attributes & children & p0 & p1 & Hnode & _ & _ & He & _ & _
        & Hlead & Htrail).
  destruct (parse_element_children_sound ssml (fuel_for ssml)) as [Hs _].
  apply Hs in He. destruct He as (s & Hok & Hel & Ht & Hskip & _).
  exists (firstn p0 ssml), s, (skipn p1 ssml).
  split; [now rewrite <- Hskip, firstn_skipn|].
  split; [exact Hlead|]. split; [exact Htrail|].
  split; [exact Hok|]. split; [exact Hel|]. split; [exact Ht|].
  now rewrite Hnode.
Qed.

Lemma document_parses (ssml : str) (node : SSMLNode) :
  document ssml node -> parseSSML ssml = Ok node.
Proof.
  intros (lead & s & trail & -> & Hlead & Htrail & Hok & Hel & <- & Hsp).
  now apply rendered_document_parses.
Qed.

Lemma parseSSML_total (ssml : str) : parseSSML ssml <> OutOfFuel.
Proof.
  unfold parseSSML.
  pose proof (parse_post ssml (fuel_for ssml)) as Hp.
  destruct (parse ssml (fuel_for ssml) 0) as [[n p]|e|];
    [discriminate|discriminate|].
  exfalso. apply Hp. unfold fuel_for. lia.
Qed.

(** X12 — the accepted documents, exactly.  [parseSSML] returns a tree
    for an input exactly when the input is, between leading and trailing
    white space, the layout of one element named speak: [<], optional
    white space, a tag name, attributes [name = "value"] with optional
    white space around the name and the [=] (the first one set off from
    the tag name by white space, values between double quotes and without
    a double quote), optional white space, and then either [/>] or [>], a
    sequence of children (elements, and non-empty texts without [<] that
    do not follow one another) and the closing tag [</ name >] with the
    same name.  The tree returned is the one the layout denotes: texts
    and values decoded, attributes assigned in document order.  On every
    other input [parseSSML] raises an error. *)
Theorem accepted_documents (ssml : str) :
  (forall node, parseSSML ssml = Ok node <-> document ssml node)
  /\ ((exists e, parseSSML ssml = Raise e)
      <-> ~ exists node, document ssml node).
Proof.
  split.
  - intros node. split; [apply parsed_document_layout|apply document_parses].
  - split.
    + intros [e He] [node Hd]. apply document_parses in Hd. congruence.
    + intros Hno. destruct (parseSSML ssml) as [node|e|] eqn:E.
      * exfalso. apply Hno. exists node.
        now apply parsed_document_layout.
      * now exists e.
      * exfalso. exact (parseSSML_total ssml E).
Qed.

Lemma forallb_app_true {A : Type} (f : A -> bool) (a b : list A) :
  forallb f a = true -> forallb f b = true -> forallb f (a ++ b) = true.
Proof. intros Ha Hb. rewrite forallb_app. now rewrite Ha, Hb. Qed.

(** X13 — white space around the document.  When [parseSSML] accepts an
    input, it accepts the input with any white space added in front of it
    and after it, and returns the same tree. *)
Theorem white_space_around_document (ssml lead trail : str)
        (node : SSMLNode) :
  parseSSML ssml = Ok node ->
  forallb isspace lead = true -> forallb isspace trail = true ->
  parseSSML (lead ++ ssml ++ trail) = Ok node.
Proof.
  intros H Hlead Htrail. apply parsed_document_layout in H.
  destruct H as (l0 & s & t0 & -> & Hl0 & Ht0 & Hok & Hel & <- & Hsp).
  replace (lead ++ (l0 ++ render s ++ t0) ++ trail)
    with ((lead ++ l0) ++ render s ++ (t0 ++ trail)) by list_eq.
  apply rendered_document_parses; auto using forallb_app_true.
Qed.

Lemma white_space_around_document_witness :
  parseSSML (lit "  " ++ sq "<speak a='1'>Hi</speak>" ++ lit " ")
  = Ok (SSMLTag "speak" [(lit "a", lit "1")] [SSMLText "Hi"]).
Proof.
  apply (white_space_around_document (sq "<speak a='1'>Hi</speak>")
           (lit "  ") (lit " "));
    vm_compute; reflexivity.
Defined.

(** ** An error that is never raised *)

Section Unreachable.

Variable text : str.

Lemma parse_tag_name_no_lt (pos : nat) :
  never_expected_lt (parse_tag_name text pos).
Proof. rewrite parse_tag_name_eq. cbv zeta. now destruct (pos =? _). Qed.

Lemma parse_attr_name_no_lt (pos : nat) :
  never_expected_lt (parse_attr_name text pos).
Proof. rewrite parse_attr_name_eq. cbv zeta. now destruct (pos =? _). Qed.

Lemma parse_attr_value_no_lt (pos : nat) :
  never_expected_lt (parse_attr_value text pos).
Proof.
  rewrite parse_attr_value_eq.
  destruct (List.length text <=? pos); [exact I|].
  destruct (negb _); [exact I|]. cbv zeta.
  now destruct (List.length text <=? _).
Qed.

Lemma parse_attributes_loop_no_lt (fuel : nat) :
  forall acc pos, never_expected_lt (parse_attributes_loop text fuel acc pos).
Proof.
  induction fuel as [|fuel IH]; intros acc pos; [exact I|].
  rewrite parse_attributes_loop_S. cbv zeta.
  destruct (_ || _); [exact I|].
  match goal with
  | |- context [parse_attr_name text ?p] =>
      pose proof (parse_attr_name_no_lt p) as Hn;
      destruct (parse_attr_name text p) as [[name p1]|e|];
      [|exact Hn|exact I]
  end.
  destruct (_ || _); [exact I|].
  match goal with
  | |- context [parse_attr_value text ?p] =>
      pose proof (parse_attr_value_no_lt p) as Hv;
      destruct (parse_attr_value text p) as [[v p4]|e|];
      [|exact Hv|exact I]
  end.
  apply IH.
Qed.

(** [parse_element] is entered at a [<] only: its first check never
    fails, in the call from [parse] and in the calls from
    [parse_children]. *)
Lemma parse_element_children_no_lt (fuel : nat) :
  (forall pos,
      is_char (nth_error text pos) "<" = true ->
      never_expected_lt (parse_element text fuel pos))
  /\ (forall name acc pos,
         never_expected_lt (parse_children text fuel name acc pos)).
Proof.
  induction fuel as [|fuel [IHe IHc]]; [split; intros; exact I|].
  split.
  - intros pos Hc. rewrite parse_element_S, Hc. cbn [negb]. clear Hc.
    match goal with
    | |- context [parse_tag_name text ?p] =>
        pose proof (parse_tag_name_no_lt p) as Hn;
        destruct (parse_tag_name text p) as [[name p1]|e|];
        [|exact Hn|exact I]
    end.
    unfold parse_attributes.
    match goal with
    | |- context [parse_attributes_loop text fuel [] ?p] =>
        pose proof (parse_attributes_loop_no_lt fuel [] p) as Ha;
        destruct (parse_attributes_loop text fuel [] p)
          as [[attributes p2]|e|];
        [|exact Ha|exact I]
    end.
    cbv zeta. destruct (str_eqb _ _); [exact I|].
    destruct (is_char _ _); [|exact I].
    match goal with
    | |- context [parse_children text fuel name [] ?p] =>
        pose proof (IHc name [] p) as Hch;
        destruct (parse_children text fuel name [] p)
          as [[children p4]|e|];
        [exact I|exact Hch|exact I]
    end.
  - intros name acc pos. rewrite parse_children_S.
    destruct (List.length text <=? pos); [exact I|].
    destruct (str_eqb _ _).
    + match goal with
      | |- context [parse_tag_name text ?p] =>
          pose proof (parse_tag_name_no_lt p) as Hn;
          destruct (parse_tag_name text p) as [[closing p1]|e|];
          [|exact Hn|exact I]
      end.
      cbv zeta. destruct (_ || _); [exact I|].
      now destruct (negb _).
    + destruct (is_char (nth_error text pos) "<") eqn:Hc.
      * pose proof (IHe pos Hc) as He.
        destruct (parse_element text fuel pos) as [[child p1]|e|];
          [apply IHc|exact He|exact I].
      * rewrite parse_text_eq. cbv zeta. apply IHc.
Qed.

End Unreachable.

(** X14 — an error that is never raised.  [parse_element] begins by
    checking that the cursor is at [<] and raises ["Expected '<' at
    position ..."] otherwise; [parse] and [parse_children] call it only
    after the same check, so [parseSSML] raises this error on no
    input. *)
Theorem expected_lt_unreachable (ssml : str) (pos : nat) :
  parseSSML ssml <> Raise (ExpectedLt pos).
Proof.
  unfold parseSSML. rewrite parse_eq. cbv zeta.
  destruct (_ || _) eqn:E; [discriminate|].
  apply orb_false_iff in E. destruct E as [_ E].
  apply negb_false_iff in E.
  destruct (parse_element_children_no_lt ssml (fuel_for ssml)) as [He _].
  specialize (He _ E).
  destruct (parse_element ssml (fuel_for ssml) _) as [[node p1]|e|].
  - destruct (negb (_ =? _)); [discriminate|].
    destruct (negb (is_speak node)); discriminate.
  - intros [= ->]. exact He.
  - discriminate.
Qed.

(** ** The second round trip *)

Lemma reescape_plain (v : str) : plain (reescape v).
Proof.
  unfold reescape. split.
  - apply replace_keeps_absent;
      [discriminate|simpl; intuition discriminate|].
    change (lit "<") with ["<"%char].
    apply replace_char_removes. simpl. intuition discriminate.
  - change (lit ">") with [">"%char].
    apply replace_char_removes. simpl. intuition discriminate.
Qed.

Lemma reescape_tree_plain : forall node, plain_tree (reescape_tree node).
Proof.
  fix IH 1. intros [v|name attributes children]; cbn [reescape_tree].
  - constructor. apply reescape_plain.
  - constructor.
    + apply Forall_forall. intros kv Hin. apply in_map_iff in Hin.
      destruct Hin as (kv' & <- & _). apply reescape_plain.
    + induction children as [|c l IHl]; constructor; [apply IH|exact IHl].
Qed.

(** X15 — the second round trip is exact.  When [parseSSML] accepts an
    input and the text written by [ssmlNodeToText] for its tree is parsed
    again, the tree obtained is a fixed point: writing it and parsing the
    result gives it back.  A [<] or [>] is re-encoded once, by the first
    round trip, and not again. *)
Theorem round_trip_stabilises (ssml : str) (node node1 : SSMLNode) :
  parseSSML ssml = Ok node ->
  parseSSML (ssmlNodeToText node) = Ok node1 ->
  parseSSML (ssmlNodeToText node1) = Ok node1.
Proof.
  intros H H1. apply print_parse_round_trip.
  - apply (parsed_well_formed (ssmlNodeToText node) node1 H1).
    pose proof (parsed_well_formed_any ssml node H) as Hwf.
    apply parseSSML_Ok_inv in H.
    destruct H as (attributes & children & p0 & p1 & -> & _).
    rewrite (print_parse_any _ Hwf eq_refl) in H1. injection H1 as <-.
    exact (reescape_tree_plain (SSMLTag "speak" attributes children)).
  - apply parseSSML_Ok_inv in H1.
    destruct H1 as (attributes & children & p0 & p1 & -> & _).
    reflexivity.
Qed.

Lemma round_trip_stabilises_witness :
  parseSSML
    (ssmlNodeToText
       (SSMLTag "speak" [(lit "b", lit "x&gt;y")] [SSMLText "&lt; 2"]))
  = Ok (SSMLTag "speak" [(lit "b", lit "x&gt;y")] [SSMLText "&lt; 2"]).
Proof.
  apply (round_trip_stabilises (sq "<speak b='x>y'>&lt; 2</speak>")
           (SSMLTag "speak" [(lit "b", lit "x>y")] [SSMLText "< 2"]));
    vm_compute; reflexivity.
Defined.

(** ** Errors of the tag syntax *)

Lemma missing_stops_space (expected : ascii) (name_char : ascii -> bool)
      (w tail : str) :
  missing expected name_char w tail -> stops isspace tail.
Proof. destruct tail as [|c r]; [easy|]. now intros (_ & H & _). Qed.

Lemma missing_stops_name (expected : ascii) (name_char : ascii -> bool)
      (w tail : str) :
  (forall c, isspace c = true -> name_char c = false) ->
  forallb isspace w = true -> missing expected name_char w tail ->
  stops name_char (w ++ tail).
Proof.
  intros Hsp Hw Hm. destruct w as [|x w].
  - destruct tail as [|c r]; [exact I|]. destruct Hm as (_ & _ & H).
    now apply H.
  - simpl in *. apply andb_true_iff in Hw. destruct Hw as [Hx _].
    now apply Hsp.
Qed.

Lemma missing_check (expected : ascii) (name_char : ascii -> bool)
      (text : str) (p : nat) (w tail : str) :
  missing expected name_char w tail -> skipn p text = tail ->
  (List.length text <=? p) || negb (is_char (nth_error text p) expected)
  = true.
Proof.
  intros Hm H. destruct tail as [|c r].
  - apply skipn_length_at in H. simpl in H.
    assert ((List.length text <=? p) = true) as ->
        by (apply Nat.leb_le; lia).
    reflexivity.
  - destruct (skipn_cons_nth _ _ _ _ H) as [-> _].
    destruct Hm as (Hc & _). apply char_eqb_neq in Hc.
    cbn [is_char]. rewrite Hc. apply orb_true_r.
Qed.

Lemma space_not_attr_name_char (c : ascii) :
  isspace c = true -> is_attr_name_char c = false.
Proof. unfold is_attr_name_char. now intros ->. Qed.

Lemma malformed_tag (text : str) (fuel pos : nat) (w0 name : str)
      (l : list AttrSyntax) (w1 tail : str) :
  forallb isspace w0 = true -> valid_tag_name name ->
  attrs_syntax_ok l -> forallb isspace w1 = true ->
  List.length l < fuel ->
  (tail = [] \/ exists r, tail = "/"%char :: r /\ hd_error r <> Some ">"%char) ->
  skipn pos text = "<"%char :: w0 ++ name ++ attrs_render l ++ w1 ++ tail ->
  parse_element text (S fuel) pos
  = Raise (MalformedTag
             (pos + 1 + List.length w0 + List.length name
              + List.length (attrs_render l) + List.length w1)).
Proof.
  intros Hw0 Hname Hattrs Hw1 Hsize Htail H.
  assert (tag_end tail) as Hend.
  { destruct Htail as [->|(r & -> & _)]; [exact I|reflexivity]. }
  destruct (parse_element_head text fuel pos w0 name l w1 tail
              Hw0 Hname Hattrs Hw1 Hsize Hend H) as [H5 ->].
  set (p := pos + 1 + _ + _ + _ + _) in *.
  assert (str_eqb (slice text p (p + 2)) "/>" = false) as ->.
  { apply str_eqb_neq. unfold slice. rewrite H5.
    replace (p + 2 - p) with 2 by lia.
    destruct Htail as [->|(r & -> & Hr)]; [discriminate|].
    destruct r as [|x r]; [discriminate|]. simpl. intros [= ->].
    now apply Hr. }
  destruct Htail as [->|(r & -> & _)].
  - apply skipn_length_at in H5. simpl in H5.
    assert (nth_error text p = None) as -> by (apply nth_error_None; lia).
    reflexivity.
  - destruct (skipn_cons_nth _ _ _ _ H5) as [-> _]. reflexivity.
Qed.

Lemma expected_eq (text : str) (fuel : nat) (acc : dict) (pos : nat)
      (w0 name w1 tail : str) :
  forallb isspace w0 = true -> valid_attr_name name ->
  forallb isspace w1 = true -> missing "=" is_attr_name_char w1 tail ->
  skipn pos text = w0 ++ name ++ w1 ++ tail ->
  parse_attributes_loop text (S fuel) acc pos
  = Raise (ExpectedEq
             (pos + List.length w0 + List.length name + List.length w1)).
Proof.
  intros Hw0 Hname Hw1 Hm H. rewrite parse_attributes_loop_S. cbv zeta.
  rewrite (ws_at text pos w0 _ H Hw0)
    by exact (valid_attr_name_stops_space name _ Hname).
  pose proof (skipn_app_at text pos w0 _ H) as H1.
  destruct Hname as [Hne Hn].
  destruct name as [|x n] eqn:En; [congruence|]. rewrite <- En in *.
  assert (is_attr_name_char x = true) as Hx.
  { rewrite En in Hn. simpl in Hn. now apply andb_true_iff in Hn. }
  assert (skipn (pos + List.length w0) text = x :: n ++ w1 ++ tail) as H1'.
  { rewrite H1, En. reflexivity. }
  pose proof (skipn_cons_lt _ _ _ _ H1') as Hlt.
  apply Nat.leb_gt in Hlt. rewrite Hlt.
  destruct (skipn_cons_nth _ _ _ _ H1') as [-> _].
  unfold is_char_in. rewrite (attr_name_char_not_delim x Hx). cbn [orb].
  rewrite (parse_attr_name_at text _ name _ H1 Hne Hn)
    by exact (missing_stops_name _ _ _ _ space_not_attr_name_char Hw1 Hm).
  pose proof (skipn_app_at text _ name _ H1) as H2.
  rewrite (ws_at text _ w1 _ H2 Hw1)
    by exact (missing_stops_space _ _ _ _ Hm).
  pose proof (skipn_app_at text _ w1 _ H2) as H3.
  now rewrite (missing_check _ _ text _ w1 tail Hm H3).
Qed.

Lemma expected_gt_closing (text : str) (fuel : nat) (tag_name : str)
      (acc : list SSMLNode) (pos : nat) (w2 name w3 tail : str) :
  forallb isspace w2 = true -> valid_tag_name name ->
  forallb isspace w3 = true -> missing ">" is_tag_name_char w3 tail ->
  skipn pos text = "<"%char :: "/"%char :: w2 ++ name ++ w3 ++ tail ->
  parse_children text (S fuel) tag_name acc pos
  = Raise (ExpectedGtClosing
             (pos + 2 + List.length w2 + List.length name
              + List.length w3)).
Proof.
  intros Hw2 Hname Hw3 Hm H. rewrite parse_children_S.
  pose proof (skipn_cons_lt _ _ _ _ H) as Hlt.
  apply Nat.leb_gt in Hlt. rewrite Hlt.
  rewrite (slice_two_at text pos _ _ _ H).
  change (str_eqb ["<"%char; "/"%char] (lit "</")) with true. cbv iota.
  pose proof (skipn_app_at text pos ["<"%char; "/"%char] _ H) as H1.
  change (List.length ["<"%char; "/"%char]) with 2 in H1.
  rewrite (ws_at text (pos + 2) w2 _ H1 Hw2)
    by (now apply valid_tag_name_stops_space).
  pose proof (skipn_app_at text _ w2 _ H1) as H2.
  destruct Hname as [Hne Hn].
  rewrite (parse_tag_name_at text _ name _ H2 Hne Hn)
    by exact (missing_stops_name _ _ _ _ space_not_tag_name_char Hw3 Hm).
  pose proof (skipn_app_at text _ name _ H2) as H3.
  cbv zeta. rewrite (ws_at text _ w3 _ H3 Hw3)
    by exact (missing_stops_space _ _ _ _ Hm).
  pose proof (skipn_app_at text _ w3 _ H3) as H4.
  now rewrite (missing_check _ _ text _ w3 tail Hm H4).
Qed.

(** X16 — the three errors of the tag syntax.  After the head of a tag
    ([<], the name, the attributes and white space), the end of the text
    or a [/] that no [>] follows makes [parse_element] raise the error
    for a malformed tag; after an attribute name and white space, the end
    of the text or any character but [=] makes [parse_attributes] raise
    the error for a missing [=]; after [</], a name and white space, the
    end of the text or any character but [>] makes [parse_children] raise
    the error for an unfinished closing tag, whether or not the name is
    the one of the open tag.  Each error carries the offset right after
    the white space. *)
Theorem tag_syntax_errors (text : str) (fuel pos : nat) :
  (forall w0 name l w1 tail,
      forallb isspace w0 = true -> valid_tag_name name ->
      attrs_syntax_ok l -> forallb isspace w1 = true ->
      List.length l < fuel ->
      (tail = []
       \/ exists r, tail = "/"%char :: r /\ hd_error r <> Some ">"%char) ->
      skipn pos text
      = "<"%char :: w0 ++ name ++ attrs_render l ++ w1 ++ tail ->
      parse_element text (S fuel) pos
      = Raise (MalformedTag
                 (pos + 1 + List.length w0 + List.length name
                  + List.length (attrs_render l) + List.length w1)))
  /\ (forall acc w0 name w1 tail,
         forallb isspace w0 = true -> valid_attr_name name ->
         forallb isspace w1 = true ->
         missing "=" is_attr_name_char w1 tail ->
         skipn pos text = w0 ++ name ++ w1 ++ tail ->
         parse_attributes_loop text (S fuel) acc pos
         = Raise (ExpectedEq
                    (pos + List.length w0 + List.length name
                     + List.length w1)))
  /\ (forall tag_name acc w2 name w3 tail,
         forallb isspace w2 = true -> valid_tag_name name ->
         forallb isspace w3 = true ->
         missing ">" is_tag_name_char w3 tail ->
         skipn pos text
         = "<"%char :: "/"%char :: w2 ++ name ++ w3 ++ tail ->
         parse_children text (S fuel) tag_name acc pos
         = Raise (ExpectedGtClosing
                    (pos + 2 + List.length w2 + List.length name
                     + List.length w3))).
Proof.
  split; [|split].
  - intros w0 name l w1 tail. apply malformed_tag.
  - intros acc w0 name w1 tail. apply expected_eq.
  - intros tag_name acc w2 name w3 tail. apply expected_gt_closing.
Qed.

Lemma tag_syntax_errors_witness :
  parse_element (sq "<a b='1' /x") 3 0 = Raise (MalformedTag 9)
  /\ parse_attributes_loop (lit "<a b c>") 1 [] 2 = Raise (ExpectedEq 5)
  /\ parse_children (lit "</a b>") 1 "a" [] 0
     = Raise (ExpectedGtClosing 4).
Proof.
  split; [|split].
  - apply (proj1 (tag_syntax_errors (sq "<a b='1' /x") 2 0)
             [] (lit "a") [mkAttrSyntax " " "b" [] [] "1"] (lit " ")
             (lit "/x")).
    + reflexivity.
    + split; [discriminate|reflexivity].
    + split; [|discriminate]. constructor; [|constructor].
      repeat split; try reflexivity; try discriminate.
      vm_compute. intuition discriminate.
    + reflexivity.
    + simpl. lia.
    + right. exists (lit "x"). split; [reflexivity|discriminate].
    + reflexivity.
  - apply (proj1 (proj2 (tag_syntax_errors (lit "<a b c>") 0 2))
             [] (lit " ") (lit "b") (lit " ") (lit "c>")).
    + reflexivity.
    + split; [discriminate|reflexivity].
    + reflexivity.
    + split; [discriminate|]. split; [reflexivity|discriminate].
    + reflexivity.
  - apply (proj2 (proj2 (tag_syntax_errors (lit "</a b>") 0 0))
             (lit "a") [] [] (lit "a") (lit " ") (lit "b>")).
    + reflexivity.
    + split; [discriminate|reflexivity].
    + reflexivity.
    + split; [discriminate|]. split; [reflexivity|discriminate].
    + reflexivity.
Defined.

(** ** The cursor primitives *)

(** X17 — [startswith] and [skip_whitespace].  [startswith] answers
    [True] exactly when the text at the cursor begins with the given
    string; with fewer characters left it answers [False] and raises
    nothing.  [skip_whitespace] moves the cursor over the longest run of
    white space at the cursor and no further, stops at the end of the
    text, and does nothing when called again. *)
Theorem cursor_primitives (text : str) (pos : nat) :
  (forall s,
      startswith text s pos = Ok (true, pos)
      <-> exists rest, skipn pos text = s ++ rest)
  /\ (forall s,
         List.length text - pos < List.length s ->
         startswith text s pos = Ok (false, pos))
  /\ (exists w,
         skip_whitespace text pos = Ok (tt, pos + List.length w)
         /\ forallb isspace w = true
         /\ skipn pos text = w ++ skipn (pos + List.length w) text
         /\ stops isspace (skipn (pos + List.length w) text))
  /\ (forall q,
         skip_whitespace text pos = Ok (tt, q) ->
         skip_whitespace text q = Ok (tt, q)).
Proof.
  split; [|split; [|split]].
  - intros s. split.
    + intros [= H]. eexists. exact (slice_eq_inv text pos s H).
    + intros [rest H]. exact (startswith_at text s pos rest H).
  - intros s H. unfold startswith. f_equal. f_equal.
    apply str_eqb_neq. intros E.
    apply (f_equal (@List.length ascii)) in E. unfold slice in E.
    rewrite length_firstn, length_skipn in E. lia.
  - destruct (scan_inv text isspace pos) as (w & Hs & Hw & Hstop & Hq).
    exists w. rewrite skip_whitespace_eq, Hq. rewrite Hq in Hs, Hstop.
    auto.
  - intros q [= <-]. rewrite skip_whitespace_eq. f_equal. f_equal.
    apply ws_idem.
Qed.

(* ------------------------------------------------------------------ *)
(** * The inputs that raise, and what each error reports *)

Lemma slice_starts (text : str) (pos : nat) (s : str) :
  str_eqb (slice text pos (pos + List.length s)) s
  = starts_with s (skipn pos text).
Proof.
  destruct (starts_with s (skipn pos text)) eqn:E.
  - apply starts_with_iff in E. destruct E as [r E].
    rewrite (slice_at text pos s r E). apply str_eqb_refl.
  - destruct (str_eqb _ s) eqn:E'; [|reflexivity].
    apply slice_eq_inv in E'.
    assert (starts_with s (skipn pos text) = true) as E''
        by (apply starts_with_iff; eexists; exact E').
    congruence.
Qed.

Lemma attr_delimiter_is_eq (c : ascii) :
  is_attr_name_char c = false -> isspace c = false ->
  char_in c ["/"; ">"]%char = false -> c = "="%char.
Proof.
  unfold is_attr_name_char, char_in. simpl. intros H Hs Hd.
  rewrite Hs in H. simpl in H. apply negb_false_iff in H.
  apply orb_true_iff in H. destruct H as [H|H]; [now apply char_eqb_eq|].
  congruence.
Qed.

Lemma skipn_nonempty (text : str) (pos : nat) :
  pos < List.length text ->
  exists c, nth_error text pos = Some c
            /\ skipn pos text = c :: skipn (S pos) text.
Proof.
  intros H. destruct (nth_error text pos) as [c|] eqn:E.
  - exists c. split; [reflexivity|]. now apply skipn_nth_cons.
  - apply nth_error_None in E. lia.
Qed.

Section Raised.

Variable text : str.

Lemma parse_tag_name_raise (pos : nat) (e : ValueError) :
  parse_tag_name text pos = Raise e ->
  e = ExpectedTagName pos /\ stops is_tag_name_char (skipn pos text).
Proof.
  intros H. rewrite parse_tag_name_eq in H.
  exact (proj1 (proj2 (name_scan_cases text is_tag_name_char
                         ExpectedTagName pos) e) H).
Qed.

Lemma parse_attr_name_raise (pos : nat) (e : ValueError) :
  parse_attr_name text pos = Raise e ->
  e = ExpectedAttrName pos /\ stops is_attr_name_char (skipn pos text).
Proof.
  intros H. rewrite parse_attr_name_eq in H.
  exact (proj1 (proj2 (name_scan_cases text is_attr_name_char
                         ExpectedAttrName pos) e) H).
Qed.

Lemma parse_attr_value_raise (pos : nat) (e : ValueError) :
  parse_attr_value text pos = Raise e ->
  (e = ExpectedAttrValue pos /\ skipn pos text = [])
  \/ (e = ExpectedDoubleQuote pos
      /\ exists c r, skipn pos text = c :: r /\ c <> dquote)
  \/ (e = AttrValueNotClosed (pos + 1)
      /\ exists value, skipn pos text = dquote :: value
                       /\ ~ In dquote value).
Proof.
  rewrite parse_attr_value_eq.
  destruct (List.length text <=? pos) eqn:Elen.
  - intros [= <-]. left. split; [reflexivity|].
    apply Nat.leb_le in Elen. now apply skipn_all2.
  - apply Nat.leb_gt in Elen.
    destruct (skipn_nonempty text pos Elen) as (c & Hc & Hs).
    rewrite Hc. cbn [is_char].
    destruct (char_eqb c dquote) eqn:Ec; cbn [negb].
    + apply char_eqb_eq in Ec. subst c. cbv zeta.
      replace (S pos) with (pos + 1) in Hs by lia.
      destruct (scan_inv text (fun c => negb (char_eqb c dquote)) (pos + 1))
        as (raw & Hs1 & Hraw & Hstop & Hq).
      set (q := advance_while text _ _ (pos + 1)) in *. clearbody q.
      destruct (List.length text <=? q) eqn:Eq; [|discriminate].
      intros [= <-]. right. right. split; [reflexivity|].
      apply Nat.leb_le in Eq. rewrite (skipn_all2 text Eq) in Hs1.
      rewrite app_nil_r in Hs1. exists raw.
      split; [now rewrite Hs, Hs1|]. now apply forallb_not_char_inv.
    + intros [= <-]. right. left. split; [reflexivity|].
      exists c, (skipn (S pos) text). split; [exact Hs|].
      now apply char_eqb_neq.
Qed.

(** Where the attribute loop leaves, the text is over or goes on with
    [/] or [>]. *)
Lemma parse_attributes_loop_exit (fuel : nat) :
  forall acc pos attrs pos',
    parse_attributes_loop text fuel acc pos = Ok (attrs, pos') ->
    tag_end (skipn pos' text).
Proof.
  induction fuel as [|fuel IH]; intros acc pos attrs pos'; [discriminate|].
  rewrite parse_attributes_loop_S. cbv zeta.
  set (p0 := advance_while text isspace _ pos).
  destruct (List.length text <=? p0) eqn:Elen.
  - cbn [orb]. intros [= <- <-]. apply Nat.leb_le in Elen.
    now rewrite (skipn_all2 text Elen).
  - cbn [orb]. apply Nat.leb_gt in Elen.
    destruct (skipn_nonempty text p0 Elen) as (c & Hc & Hs).
    rewrite Hc. cbn [is_char_in].
    destruct (char_in c ["/"; ">"]%char) eqn:Ec.
    + intros [= <- <-]. rewrite Hs. exact Ec.
    + destruct (parse_attr_name text p0) as [[name p1]|e|];
        try discriminate.
      destruct (_ || _); [discriminate|].
      destruct (parse_attr_value text _) as [[v p4]|e|]; try discriminate.
      apply IH.
Qed.

(** What the attribute loop has read when it raises: complete attributes
    and a failing piece. *)
Lemma parse_attributes_loop_raise (fuel : nat) :
  forall acc pos e,
    parse_attributes_loop text fuel acc pos = Raise e ->
    exists l piece,
      Forall attr_syntax_ok l
      /\ skipn pos text = attrs_render l ++ piece
      /\ attr_error (pos + List.length (attrs_render l)) piece e.
Proof.
  induction fuel as [|fuel IH]; intros acc pos e; [discriminate|].
  rewrite parse_attributes_loop_S. cbv zeta.
  destruct (scan_inv text isspace pos) as (w0 & Hs0 & Hw0 & Hstop0 & Hq0).
  set (p0 := advance_while text isspace _ pos) in *. clearbody p0.
  destruct (List.length text <=? p0) eqn:Elen; [discriminate|].
  cbn [orb]. apply Nat.leb_gt in Elen.
  destruct (skipn_nonempty text p0 Elen) as (c & Hc & Hsc).
  rewrite Hc. cbn [is_char_in].
  destruct (char_in c ["/"; ">"]%char) eqn:Ec; [discriminate|].
  destruct (parse_attr_name text p0) as [[name p1]|e'|] eqn:En;
    try discriminate.
  - apply parse_attr_name_inv in En.
    destruct En as (Hname & Hp1 & Hs1 & Hstop1).
    destruct (scan_inv text isspace p1) as (w1 & Hs2 & Hw1 & Hstop2 & Hq1).
    set (p2 := advance_while text isspace _ p1) in *. clearbody p2.
    destruct ((List.length text <=? p2)
              || negb (is_char (nth_error text p2) "=")) eqn:E2.
    + intros [= <-]. exists [], (w0 ++ name ++ w1 ++ skipn p2 text).
      split; [constructor|]. split.
      { cbn [attrs_render map List.concat app].
        now rewrite Hs0, Hs1, Hs2. }
      cbn [attrs_render map List.concat List.length].
      rewrite Nat.add_0_r.
      replace p2 with (pos + List.length w0 + List.length name
                       + List.length w1) at 2 by lia.
      constructor; try assumption.
      destruct (skipn p2 text) as [|x r] eqn:Ex; [exact I|].
      destruct (skipn_cons_nth _ _ _ _ Ex) as [Hx _].
      pose proof (skipn_cons_lt _ _ _ _ Ex) as Hlt.
      apply Nat.leb_gt in Hlt. rewrite Hlt, Hx in E2. cbn [orb is_char] in E2.
      apply negb_true_iff, char_eqb_neq in E2.
      split; [exact E2|]. split; [exact Hstop2|].
      intros ->. simpl in Hq1. rewrite Nat.add_0_r in Hq1. subst p2.
      now rewrite Ex in Hstop1.
    + apply orb_false_iff in E2. destruct E2 as [_ E2].
      apply negb_false_iff, is_char_Some in E2. destruct E2 as [Hc2 _].
      apply skipn_nth_cons in Hc2.
      replace (S p2) with (p2 + 1) in Hc2 by lia.
      destruct (scan_inv text isspace (p2 + 1))
        as (w2 & Hs3 & Hw2 & Hstop3 & Hq3).
      set (p3 := advance_while text isspace _ (p2 + 1)) in *. clearbody p3.
      destruct (parse_attr_value text p3) as [[v p4]|e'|] eqn:Ev;
        try discriminate.
      * apply parse_attr_value_inv in Ev.
        destruct Ev as (raw & -> & Hraw & Hp4 & Hs4).
        intros H. apply IH in H.
        destruct H as (l & piece & Hl & Hs5 & Herr).
        exists (mkAttrSyntax w0 name w1 w2 raw :: l), piece.
        split.
        { constructor; [|exact Hl].
          exact (conj Hw0 (conj Hname (conj Hw1 (conj Hw2 Hraw)))). }
        rewrite attrs_render_cons. unfold attr_render.
        cbn [attr_before attr_name attr_after_name attr_after_eq attr_raw].
        split.
        { rewrite Hs0, Hs1, Hs2, Hc2, Hs3, Hs4, Hs5. list_eq. }
        match goal with
        | |- attr_error ?b _ _ =>
            replace b with (p4 + List.length (attrs_render l));
            [exact Herr|]
        end.
        repeat (rewrite length_app; cbn [List.length]). lia.
      * intros [= <-]. apply parse_attr_value_raise in Ev.
        exists [].
        cbn [attrs_render map List.concat List.length app].
        rewrite Nat.add_0_r.
        assert (skipn pos text
                = w0 ++ name ++ w1 ++ "="%char :: w2 ++ skipn p3 text)
          as Hall by (now rewrite Hs0, Hs1, Hs2, Hc2, Hs3).
        assert (p3 = pos + List.length w0 + List.length name
                     + List.length w1 + 1 + List.length w2) as Hp3 by lia.
        destruct Ev as [[-> Hnil]|[[-> (x & r & Hx & Hne)]
                                  |[-> (value & Hv & Hnq)]]].
        -- exists (w0 ++ name ++ w1 ++ "="%char :: w2).
           split; [constructor|]. split.
           { rewrite Hall, Hnil. now rewrite app_nil_r. }
           rewrite Hp3. now constructor.
        -- exists (w0 ++ name ++ w1 ++ "="%char :: w2 ++ x :: r).
           split; [constructor|]. split; [now rewrite Hall, Hx|].
           rewrite Hp3. constructor; try assumption.
           now rewrite Hx in Hstop3.
        -- exists (w0 ++ name ++ w1 ++ "="%char :: w2 ++ dquote :: value).
           split; [constructor|]. split; [now rewrite Hall, Hv|].
           rewrite Hp3. now constructor.
  - intros [= <-]. apply parse_attr_name_raise in En.
    destruct En as [-> Hstop]. rewrite Hsc in Hstop, Hstop0.
    simpl in Hstop, Hstop0.
    pose proof (attr_delimiter_is_eq c Hstop Hstop0 Ec) as ->.
    exists [], (w0 ++ "="%char :: skipn (S p0) text).
    split; [constructor|]. split.
    { cbn [attrs_render map List.concat app]. now rewrite Hs0, Hsc. }
    cbn [attrs_render map List.concat List.length]. rewrite Nat.add_0_r, Hq0.
    now constructor.
Qed.

End Raised.

Lemma frames_render_cons (f : Frame) (frames : list Frame) :
  frames_render (f :: frames) = frame_render f ++ frames_render frames.
Proof. reflexivity. Qed.

Lemma frame_render_length (f : Frame) :
  List.length (frame_render f)
  = 1 + List.length (frame_w0 f) + List.length (frame_name f)
    + List.length (attrs_render (frame_attrs f))
    + List.length (frame_w1 f) + 1
    + List.length (children_render (frame_children f)).
Proof.
  unfold frame_render. cbn [List.length].
  repeat (rewrite length_app; cbn [List.length]). lia.
Qed.

(** What [parse_element] and [parse_children] have read when they raise:
    the elements that are open, with their complete children, and the
    failing piece. *)
Lemma parse_element_children_raise (text : str) (fuel : nat) :
  (forall pos e parent,
      parse_element text fuel pos = Raise e ->
      is_char (nth_error text pos) "<" = true ->
      (parent <> None -> starts_with "</" (skipn pos text) = false) ->
      exists frames piece,
        skipn pos text = frames_render frames ++ piece
        /\ Forall frame_ok frames
        /\ piece_error (pos + List.length (frames_render frames))
             (innermost parent frames) piece e)
  /\ (forall name acc pos e,
         parse_children text fuel name acc pos = Raise e ->
         exists cs frames piece,
           Forall syntax_ok cs /\ no_adjacent_text (map tree_of cs)
           /\ skipn pos text
              = children_render cs ++ frames_render frames ++ piece
           /\ Forall frame_ok frames
           /\ piece_error
                (pos + List.length (children_render cs)
                 + List.length (frames_render frames))
                (innermost (Some name) frames) piece e).
Proof.
  induction fuel as [|fuel [IHe IHc]]; [split; intros; discriminate|].
  split.
  - intros pos e parent H Hlt Hparent.
    assert (forall piece,
               skipn pos text = piece -> elem_error pos piece e ->
               exists frames piece',
                 skipn pos text = frames_render frames ++ piece'
                 /\ Forall frame_ok frames
                 /\ piece_error (pos + List.length (frames_render frames))
                      (innermost parent frames) piece' e) as Hhere.
    { intros piece Hp Herr. exists [], piece. split; [exact Hp|].
      split; [constructor|]. cbn [frames_render map List.concat List.length
                                  innermost].
      rewrite Nat.add_0_r. destruct parent as [name|]; [|exact Herr].
      right. split; [|exact Herr]. rewrite <- Hp. now apply Hparent. }
    revert H. rewrite parse_element_S, Hlt. cbn [negb].
    apply is_char_Some in Hlt. destruct Hlt as [Hc0 _].
    apply skipn_nth_cons in Hc0. replace (S pos) with (pos + 1) in Hc0 by lia.
    destruct (scan_inv text isspace (pos + 1))
      as (w0 & Hs0 & Hw0 & Hstop0 & Hq0).
    set (p0 := advance_while text isspace _ (pos + 1)) in *. clearbody p0.
    destruct (parse_tag_name text p0) as [[name p1]|e'|] eqn:En;
      try discriminate.
    2:{ intros [= <-]. apply parse_tag_name_raise in En.
        destruct En as [-> Hstop].
        apply (Hhere ("<"%char :: w0 ++ skipn p0 text));
          [now rewrite Hc0, Hs0|].
        subst p0. now apply elem_error_name. }
    apply parse_tag_name_inv in En.
    destruct En as (Hname & Hp1 & Hs1 & Hstop1).
    unfold parse_attributes. rewrite parse_attributes_loop_ws.
    destruct (parse_attributes_loop text fuel [] p1) as [[attrs p2]|e'|]
      eqn:Ea; try discriminate.
    2:{ intros [= <-]. apply parse_attributes_loop_raise in Ea.
        destruct Ea as (l & piece & Hl & Hs2 & Herr).
        apply (Hhere ("<"%char :: w0 ++ name ++ attrs_render l ++ piece));
          [now rewrite Hc0, Hs0, Hs1, Hs2|].
        apply elem_error_attr; try assumption; [now rewrite <- Hs2|].
        replace (pos + 1 + List.length w0 + List.length name)
          with p1 by lia.
        exact Herr. }
    pose proof (parse_attributes_loop_exit text fuel _ _ _ _ Ea) as Hend.
    apply parse_attributes_loop_sound in Ea.
    destruct Ea as (l & w & Hl & Hw & -> & Hs2 & Hp2 & Hstop2).
    cbv zeta. rewrite (ws_stay text p2 _ eq_refl Hstop2).
    rewrite Hs2 in Hstop1. apply (first_attr_set_off l _ Hl) in Hstop1.
    destruct (str_eqb (slice text p2 (p2 + 2)) "/>") eqn:Es; [discriminate|].
    destruct (is_char (nth_error text p2) ">") eqn:Eg.
    + apply is_char_Some in Eg. destruct Eg as [Hc2 _].
      apply skipn_nth_cons in Hc2.
      replace (S p2) with (p2 + 1) in Hc2 by lia.
      destruct (parse_children text fuel name [] (p2 + 1))
        as [[children p3]|e'|] eqn:Ec; try discriminate.
      intros [= <-]. apply IHc in Ec.
      destruct Ec as (cs & frames & piece & Hcs & Hadj & Hs3 & Hfr & Herr).
      exists (mkFrame w0 name l w cs :: frames), piece.
      rewrite frames_render_cons. split.
      { unfold frame_render.
        cbn [frame_w0 frame_name frame_attrs frame_w1 frame_children].
        rewrite Hc0, Hs0, Hs1, Hs2, Hc2, Hs3. list_eq. }
      split.
      { constructor; [|exact Hfr].
        exact (conj Hw0 (conj Hname (conj Hstop1
                 (conj Hw (conj Hcs Hadj))))). }
      cbn [innermost frame_name].
      match goal with
      | |- piece_error ?b _ _ _ =>
          replace b with (p2 + 1 + List.length (children_render cs)
                          + List.length (frames_render frames));
          [exact Herr|]
      end.
      rewrite length_app, frame_render_length.
      cbn [frame_w0 frame_name frame_attrs frame_w1 frame_children]. lia.
    + intros [= <-].
      apply (Hhere ("<"%char :: w0 ++ name ++ attrs_render l ++ w
                      ++ skipn p2 text));
        [now rewrite Hc0, Hs0, Hs1, Hs2|].
      assert (p2 = pos + 1 + List.length w0 + List.length name
                   + List.length (attrs_render l) + List.length w) as Hp2'
          by lia.
      rewrite Hp2' at 2. apply elem_error_malformed; try assumption.
      destruct (skipn p2 text) as [|c r] eqn:Ex; [now left|].
      right. destruct (skipn_cons_nth _ _ _ _ Ex) as [Hx _].
      rewrite Hx in Eg. cbn [is_char] in Eg. apply char_eqb_neq in Eg.
      unfold tag_end, char_in in Hend. simpl in Hend.
      apply orb_true_iff in Hend. destruct Hend as [Hend|Hend].
      * apply char_eqb_eq in Hend. subst c. exists r.
        split; [reflexivity|].
        apply str_eqb_neq in Es. unfold slice in Es. rewrite Ex in Es.
        replace (p2 + 2 - p2) with 2 in Es by lia.
        destruct r as [|y r]; [discriminate|]. simpl in *.
        intros [= ->]. now apply Es.
      * rewrite orb_false_r in Hend. apply char_eqb_eq in Hend.
        contradiction.
  - intros name acc pos e. rewrite parse_children_S.
    destruct (List.length text <=? pos) eqn:Elen.
    { intros [= <-]. apply Nat.leb_le in Elen. exists [], [], [].
      split; [constructor|]. split; [exact I|].
      split; [now rewrite (skipn_all2 text Elen)|].
      split; [constructor|]. left. apply close_error_missing. }
    apply Nat.leb_gt in Elen.
    change (pos + 2) with (pos + List.length (lit "</")) at 1.
    rewrite slice_starts.
    destruct (starts_with "</" (skipn pos text)) eqn:Es.
    + apply starts_with_iff in Es. destruct Es as [r0 Es].
      pose proof (skipn_app_at text pos (lit "</") r0 Es) as Es'.
      change (List.length (lit "</")) with 2 in Es'.
      rewrite <- Es' in Es. clear Es' r0.
      assert (forall piece,
                 skipn pos text = piece -> close_error pos name piece e ->
                 exists cs frames piece',
                   Forall syntax_ok cs /\ no_adjacent_text (map tree_of cs)
                   /\ skipn pos text
                      = children_render cs ++ frames_render frames ++ piece'
                   /\ Forall frame_ok frames
                   /\ piece_error
                        (pos + List.length (children_render cs)
                         + List.length (frames_render frames))
                        (innermost (Some name) frames) piece' e) as Hhere.
      { intros piece Hp Herr. exists [], [], piece.
        split; [constructor|]. split; [exact I|]. split; [exact Hp|].
        split; [constructor|].
        cbn [children_render frames_render map List.concat List.length
             innermost].
        rewrite !Nat.add_0_r. now left. }
      destruct (scan_inv text isspace (pos + 2))
        as (w2 & Hs0 & Hw2 & Hstop0 & Hq0).
      set (p0 := advance_while text isspace _ (pos + 2)) in *.
      clearbody p0.
      destruct (parse_tag_name text p0) as [[closing p1]|e'|] eqn:En;
        try discriminate.
      2:{ intros [= <-]. apply parse_tag_name_raise in En.
          destruct En as [-> Hstop].
          apply (Hhere ("<"%char :: "/"%char :: w2 ++ skipn p0 text));
            [now rewrite Es, Hs0|].
          subst p0. now apply close_error_name. }
      apply parse_tag_name_inv in En.
      destruct En as (Hname & Hp1 & Hs1 & Hstop1).
      cbv zeta.
      destruct (scan_inv text isspace p1)
        as (w3 & Hs2 & Hw3 & Hstop2 & Hq2).
      set (p2 := advance_while text isspace _ p1) in *. clearbody p2.
      destruct ((List.length text <=? p2)
                || negb (is_char (nth_error text p2) ">")) eqn:E2.
      * intros [= <-].
        apply (Hhere ("<"%char :: "/"%char :: w2 ++ closing ++ w3
                        ++ skipn p2 text));
          [now rewrite Es, Hs0, Hs1, Hs2|].
        assert (p2 = pos + 2 + List.length w2 + List.length closing
                     + List.length w3) as Hp2' by lia.
        rewrite Hp2' at 2. apply close_error_gt; try assumption.
        destruct (skipn p2 text) as [|x r] eqn:Ex; [exact I|].
        destruct (skipn_cons_nth _ _ _ _ Ex) as [Hx _].
        pose proof (skipn_cons_lt _ _ _ _ Ex) as Hlt.
        apply Nat.leb_gt in Hlt. rewrite Hlt, Hx in E2.
        cbn [orb is_char] in E2.
        apply negb_true_iff, char_eqb_neq in E2.
        split; [exact E2|]. split; [exact Hstop2|].
        intros ->. simpl in Hq2. rewrite Nat.add_0_r in Hq2. subst p2.
        now rewrite Ex in Hstop1.
      * apply orb_false_iff in E2. destruct E2 as [_ E2].
        apply negb_false_iff, is_char_Some in E2. destruct E2 as [Hc2 _].
        apply skipn_nth_cons in Hc2.
        destruct (negb (str_eqb closing name)) eqn:Eq; [|discriminate].
        intros [= <-]. apply negb_true_iff, str_eqb_neq in Eq.
        apply (Hhere ("<"%char :: "/"%char :: w2 ++ closing ++ w3
                        ++ ">"%char :: skipn (S p2) text));
          [now rewrite Es, Hs0, Hs1, Hs2, Hc2|].
        now apply close_error_mismatch.
    + destruct (is_char (nth_error text pos) "<") eqn:Ec.
      * destruct (parse_element text fuel pos) as [[child p1]|e'|] eqn:Ee;
          try discriminate.
        -- destruct (parse_element_children_sound text fuel) as [Hsound _].
           apply Hsound in Ee.
           destruct Ee as (s & Hs & Hel & <- & Hs1 & Hp1).
           intros H. apply IHc in H.
           destruct H as (cs & frames & piece & Hcs & Hadj & Hs2 & Hfr
                          & Herr).
           exists (s :: cs), frames, piece.
           split; [now constructor|]. split.
           { cbn [map no_adjacent_text]. split; [|exact Hadj].
             rewrite is_text_tree_of, Hel. discriminate. }
           rewrite children_render_cons. split.
           { rewrite Hs1, Hs2. list_eq. }
           split; [exact Hfr|].
           match goal with
           | |- piece_error ?b _ _ _ =>
               replace b with (p1 + List.length (children_render cs)
                               + List.length (frames_render frames));
               [exact Herr|]
           end.
           rewrite length_app. lia.
        -- intros [= <-].
           destruct (IHe pos e' (Some name) Ee Ec (fun _ => Es))
             as (frames & piece & Hs1 & Hfr & Herr).
           exists [], frames, piece.
           split; [constructor|]. split; [exact I|].
           split; [exact Hs1|]. split; [exact Hfr|].
           cbn [children_render map List.concat List.length].
           now rewrite Nat.add_0_r.
      * destruct (parse_text text pos) as [[child p1]|e'|] eqn:Et;
          [|rewrite parse_text_eq in Et; discriminate
           |rewrite parse_text_eq in Et; discriminate].
        apply parse_text_inv in Et.
        destruct Et as (raw & -> & Hraw & -> & Hs1 & Hstop).
        intros H. apply IHc in H.
        destruct H as (cs & frames & piece & Hcs & Hadj & Hs2 & Hfr & Herr).
        exists (SynText raw :: cs), frames, piece.
        split.
        { constructor; [|exact Hcs]. constructor; [|exact Hraw].
          exact (text_run_nonempty text pos raw Elen Ec Hs1 Hstop). }
        split.
        { cbn [map no_adjacent_text]. split; [|exact Hadj].
          intros _. rewrite Hs2 in Hstop.
          exact (text_then_no_text cs _ Hcs Hstop). }
        rewrite children_render_cons. cbn [render]. split.
        { rewrite Hs1, Hs2. list_eq. }
        split; [exact Hfr|].
        match goal with
        | |- piece_error ?b _ _ _ =>
            replace b with (pos + List.length raw
                            + List.length (children_render cs)
                            + List.length (frames_render frames));
            [exact Herr|]
        end.
        rewrite length_app. lia.
Qed.

(** Every error of [parseSSML] comes with the layout of its input. *)
Lemma raised_error_layout (ssml : str) (e : ValueError) :
  parseSSML ssml = Raise e -> error_layout ssml e.
Proof.
  unfold parseSSML. rewrite parse_eq. cbv zeta.
  destruct (scan_inv ssml isspace 0) as (lead & Hs0 & Hlead & Hstop0 & Hq0).
  set (p0 := advance_while ssml isspace _ 0) in *. clearbody p0.
  cbn [Nat.add] in Hq0. cbn [skipn] in Hs0.
  destruct ((List.length ssml <=? p0)
            || negb (is_char (nth_error ssml p0) "<")) eqn:E0.
  - intros [= <-]. apply (error_layout_start ssml lead (skipn p0 ssml));
      [exact Hs0|exact Hlead|].
    destruct (skipn p0 ssml) as [|c r] eqn:Ex; [exact I|].
    destruct (skipn_cons_nth _ _ _ _ Ex) as [Hx _].
    pose proof (skipn_cons_lt _ _ _ _ Ex) as Hlt.
    apply Nat.leb_gt in Hlt. rewrite Hlt, Hx in E0. cbn [orb is_char] in E0.
    apply negb_true_iff, char_eqb_neq in E0. split; [exact Hstop0|exact E0].
  - apply orb_false_iff in E0. destruct E0 as [_ E0].
    apply negb_false_iff in E0.
    destruct (parse_element ssml (fuel_for ssml) p0) as [[node p1]|e'|]
      eqn:Ee.
    + destruct (parse_element_children_sound ssml (fuel_for ssml))
        as [Hsound _].
      apply Hsound in Ee. destruct Ee as (s & Hs & Hel & <- & Hs1 & Hp1).
      destruct (scan_inv ssml isspace p1)
        as (trail & Hs2 & Htrail & Hstop2 & Hq2).
      set (p2 := advance_while ssml isspace _ p1) in *. clearbody p2.
      destruct (negb (p2 =? List.length ssml)) eqn:E1.
      * intros [= <-]. apply negb_true_iff, Nat.eqb_neq in E1.
        assert (p2 <= List.length ssml) as Hle.
        { pose proof (skipn_length_at _ _ _ Hs1) as L1.
          pose proof (skipn_length_at _ _ _ Hs2) as L2.
          rewrite length_app, length_skipn in L1, L2.
          assert (1 <= List.length (render s))
            by (destruct s; [discriminate| |]; simpl; lia).
          lia. }
        destruct (skipn p2 ssml) as [|c r] eqn:Ex.
        { apply (f_equal (@List.length ascii)) in Ex.
          rewrite length_skipn in Ex. simpl in Ex. lia. }
        apply (error_layout_extra ssml lead s trail c r);
          try assumption.
        now rewrite Hs0, Hs1, Hs2.
      * destruct (negb (is_speak (tree_of s))) eqn:E2; [|discriminate].
        intros [= <-]. apply negb_false_iff, Nat.eqb_eq in E1.
        apply negb_true_iff in E2.
        apply (error_layout_root ssml lead s trail); try assumption.
        rewrite Hs0, Hs1, Hs2, E1.
        now rewrite skipn_all, app_nil_r.
    + intros [= <-].
      destruct (parse_element_children_raise ssml (fuel_for ssml))
        as [Hraise _].
      destruct (Hraise p0 e' None Ee E0 ltac:(congruence))
        as (frames & piece & Hs1 & Hfr & Herr).
      apply (error_layout_inside ssml lead frames piece);
        try assumption; [now rewrite Hs0, Hs1|].
      now rewrite <- Hq0.
    + discriminate.
Qed.

(** The converse: an input with one of the layouts raises its error. *)

Section Raises.

Variable text : str.

Lemma parse_tag_name_stopped (pos : nat) :
  stops is_tag_name_char (skipn pos text) ->
  parse_tag_name text pos = Raise (ExpectedTagName pos).
Proof.
  intros H. rewrite parse_tag_name_eq.
  exact (proj2 (proj2 (name_scan_cases text is_tag_name_char
                         ExpectedTagName pos) _) (conj eq_refl H)).
Qed.

Lemma parse_attr_name_stopped (pos : nat) :
  stops is_attr_name_char (skipn pos text) ->
  parse_attr_name text pos = Raise (ExpectedAttrName pos).
Proof.
  intros H. rewrite parse_attr_name_eq.
  exact (proj2 (proj2 (name_scan_cases text is_attr_name_char
                         ExpectedAttrName pos) _) (conj eq_refl H)).
Qed.

Lemma parse_attr_value_end (pos : nat) :
  skipn pos text = [] ->
  parse_attr_value text pos = Raise (ExpectedAttrValue pos).
Proof.
  intros H. rewrite parse_attr_value_eq.
  apply skipn_length_at in H. simpl in H.
  assert ((List.length text <=? pos) = true) as ->
      by (apply Nat.leb_le; lia).
  reflexivity.
Qed.

Lemma parse_attr_value_unquoted (pos : nat) (c : ascii) (rest : str) :
  skipn pos text = c :: rest -> c <> dquote ->
  parse_attr_value text pos = Raise (ExpectedDoubleQuote pos).
Proof.
  intros H Hc. rewrite parse_attr_value_eq.
  pose proof (skipn_cons_lt _ _ _ _ H) as Hlt.
  apply Nat.leb_gt in Hlt. rewrite Hlt.
  destruct (skipn_cons_nth _ _ _ _ H) as [-> _].
  cbn [is_char]. apply char_eqb_neq in Hc. now rewrite Hc.
Qed.

Lemma parse_attr_value_unclosed (pos : nat) (value : str) :
  skipn pos text = dquote :: value -> ~ In dquote value ->
  parse_attr_value text pos = Raise (AttrValueNotClosed (pos + 1)).
Proof.
  intros H Hv. rewrite parse_attr_value_eq.
  pose proof (skipn_cons_lt _ _ _ _ H) as Hlt.
  pose proof (skipn_length_at _ _ _ H) as Hlen. simpl in Hlen.
  apply Nat.leb_gt in Hlt. rewrite Hlt.
  destruct (skipn_cons_nth _ _ _ _ H) as [-> Hs].
  cbn [is_char]. rewrite char_eqb_refl. cbn [negb]. cbv zeta.
  replace (S pos) with (pos + 1) in Hs by lia.
  rewrite <- (app_nil_r value) in Hs.
  rewrite (advance_while_run text _ value []
             (forallb_not_char _ _ Hv) I _ (pos + 1) Hs).
  2:{ rewrite (skipn_length_at _ _ _ Hs), length_app. simpl. lia. }
  rewrite app_nil_r in Hs. apply skipn_length_at in Hs.
  assert ((List.length text <=? pos + 1 + List.length value) = true) as ->
      by (apply Nat.leb_le; lia).
  reflexivity.
Qed.

(** One iteration of the attribute loop up to the value. *)
Lemma parse_attributes_to_value (fuel : nat) (acc : dict) (pos : nat)
      (w0 name w1 w2 rest : str) :
  forallb isspace w0 = true -> valid_attr_name name ->
  forallb isspace w1 = true -> forallb isspace w2 = true ->
  stops isspace rest ->
  skipn pos text = w0 ++ name ++ w1 ++ "="%char :: w2 ++ rest ->
  let p := pos + List.length w0 + List.length name + List.length w1 + 1
           + List.length w2 in
  skipn p text = rest
  /\ parse_attributes_loop text (S fuel) acc pos
     = match parse_attr_value text p with
       | Ok (attr_value, p4) =>
           parse_attributes_loop text fuel (dict_set acc name attr_value) p4
       | Raise e => Raise e
       | OutOfFuel => OutOfFuel
       end.
Proof.
  intros Hw0 Hname Hw1 Hw2 Hrest H p.
  rewrite parse_attributes_loop_S. cbv zeta.
  rewrite (ws_at text pos w0 _ H Hw0)
    by (now apply valid_attr_name_stops_space).
  pose proof (skipn_app_at text pos w0 _ H) as H1.
  destruct Hname as [Hne Hn].
  assert (exists c name', name = c :: name') as (c & name' & E).
  { destruct name as [|c name']; [congruence|]. now exists c, name'. }
  assert (is_attr_name_char c = true) as Hc.
  { rewrite E in Hn. simpl in Hn. now apply andb_true_iff in Hn. }
  assert (skipn (pos + List.length w0) text
          = c :: name' ++ w1 ++ "="%char :: w2 ++ rest) as H1'
      by (now rewrite H1, E).
  pose proof (skipn_cons_lt _ _ _ _ H1') as Hlt.
  apply Nat.leb_gt in Hlt. rewrite Hlt.
  destruct (skipn_cons_nth _ _ _ _ H1') as [Hnth _]. rewrite Hnth.
  unfold is_char_in. rewrite (attr_name_char_not_delim c Hc).
  cbn [orb].
  rewrite (parse_attr_name_at text _ name _ H1 Hne Hn)
    by (now apply space_or_eq_not_attr_name_char).
  pose proof (skipn_app_at text _ name _ H1) as H2.
  rewrite (ws_at text _ w1 _ H2 Hw1) by reflexivity.
  pose proof (skipn_app_at text _ w1 _ H2) as H3.
  pose proof (skipn_cons_lt _ _ _ _ H3) as Hlt3.
  apply Nat.leb_gt in Hlt3. rewrite Hlt3.
  destruct (skipn_cons_nth _ _ _ _ H3) as [Hnth3 H4]. rewrite Hnth3.
  change (false || negb (is_char (Some "="%char) "=")) with false.
  cbv iota.
  match type of H4 with
  | skipn (S ?q) _ = _ => replace (S q) with (q + 1) in H4 by lia
  end.
  rewrite (ws_at text _ w2 _ H4 Hw2 Hrest).
  pose proof (skipn_app_at text _ w2 _ H4) as H5.
  fold p in H5 |- *. split; [exact H5|reflexivity].
Qed.

Lemma attr_error_raise (pos : nat) (piece : str) (e : ValueError) :
  attr_error pos piece e -> skipn pos text = piece ->
  forall fuel acc, parse_attributes_loop text (S fuel) acc pos = Raise e.
Proof.
  intros Herr H fuel acc.
  destruct Herr as [w rest Hw|w0 name w1 tail Hw0 Hname Hw1 Hm
                    |w0 name w1 w2 Hw0 Hname Hw1 Hw2
                    |w0 name w1 w2 c rest Hw0 Hname Hw1 Hw2 Hc Hsp
                    |w0 name w1 w2 value Hw0 Hname Hw1 Hw2 Hv].
  - rewrite parse_attributes_loop_S. cbv zeta.
    rewrite (ws_at text pos w _ H Hw) by reflexivity.
    pose proof (skipn_app_at text pos w _ H) as H1.
    pose proof (skipn_cons_lt _ _ _ _ H1) as Hlt.
    apply Nat.leb_gt in Hlt. rewrite Hlt.
    destruct (skipn_cons_nth _ _ _ _ H1) as [-> _].
    change (false || is_char_in (Some "="%char) ["/"; ">"]%char)
      with false. cbv iota.
    rewrite parse_attr_name_stopped; [reflexivity|].
    now rewrite H1.
  - exact (expected_eq text fuel acc pos w0 name w1 tail Hw0 Hname Hw1 Hm H).
  - rewrite <- (app_nil_r w2) in H.
    destruct (parse_attributes_to_value fuel acc pos w0 name w1 w2 []
                Hw0 Hname Hw1 Hw2 I H) as [H5 ->].
    now rewrite (parse_attr_value_end _ H5).
  - destruct (parse_attributes_to_value fuel acc pos w0 name w1 w2
                (c :: rest) Hw0 Hname Hw1 Hw2 Hsp H) as [H5 ->].
    now rewrite (parse_attr_value_unquoted _ c rest H5 Hc).
  - destruct (parse_attributes_to_value fuel acc pos w0 name w1 w2
                (dquote :: value) Hw0 Hname Hw1 Hw2 eq_refl H) as [H5 ->].
    now rewrite (parse_attr_value_unclosed _ value H5 Hv).
Qed.

Lemma attrs_error_raise (l : list AttrSyntax) :
  forall pos piece e fuel acc,
    Forall attr_syntax_ok l ->
    attr_error (pos + List.length (attrs_render l)) piece e ->
    skipn pos text = attrs_render l ++ piece ->
    List.length l <= fuel ->
    parse_attributes_loop text (S fuel) acc pos = Raise e.
Proof.
  induction l as [|a l IH]; intros pos piece e fuel acc Hl Herr H Hf.
  - cbn [attrs_render map List.concat List.length app] in *.
    rewrite Nat.add_0_r in Herr.
    exact (attr_error_raise pos piece e Herr H fuel acc).
  - destruct fuel as [|fuel]; [simpl in Hf; lia|].
    inversion Hl as [|a' l' (Hb & Hn & Hw1 & Hw2 & Hraw) Hl']; subst.
    rewrite attrs_render_cons, <- app_assoc, attr_render_app in H.
    rewrite (parse_attributes_attr_step text (S fuel) acc pos _ _ _ _ _ _ H
               Hb Hn Hw1 Hw2 Hraw).
    pose proof (skipn_after_attr text pos _ _ _ _ _ _ H) as H'.
    apply (IH _ piece e fuel _ Hl'); [|exact H'|simpl in Hf; lia].
    match goal with
    | |- attr_error ?b _ _ =>
        replace b with (pos + List.length (attrs_render (a :: l)));
        [exact Herr|]
    end.
    rewrite attrs_render_cons, length_app, attr_render_length. lia.
Qed.

Lemma elem_error_head (base : nat) (piece : str) (e : ValueError) :
  elem_error base piece e -> exists r, piece = "<"%char :: r.
Proof. intros []; eexists; reflexivity. Qed.

Lemma elem_error_raise (pos : nat) (piece : str) (e : ValueError) :
  elem_error pos piece e -> skipn pos text = piece ->
  exists fuel0,
    forall fuel, fuel0 <= fuel -> parse_element text fuel pos = Raise e.
Proof.
  intros Herr H.
  destruct Herr as [w0 tail Hw0 Hsp Hstop
                   |w0 name l piece e Hw0 Hname Hl Hstop Herr
                   |w0 name l w1 tail Hw0 Hname Hl Hw1 Htail].
  - exists 1. intros fuel Hf. destruct fuel as [|fuel]; [lia|].
    rewrite parse_element_S.
    destruct (skipn_cons_nth _ _ _ _ H) as [Hc0 H1]. rewrite Hc0.
    change (negb (is_char (Some "<"%char) "<")) with false. cbv iota.
    replace (S pos) with (pos + 1) in H1 by lia.
    rewrite (ws_at text (pos + 1) w0 _ H1 Hw0 Hsp).
    pose proof (skipn_app_at text _ w0 _ H1) as H2.
    rewrite parse_tag_name_stopped; [reflexivity|now rewrite H2].
  - exists (S (S (List.length l))). intros fuel Hf.
    destruct fuel as [|[|fuel]]; [lia|lia|].
    rewrite parse_element_S.
    destruct (skipn_cons_nth _ _ _ _ H) as [Hc0 H1]. rewrite Hc0.
    change (negb (is_char (Some "<"%char) "<")) with false. cbv iota.
    replace (S pos) with (pos + 1) in H1 by lia.
    rewrite (ws_at text (pos + 1) w0 _ H1 Hw0)
      by exact (valid_tag_name_stops_space name _ Hname).
    pose proof (skipn_app_at text _ w0 _ H1) as H2.
    destruct Hname as [Hne Hn].
    rewrite (parse_tag_name_at text _ name _ H2 Hne Hn Hstop).
    pose proof (skipn_app_at text _ name _ H2) as H3.
    unfold parse_attributes. rewrite parse_attributes_loop_ws.
    rewrite (attrs_error_raise l _ piece e fuel [] Hl Herr H3)
      by lia.
    reflexivity.
  - exists (S (S (List.length l))). intros fuel Hf.
    destruct fuel as [|fuel]; [lia|].
    exact (malformed_tag text fuel pos w0 name l w1 tail Hw0 Hname Hl Hw1
             ltac:(lia) Htail H).
Qed.

Lemma close_error_raise (pos : nat) (parent piece : str)
      (e : ValueError) :
  close_error pos parent piece e -> skipn pos text = piece ->
  forall fuel acc, parse_children text (S fuel) parent acc pos = Raise e.
Proof.
  intros Herr H fuel acc.
  destruct Herr as [|w2 tail Hw2 Hsp Hstop
                    |w2 name w3 tail Hw2 Hname Hw3 Hm
                    |w2 name w3 rest Hw2 Hname Hw3 Hne].
  - apply parse_children_end. apply skipn_length_at in H. simpl in H. lia.
  - rewrite parse_children_S.
    pose proof (skipn_cons_lt _ _ _ _ H) as Hlt.
    apply Nat.leb_gt in Hlt. rewrite Hlt.
    rewrite (slice_two_at text pos _ _ _ H).
    change (str_eqb ["<"%char; "/"%char] (lit "</")) with true. cbv iota.
    pose proof (skipn_app_at text pos ["<"%char; "/"%char] _ H) as H1.
    change (List.length ["<"%char; "/"%char]) with 2 in H1.
    rewrite (ws_at text (pos + 2) w2 _ H1 Hw2 Hsp).
    pose proof (skipn_app_at text _ w2 _ H1) as H2.
    rewrite parse_tag_name_stopped; [reflexivity|now rewrite H2].
  - exact (expected_gt_closing text fuel parent acc pos w2 name w3 tail
             Hw2 Hname Hw3 Hm H).
  - rewrite (parse_children_close text fuel parent acc pos w2 name w3 rest
               H Hw2 Hname Hw3).
    apply str_eqb_neq in Hne. now rewrite Hne.
Qed.

(** At a [<] that does not begin [</], the children loop parses a
    child. *)
Lemma parse_children_child_step (fuel : nat) (tag_name : str)
      (children : list SSMLNode) (pos : nat) (r : str) :
  skipn pos text = "<"%char :: r ->
  starts_with "</" (skipn pos text) = false ->
  parse_children text (S fuel) tag_name children pos
  = match parse_element text fuel pos with
    | Ok (child, p1) =>
        parse_children text fuel tag_name (children ++ [child]) p1
    | Raise e => Raise e
    | OutOfFuel => OutOfFuel
    end.
Proof.
  intros H Hs. rewrite parse_children_S.
  pose proof (skipn_cons_lt _ _ _ _ H) as Hlt.
  apply Nat.leb_gt in Hlt. rewrite Hlt.
  change (pos + 2) with (pos + List.length (lit "</")).
  rewrite slice_starts, Hs.
  destruct (skipn_cons_nth _ _ _ _ H) as [-> _]. reflexivity.
Qed.

Lemma piece_error_raise (pos : nat) (parent piece : str)
      (e : ValueError) :
  piece_error pos (Some parent) piece e -> skipn pos text = piece ->
  exists fuel0,
    forall fuel acc,
      fuel0 <= fuel -> parse_children text fuel parent acc pos = Raise e.
Proof.
  intros [Herr|[Hs Herr]] H.
  - exists 1. intros fuel acc Hf. destruct fuel as [|fuel]; [lia|].
    exact (close_error_raise pos parent piece e Herr H fuel acc).
  - destruct (elem_error_raise pos piece e Herr H) as [f0 Hf0].
    destruct (elem_error_head _ _ _ Herr) as [r Hr].
    exists (S f0). intros fuel acc Hf. destruct fuel as [|fuel]; [lia|].
    rewrite (parse_children_child_step fuel parent acc pos r)
      by (rewrite H; assumption).
    now rewrite (Hf0 fuel ltac:(lia)).
Qed.

Lemma piece_error_stops (base : nat) (parent piece : str)
      (e : ValueError) :
  piece_error base (Some parent) piece e ->
  stops (fun c => negb (char_eqb c "<")) piece.
Proof.
  intros [Herr|[_ Herr]].
  - destruct Herr; reflexivity.
  - destruct (elem_error_head _ _ _ Herr) as [r ->]. reflexivity.
Qed.

Lemma after_raw_stops_tail (cs : list Syntax) (tail : str) :
  Forall syntax_ok cs ->
  match map tree_of cs with
  | c :: _ => is_text c = false
  | [] => True
  end ->
  stops (fun c => negb (char_eqb c "<")) tail ->
  stops (fun c => negb (char_eqb c "<")) (children_render cs ++ tail).
Proof.
  intros Hcs Hnext Htail. destruct cs as [|c cs]; [exact Htail|].
  cbn [map] in Hnext. rewrite is_text_tree_of in Hnext.
  apply negb_false_iff in Hnext.
  inversion Hcs as [|c' cs' Hc _]; subst.
  rewrite children_render_cons, <- app_assoc.
  destruct (element_render_head c (children_render cs ++ tail) Hc Hnext)
    as (x & r & -> & _).
  reflexivity.
Qed.

(** The children loop reads complete children one by one. *)
Lemma children_prefix (cs : list Syntax) :
  forall name acc pos tail fuel,
    Forall syntax_ok cs -> no_adjacent_text (map tree_of cs) ->
    stops (fun c => negb (char_eqb c "<")) tail ->
    syntaxes_size cs <= fuel ->
    skipn pos text = children_render cs ++ tail ->
    parse_children text (List.length cs + fuel) name acc pos
    = parse_children text fuel name (acc ++ map tree_of cs)
        (pos + List.length (children_render cs)).
Proof.
  induction cs as [|c cs IH];
    intros name acc pos tail fuel Hcs Hadj Htail Hsize H.
  - cbn [List.length map Nat.add]. rewrite app_nil_r.
    change (children_render []) with (@nil ascii). simpl.
    now rewrite Nat.add_0_r.
  - rewrite syntaxes_size_cons in Hsize.
    pose proof (syntaxes_size_pos cs) as Hcsp.
    inversion Hcs as [|c' cs' Hc Hcs']; subst.
    cbn [map] in Hadj. destruct Hadj as [Hnext Hadj].
    rewrite children_render_cons, <- app_assoc in H.
    cbn [List.length Nat.add].
    pose proof (skipn_app_at text pos _ _ H) as H'.
    destruct (is_element c) eqn:Hel.
    + match type of H with
      | _ = _ ++ ?R =>
          destruct (element_render_head c R Hc Hel) as (x & r & E & Hx)
      end.
      rewrite E in H.
      rewrite (parse_children_element_step text _ name acc pos x r H Hx).
      rewrite <- E in H.
      destruct (rendered_parse (List.length cs + fuel)) as [He _].
      rewrite (He text pos c _ Hc Hel ltac:(lia) H).
      rewrite (IH name _ _ tail fuel Hcs' Hadj Htail ltac:(lia) H').
      rewrite <- app_assoc. cbn [app map]. f_equal.
      rewrite children_render_cons, length_app. lia.
    + destruct c as [raw| |]; [|discriminate|discriminate].
      inversion Hc as [raw' Hne Hlt| |]; subst.
      cbn [render] in H, H'.
      rewrite (parse_children_text_step text _ name acc pos raw _ H
                 Hne Hlt)
        by (apply after_raw_stops_tail;
            [exact Hcs'|now apply Hnext|exact Htail]).
      rewrite (IH name _ _ tail fuel Hcs' Hadj Htail ltac:(lia) H').
      rewrite <- app_assoc. cbn [app map tree_of]. f_equal.
      rewrite children_render_cons, length_app. cbn [render]. lia.
Qed.

Lemma frame_render_head (f : Frame) (rest : str) :
  frame_ok f ->
  exists x r, frame_render f ++ rest = "<"%char :: x :: r /\ x <> "/"%char.
Proof.
  intros (Hw0 & Hname & _). unfold frame_render.
  destruct (name_after_space_head (frame_w0 f) (frame_name f)
              (attrs_render (frame_attrs f) ++ frame_w1 f
                 ++ ">"%char :: children_render (frame_children f) ++ rest)
              Hw0 Hname) as (x & r & E & Hx).
  exists x, r. split; [|exact Hx]. rewrite <- E. list_eq.
Qed.

(** Through the open elements down to the failing piece. *)
Lemma frames_raise (frames : list Frame) :
  forall pos parent piece e,
    frames <> [] -> Forall frame_ok frames ->
    skipn pos text = frames_render frames ++ piece ->
    piece_error (pos + List.length (frames_render frames))
      (innermost parent frames) piece e ->
    exists fuel0,
      forall fuel, fuel0 <= fuel -> parse_element text fuel pos = Raise e.
Proof.
  induction frames as [|f frames IH]; intros pos parent piece e Hne Hfr H Herr;
    [congruence|].
  inversion Hfr as [|f' fs' Hf Hfr']; subst.
  pose proof Hf as (Hw0 & Hname & Hattrs & Hw1 & Hcs & Hadj).
  cbn [innermost] in Herr.
  rewrite frames_render_cons, <- app_assoc in H.
  rewrite frames_render_cons, length_app, frame_render_length in Herr.
  set (cs := frame_children f) in *.
  set (p := pos + 1 + List.length (frame_w0 f) + List.length (frame_name f)
            + List.length (attrs_render (frame_attrs f))
            + List.length (frame_w1 f)).
  set (p2 := p + 1 + List.length (children_render cs)).
  assert (skipn pos text
          = "<"%char :: frame_w0 f ++ frame_name f
              ++ attrs_render (frame_attrs f) ++ frame_w1 f
              ++ ">"%char :: children_render cs
              ++ frames_render frames ++ piece) as H'.
  { rewrite H. unfold frame_render. fold cs. list_eq. }
  assert (exists f0,
             forall fuel acc,
               f0 <= fuel ->
               parse_children text fuel (frame_name f) acc p2 = Raise e
               /\ stops (fun c => negb (char_eqb c "<"))
                    (frames_render frames ++ piece)) as [f0 Hinner].
  { assert (skipn p2 text = frames_render frames ++ piece) as H2.
    { unfold p2, p.
      apply (skipn_app_at text _ (children_render cs)).
      apply (skipn_app_at text _ [">"%char]).
      apply (skipn_app_at text _ (frame_w1 f)).
      apply (skipn_app_at text _ (attrs_render (frame_attrs f))).
      apply (skipn_app_at text _ (frame_name f)).
      apply (skipn_app_at text _ (frame_w0 f)).
      apply (skipn_app_at text _ ["<"%char]).
      rewrite H'. reflexivity. }
    destruct frames as [|f1 frames].
    - cbn [frames_render map List.concat List.length app innermost] in *.
      rewrite Nat.add_0_r in Herr.
      replace (pos + (1 + List.length (frame_w0 f)
                      + List.length (frame_name f)
                      + List.length (attrs_render (frame_attrs f))
                      + List.length (frame_w1 f) + 1
                      + List.length (children_render cs)))
        with p2 in Herr by (unfold p2, p; lia).
      destruct (piece_error_raise p2 _ piece e Herr H2) as [f0 Hf0].
      exists f0. intros fuel acc Hfuel. split; [now apply Hf0|].
      exact (piece_error_stops _ _ _ _ Herr).
    - inversion Hfr' as [|f1' fs1 Hf1 _]; subst.
      destruct (IH p2 (Some (frame_name f)) piece e ltac:(discriminate)
                  Hfr' H2) as [f0 Hf0].
      { match goal with
        | |- piece_error ?b _ _ _ =>
            replace b with
              (pos + (1 + List.length (frame_w0 f)
                      + List.length (frame_name f)
                      + List.length (attrs_render (frame_attrs f))
                      + List.length (frame_w1 f) + 1
                      + List.length (children_render cs)
                      + List.length (frames_render (f1 :: frames))));
            [exact Herr|unfold p2, p; lia]
        end. }
      rewrite frames_render_cons, <- app_assoc in H2 |- *.
      destruct (frame_render_head f1 (frames_render frames ++ piece) Hf1)
        as (x & r & E & Hx).
      exists (S f0). intros fuel acc Hfuel. rewrite E. split; [|reflexivity].
      destruct fuel as [|fuel]; [lia|].
      rewrite E in H2.
      rewrite (parse_children_element_step text fuel _ acc p2 x r H2 Hx).
      now rewrite (Hf0 fuel ltac:(lia)). }
  exists (S (S (List.length (frame_attrs f)) + List.length cs
             + syntaxes_size cs + f0)).
  intros fuel Hfuel. destruct fuel as [|fuel]; [lia|].
  destruct (parse_element_head text fuel pos (frame_w0 f) (frame_name f)
              (frame_attrs f) (frame_w1 f)
              (">"%char :: children_render cs
                 ++ frames_render frames ++ piece)
              Hw0 Hname Hattrs Hw1 ltac:(lia) eq_refl H') as [H5 ->].
  fold p in H5 |- *.
  rewrite (slice_two_neq text _ ">"%char _ (lit "/>") H5)
    by (simpl; congruence).
  destruct (skipn_cons_nth _ _ _ _ H5) as [Hc5 H6]. rewrite Hc5.
  change (is_char (Some ">"%char) ">") with true. cbv iota.
  replace (S p) with (p + 1) in H6 by lia.
  replace fuel with (List.length cs + (fuel - List.length cs)) by lia.
  destruct (Hinner (fuel - List.length cs) (map tree_of cs) ltac:(lia))
    as [Hraise Hstop].
  rewrite (children_prefix cs (frame_name f) [] (p + 1) _
             (fuel - List.length cs) Hcs Hadj Hstop ltac:(lia) H6).
  cbn [app]. fold p2. now rewrite Hraise.
Qed.

End Raises.

(** The call of [parse_element] for the root, after the leading white
    space. *)
Lemma parse_after_lead (text lead r : str) (fuel : nat) :
  text = lead ++ "<"%char :: r -> forallb isspace lead = true ->
  parse text fuel 0
  = match parse_element text fuel (List.length lead) with
    | Ok (node, p1) =>
        let p2 := advance_while text isspace (List.length text - p1) p1 in
        if negb (p2 =? List.length text) then Raise ExtraContent
        else if negb (is_speak node) then Raise RootMustBeSpeak
        else Ok (node, p2)
    | Raise e => Raise e
    | OutOfFuel => OutOfFuel
    end.
Proof.
  intros H Hlead. rewrite parse_eq. cbv zeta.
  assert (skipn 0 text = lead ++ "<"%char :: r) as H0 by exact H.
  rewrite (ws_at text 0 lead _ H0 Hlead) by reflexivity.
  cbn [Nat.add].
  pose proof (skipn_app_at text 0 lead _ H0) as H1. cbn [Nat.add] in H1.
  pose proof (skipn_cons_lt _ _ _ _ H1) as Hlt.
  apply Nat.leb_gt in Hlt. rewrite Hlt.
  destruct (skipn_cons_nth _ _ _ _ H1) as [-> _].
  change (false || negb (is_char (Some "<"%char) "<")) with false.
  reflexivity.
Qed.

Lemma parseSSML_raises (ssml : str) (fuel : nat) (e : ValueError) :
  parse ssml fuel 0 = Raise e -> parseSSML ssml = Raise e.
Proof.
  intros H. now rewrite (parseSSML_of_parse ssml fuel _ H).
Qed.

(** An input with one of the layouts raises the error of the layout. *)
Lemma layout_raises (ssml : str) (e : ValueError) :
  error_layout ssml e -> parseSSML ssml = Raise e.
Proof.
  intros [lead rest -> Hlead Hrest
         |lead s trail c rest -> Hlead Hs Hel Htrail Hc
         |lead s trail -> Hlead Hs Hel Htrail Hroot
         |lead frames piece e' -> Hlead Hfr Herr].
  - unfold parseSSML. rewrite parse_eq. cbv zeta.
    assert (skipn 0 (lead ++ rest) = lead ++ rest) as H0 by reflexivity.
    assert (stops isspace rest) as Hstop.
    { destruct rest as [|c r]; [exact I|]. apply Hrest. }
    rewrite (ws_at (lead ++ rest) 0 lead rest H0 Hlead Hstop).
    cbn [Nat.add].
    pose proof (skipn_app_at (lead ++ rest) 0 lead rest H0) as H1.
    cbn [Nat.add] in H1.
    destruct rest as [|c r].
    + rewrite app_nil_r, Nat.leb_refl. reflexivity.
    + destruct (skipn_cons_nth _ _ _ _ H1) as [-> _].
      destruct Hrest as [_ Hc]. cbn [is_char].
      apply char_eqb_neq in Hc. rewrite Hc. now rewrite orb_true_r.
  - set (text := lead ++ render s ++ trail ++ c :: rest).
    destruct (element_render_head s (trail ++ c :: rest) Hs Hel)
      as (x & r & E & _).
    apply (parseSSML_raises text (syntax_size s)).
    rewrite (parse_after_lead text lead (x :: r))
      by first [assumption | unfold text; now rewrite E].
    assert (skipn (List.length lead) text
            = render s ++ trail ++ c :: rest) as H1
        by (apply (skipn_app_at text 0 lead); reflexivity).
    destruct (rendered_parse (syntax_size s)) as [He _].
    rewrite (He text _ s _ Hs Hel (le_n _) H1). cbv zeta.
    pose proof (skipn_app_at text _ (render s) _ H1) as H2.
    rewrite (ws_at text _ trail _ H2 Htrail Hc).
    assert (List.length text
            = List.length lead + List.length (render s)
              + List.length trail + S (List.length rest)) as ->.
    { unfold text. repeat (rewrite length_app; cbn [List.length]). lia. }
    assert ((List.length lead + List.length (render s) + List.length trail
             =? List.length lead + List.length (render s)
                + List.length trail + S (List.length rest)) = false) as ->
        by (apply Nat.eqb_neq; lia).
    reflexivity.
  - set (text := lead ++ render s ++ trail).
    destruct (element_render_head s trail Hs Hel) as (x & r & E & _).
    apply (parseSSML_raises text (syntax_size s)).
    rewrite (parse_after_lead text lead (x :: r))
      by first [assumption | unfold text; now rewrite E].
    assert (skipn (List.length lead) text = render s ++ trail) as H1
        by (apply (skipn_app_at text 0 lead); reflexivity).
    destruct (rendered_parse (syntax_size s)) as [He _].
    rewrite (He text _ s _ Hs Hel (le_n _) H1). cbv zeta.
    pose proof (skipn_app_at text _ (render s) _ H1) as H2.
    rewrite <- (app_nil_r trail) in H2.
    rewrite (ws_at text _ trail [] H2 Htrail I).
    assert (List.length lead + List.length (render s) + List.length trail
            = List.length text) as ->.
    { unfold text. rewrite !length_app. lia. }
    rewrite Nat.eqb_refl. cbn [negb]. now rewrite Hroot.
  - set (text := lead ++ frames_render frames ++ piece).
    assert (skipn (List.length lead) text = frames_render frames ++ piece)
      as H1 by (apply (skipn_app_at text 0 lead); reflexivity).
    assert (exists r, frames_render frames ++ piece = "<"%char :: r)
      as [r Hr].
    { destruct frames as [|f frames].
      - cbn [innermost] in Herr.
        destruct (elem_error_head _ _ _ Herr) as [r ->]. now exists r.
      - inversion Hfr as [|f' fs Hf _]; subst.
        rewrite frames_render_cons, <- app_assoc.
        destruct (frame_render_head f (frames_render frames ++ piece) Hf)
          as (x & r & -> & _).
        now eexists. }
    assert (exists fuel0,
               forall fuel, fuel0 <= fuel ->
                 parse_element text fuel (List.length lead) = Raise e')
      as [f0 Hf0].
    { destruct frames as [|f frames].
      - cbn [frames_render map List.concat List.length innermost app] in *.
        rewrite Nat.add_0_r in Herr.
        exact (elem_error_raise text _ piece e' Herr H1).
      - exact (frames_raise text (f :: frames) _ None piece e'
                 ltac:(discriminate) Hfr H1 Herr). }
    apply (parseSSML_raises text f0).
    rewrite (parse_after_lead text lead r)
      by first [assumption | unfold text; now rewrite Hr].
    now rewrite (Hf0 f0 (le_n _)).
Qed.

Lemma raised_error_message (ssml : str) (e : ValueError) :
  parseSSML ssml = Raise e ->
  message e <> []
  /\ match error_offset e with
     | Some n =>
         n <= List.length ssml
         /\ exists pre suf, message e = pre ++ format_nat n ++ suf
     | None =>
         e = MustStartWithOpeningTag \/ e = ExtraContent
         \/ e = RootMustBeSpeak
         \/ (exists tag_name,
                e = MissingClosingTag tag_name
                /\ message e
                   = lit "Missing closing tag for <" ++ tag_name ++ lit ">")
         \/ (exists tag_name closing_tag,
                e = MismatchedClosingTag tag_name closing_tag
                /\ closing_tag <> tag_name
                /\ message e
                   = lit "Mismatched closing tag: expected </" ++ tag_name
                       ++ lit "> but found </" ++ closing_tag ++ lit ">")
     end.
Proof.
  intros H.
  assert (error_ok ssml e) as [Hoff Hmis].
  { pose proof (parse_post ssml (fuel_for ssml)) as Hp.
    unfold parseSSML in H.
    destruct (parse ssml (fuel_for ssml) 0) as [[node p]|e'|];
      try discriminate.
    injection H as ->. apply Hp. unfold fuel_for. lia. }
  split; [destruct e; discriminate|].
  destruct e
    as [ | | |pos|pos|pos|pos|pos|pos|pos|start|tag_name|pos
        |tag_name closing_tag];
    cbn [error_offset message]; cbn [error_offset] in Hoff;
    try (split; [now apply Hoff|]; eexists _, [];
         rewrite app_nil_r; reflexivity);
    try tauto.
  - split; [now apply Hoff|]. eexists _, _. reflexivity.
  - do 3 right. left. now exists tag_name.
  - do 4 right. exists tag_name, closing_tag.
    split; [reflexivity|]. split; [|reflexivity].
    intros E. apply (Hmis tag_name closing_tag eq_refl). now symmetry.
Qed.

(** C4, amended — what every error of [parseSSML] reports.  An error is
    raised exactly on the inputs of [error_layout], which gives each error
    its input and each offset its place: the input is leading white
    space, the elements that are open with the children read so far, and
    a failing piece.  For a missing tag name, a missing attribute name, a
    missing [=], a missing or unquoted attribute value, a malformed tag
    and a closing tag without [>], the offset is the cursor where the
    check failed: the length of what has been read, up to and including
    the white space before the missing lexeme.  For an unterminated
    attribute value the failure is detected at the end of the input and
    the offset is the one of the first character of the value.  The
    errors for a missing opening tag, for extra content after the root
    element and for a root not named speak carry a fixed message; the
    error for a missing closing tag names the innermost open element, the
    error for a mismatched closing tag names that element and the
    different name read from the closing tag; these five carry no offset.
    The error for a missing [<] is never raised.  The input determines
    the error; every error is a [ValueError] whose message is not empty
    and holds the offset, which lies within the input, or the names. *)
Theorem parseSSML_error (ssml : str) (e : ValueError) :
  (parseSSML ssml = Raise e <-> error_layout ssml e)
  /\ (forall e', error_layout ssml e -> error_layout ssml e' -> e = e')
  /\ (error_layout ssml e ->
      message e <> []
      /\ match error_offset e with
         | Some n =>
             n <= List.length ssml
             /\ exists pre suf, message e = pre ++ format_nat n ++ suf
         | None =>
             e = MustStartWithOpeningTag \/ e = ExtraContent
             \/ e = RootMustBeSpeak
             \/ (exists tag_name,
                    e = MissingClosingTag tag_name
                    /\ message e
                       = lit "Missing closing tag for <" ++ tag_name
                           ++ lit ">")
             \/ (exists tag_name closing_tag,
                    e = MismatchedClosingTag tag_name closing_tag
                    /\ closing_tag <> tag_name
                    /\ message e
                       = lit "Mismatched closing tag: expected </"
                           ++ tag_name ++ lit "> but found </"
                           ++ closing_tag ++ lit ">")
         end).
Proof.
  split; [split; [apply raised_error_layout|apply layout_raises]|].
  split.
  - intros e' H H'. apply layout_raises in H, H'. congruence.
  - intros H. apply layout_raises in H.
    exact (raised_error_message ssml e H).
Qed.

Lemma parseSSML_error_witness :
  parseSSML "<speak a>x</speak>" = Raise (ExpectedEq 8)
  /\ ~ error_layout "<speak a>x</speak>" (ExpectedEq 0)
  /\ ~ error_layout "<speak a>x</speak>" (ExpectedEq 18)
  /\ parseSSML (sq "<speak a='x") = Raise (AttrValueNotClosed 10)
  /\ parseSSML "<speak><a>x</b>"
     = Raise (MismatchedClosingTag "a" "b")
  /\ parseSSML "<speak><a>x" = Raise (MissingClosingTag "a").
Proof.
  split; [|split; [|split; [|split; [|split]]]].
  - apply (proj1 (parseSSML_error "<speak a>x</speak>" (ExpectedEq 8))).
    apply (error_layout_inside _ [] [] (lit "<speak a>x</speak>"));
      [reflexivity|reflexivity|constructor|].
    apply (elem_error_attr 0 [] (lit "speak") [] (lit " a>x</speak>"));
      [reflexivity|split; [discriminate|reflexivity]|constructor
      |reflexivity|].
    apply (attr_error_eq 6 (lit " ") (lit "a") [] (lit ">x</speak>"));
      [reflexivity|split; [discriminate|reflexivity]|reflexivity|].
    split; [discriminate|]. split; reflexivity.
  - intros H.
    apply (proj1 (parseSSML_error "<speak a>x</speak>" (ExpectedEq 0)))
      in H.
    vm_compute in H. discriminate.
  - intros H.
    apply (proj1 (parseSSML_error "<speak a>x</speak>" (ExpectedEq 18)))
      in H.
    vm_compute in H. discriminate.
  - apply (proj1 (parseSSML_error (sq "<speak a='x")
                    (AttrValueNotClosed 10))).
    apply (error_layout_inside _ [] [] (sq "<speak a='x"));
      [reflexivity|reflexivity|constructor|].
    apply (elem_error_attr 0 [] (lit "speak") [] (sq " a='x"));
      [reflexivity|split; [discriminate|reflexivity]|constructor
      |reflexivity|].
    apply (attr_error_unclosed 6 (lit " ") (lit "a") [] [] (lit "x"));
      [reflexivity|split; [discriminate|reflexivity]|reflexivity
      |reflexivity|].
    vm_compute. intuition discriminate.
  - apply (proj1 (parseSSML_error "<speak><a>x</b>"
                    (MismatchedClosingTag "a" "b"))).
    apply (error_layout_inside _ []
             [mkFrame [] "speak" [] [] []; mkFrame [] "a" [] [] [SynText "x"]]
             (lit "</b>"));
      [reflexivity|reflexivity| |].
    + repeat constructor; try discriminate; try reflexivity.
      vm_compute. intuition discriminate.
    + left.
      apply (close_error_mismatch _ _ [] (lit "b") [] []);
        [reflexivity|split; [discriminate|reflexivity]|reflexivity
        |discriminate].
  - apply (proj1 (parseSSML_error "<speak><a>x" (MissingClosingTag "a"))).
    apply (error_layout_inside _ []
             [mkFrame [] "speak" [] [] []; mkFrame [] "a" [] [] [SynText "x"]]
             []);
      [reflexivity|reflexivity| |].
    + repeat constructor; try discriminate; try reflexivity.
      vm_compute. intuition discriminate.
    + left. apply close_error_missing.
Defined.
